(** * Dijkstra step-through engine of [finalCode_termProject.py]

    A shallow embedding of the algorithmic core of [DijkstraVisualizer]
    (methods [reset], [start], [step], [_finish] and the path walk of
    [_redraw]) and the properties of it that the specification states.

    Modelling conventions.
    - Node identifiers are Python [str]: [string].
    - Weights are Python [int]: [Z].  Distances are Python floats (IEEE
      doubles).  The program makes them as [0.0], [float("inf")] and
      [dist_u + weight]: a float it holds is an integer-valued double, [inf]
      or [-inf].  [Dist] is such a float; [dist_add] converts the weight
      ([OverflowError] when it is too large for a float), adds and rounds
      to the nearest double.
    - The dictionaries [graph], [dist], [prev] are [gmap string _]; a lookup
      [d[k]] of an absent key raises [KeyError].  [step] and [_finish]
      return an [option], [None] meaning that the call raised.  A call that
      raises keeps the fields it has written by then; [step_state] gives the
      state a call leaves behind whether it returns or raises.
    - [visited] is a [gset string].  [unvisited] is a Python [set] whose
      iteration order decides which of several equally distant nodes [min]
      returns; it is kept as the list of its members in iteration order, and
      the order given to [set(self.graph)] is an argument of [reset].
    - [pq] is a [heapq] binary heap.  The program only observes its truth
      value, [pq[0]], [heappop] and [sorted(pq)], all functions of the
      multiset of entries: the list is kept in ascending tuple order.
    - [algo_choice] (the radio buttons) is read by [start] and [step]: an
      argument [Algo].  [time.perf_counter()] is an argument of [start].
    - Of the widgets only the text of [status_label] is kept; it carries the
      verdict computed by [_finish].  The canvas, [timing_label] and the
      state of the Step button are left out, and with them the drawing
      [_redraw] that ends [reset], [start], [step] and [_finish]: it writes
      no field of the engine. *)

From Stdlib Require Import ZArith String List Lia.
From Stdlib Require OrderedTypeEx.
From stdpp Require Import gmap strings list fin_maps sorting.

#[local] Set Warnings "-clear-no-such-hyp".

Local Open Scope string_scope.
Local Open Scope Z_scope.

(** ** Distances *)

(** A float of the program: an integer-valued double, [inf] or [-inf]. *)
Inductive Dist := Fin (z : Z) | Inf | NegInf.

#[global] Instance Dist_eq_dec : EqDecision Dist.
Proof. solve_decision. Defined.

(** The double nearest to the integer [z], ties to the even significand.  A
    double has 53 significant bits: an integer below [2^53] in magnitude is
    a double; a larger one keeps its 53 leading bits [q], rounded by the
    bits [r] it loses. *)
Definition round53 (z : Z) : Z :=
  let a := Z.abs z in
  if Z.log2 a <? 53 then z
  else
    let e := Z.log2 a - 52 in
    let q := a / 2 ^ e in
    let r := a mod 2 ^ e in
    let q' := if 2 * r <? 2 ^ e then q
              else if 2 ^ e <? 2 * r then q + 1
              else if Z.even q then q else q + 1 in
    Z.sgn z * (q' * 2 ^ e).

(** The largest double is below [2^1024]. *)
Definition is_double (r : Z) : bool := Z.log2 (Z.abs r) <? 1024.

(** An int operand of a float operation is converted to a float, rounded to
    the nearest double; an int that rounds beyond the largest double raises
    [OverflowError] ([None]). *)
Definition float_of_int (w : Z) : option Z :=
  let r := round53 w in
  if is_double r then Some r else None.

(** [x + y] on doubles: the sum rounded to the nearest double, an infinity
    when that is beyond the largest double. *)
Definition float_add (x y : Z) : Dist :=
  let r := round53 (x + y) in
  if is_double r then Fin r
  else if 0 <? r then Inf
  else NegInf.

(** [d + weight] for a float [d] and an int [weight]. *)
Definition dist_add (d : Dist) (weight : Z) : option Dist :=
  y ← float_of_int weight;
  Some match d with
       | Fin x => float_add x y
       | Inf => Inf
       | NegInf => NegInf
       end.

(** [a < b] on floats. *)
Definition dist_ltb (a b : Dist) : bool :=
  match a, b with
  | Fin x, Fin y => x <? y
  | Fin _, Inf => true
  | Fin _, NegInf => false
  | Inf, _ => false
  | NegInf, NegInf => false
  | NegInf, _ => true
  end.

(** [d == float("inf")]. *)
Definition is_inf (d : Dist) : bool :=
  match d with
  | Inf => true
  | _ => false
  end.

(** The order [a <= b], used to state properties. *)
Definition dist_le (a b : Dist) : Prop :=
  match a, b with
  | Fin x, Fin y => x <= y
  | NegInf, _ => True
  | _, Inf => True
  | _, _ => False
  end.

(** ** The priority queue *)

Definition Entry : Type := Dist * string.

(** Python's [<] on tuples [(float, str)]. *)
Definition entry_ltb (a b : Entry) : bool :=
  dist_ltb a.1 b.1 || (bool_decide (a.1 = b.1) && String.ltb a.2 b.2).

(** [heapq.heappush(pq, x)]. *)
Fixpoint heappush (x : Entry) (pq : list Entry) : list Entry :=
  match pq with
  | [] => [x]
  | y :: rest => if entry_ltb y x then y :: heappush x rest else x :: pq
  end.

(** The loop [while self.pq and self.pq[0][1] in self.visited:
    heapq.heappop(self.pq)]. *)
Fixpoint drop_stale (vis : gset string) (pq : list Entry) : list Entry :=
  match pq with
  | [] => []
  | e :: rest => if decide (e.2 ∈ vis) then drop_stale vis rest else pq
  end.

(** ** The unvisited set *)

(** [min(unvisited, key=dist.get, default=None)] after its first element:
    [best] is the first minimal element seen so far and [kbest] its key;
    [dist.get] gives Python's [None] for an absent key, and comparing with
    it raises [TypeError]. *)
Fixpoint min_scan (d : gmap string Dist) (best : string) (kbest : option Dist)
    (l : list string) : option string :=
  match l with
  | [] => Some best
  | v :: rest =>
      match d !! v, kbest with
      | Some kv, Some kb =>
          if dist_ltb kv kb then min_scan d v (Some kv) rest
          else min_scan d best kbest rest
      | _, _ => None
      end
  end.

Definition min_unvisited (d : gmap string Dist) (l : list string)
    : option (option string) :=
  match l with
  | [] => Some None
  | v :: rest => Some <$> min_scan d v (d !! v) rest
  end.

(** [unvisited.remove(u)]: the other members keep their order. *)
Definition set_remove (u : string) (l : list string) : list string :=
  filter (λ v, v ≠ u) l.

(** ** Engine state *)

Inductive Algo := heap | lin.

Abbreviation Graph := (gmap string (list (string * Z))).

Record Engine := mkEngine {
  dist : gmap string Dist;
  prev : gmap string (option string);
  visited : gset string;
  unvisited : list string;
  pq : list Entry;
  current_node : option string;
  is_running : bool;
  is_finished : bool;
  start_time : Z;
  status_label : string
}.

Section Visualizer.

Variable graph : Graph.
Variables start_node end_node : string.

(** [reset]; [order] is the iteration order of [set(self.graph)]. *)
Definition reset (order : list string) : Engine :=
  {| dist := <[start_node := Fin 0]> ((λ _, Inf) <$> graph);
     prev := (λ _, None) <$> graph;
     visited := ∅;
     unvisited := order;
     pq := [];
     current_node := None;
     is_running := false;
     is_finished := false;
     start_time := 0;
     status_label := "Select an algorithm and press Start" |}.

(** [start]; [now] is the reading of [time.perf_counter()]. *)
Definition start (algo : Algo) (now : Z) (s : Engine) : Engine :=
  if is_running s then s
  else
    {| dist := dist s;
       prev := prev s;
       visited := visited s;
       unvisited := unvisited s;
       pq := match algo with
             | heap => heappush (Fin 0, start_node) (pq s)
             | lin => pq s
             end;
       current_node := current_node s;
       is_running := true;
       is_finished := is_finished s;
       start_time := now;
       status_label := "Running... Press Step to continue." |}.

Definition _finish (s : Engine) : option Engine :=
  d ← dist s !! end_node;
  Some {| dist := dist s;
          prev := prev s;
          visited := visited s;
          unvisited := unvisited s;
          pq := pq s;
          current_node := current_node s;
          is_running := false;
          is_finished := true;
          start_time := start_time s;
          status_label := if dist_ltb d Inf then "Path found!"
                          else "Target is unreachable." |}.

(** Lines 94-105 of [step]: the choice of the node to settle.  [NoCandidate]
    is the path to [return self._finish()]. *)
Inductive Selection :=
  | NoCandidate (s : Engine)
  | Candidate (dist_u : Dist) (u : string) (s : Engine).

Definition with_pq (q : list Entry) (s : Engine) : Engine :=
  {| dist := dist s; prev := prev s; visited := visited s;
     unvisited := unvisited s; pq := q; current_node := current_node s;
     is_running := is_running s; is_finished := is_finished s;
     start_time := start_time s; status_label := status_label s |}.

Definition with_unvisited (l : list string) (s : Engine) : Engine :=
  {| dist := dist s; prev := prev s; visited := visited s;
     unvisited := l; pq := pq s; current_node := current_node s;
     is_running := is_running s; is_finished := is_finished s;
     start_time := start_time s; status_label := status_label s |}.

Definition select (algo : Algo) (s : Engine) : option Selection :=
  match algo with
  | heap =>
      match drop_stale (visited s) (pq s) with
      | [] => Some (NoCandidate (with_pq [] s))
      | (dist_u, u) :: rest => Some (Candidate dist_u u (with_pq rest s))
      end
  | lin =>
      m ← min_unvisited (dist s) (unvisited s);
      match m with
      | None => Some (NoCandidate s)
      | Some u =>
          dist_u ← dist s !! u;
          if is_inf dist_u then Some (NoCandidate s)
          else Some (Candidate dist_u u
                       (with_unvisited (set_remove u (unvisited s)) s))
      end
  end.

(** [self.current_node = u; self.visited.add(u)]. *)
Definition settle (u : string) (s : Engine) : Engine :=
  {| dist := dist s; prev := prev s; visited := {[u]} ∪ visited s;
     unvisited := unvisited s; pq := pq s; current_node := Some u;
     is_running := is_running s; is_finished := is_finished s;
     start_time := start_time s; status_label := status_label s |}.

(** The body of the relaxation loop when the test [new_dist < dist[neighbor]]
    succeeds. *)
Definition improve (algo : Algo) (u neighbor : string) (new_dist : Dist)
    (s : Engine) : Engine :=
  {| dist := <[neighbor := new_dist]> (dist s);
     prev := <[neighbor := Some u]> (prev s);
     visited := visited s;
     unvisited := unvisited s;
     pq := match algo with
           | heap => heappush (new_dist, neighbor) (pq s)
           | lin => pq s
           end;
     current_node := current_node s;
     is_running := is_running s; is_finished := is_finished s;
     start_time := start_time s; status_label := status_label s |}.

(** [for neighbor, weight in self.graph[u]: ...].  The sum
    [dist_u + weight] is formed before [dist[neighbor]] is looked up. *)
Fixpoint relax (algo : Algo) (u : string) (dist_u : Dist)
    (edges : list (string * Z)) (s : Engine) : option Engine :=
  match edges with
  | [] => Some s
  | (neighbor, weight) :: rest =>
      if decide (neighbor ∈ visited s) then relax algo u dist_u rest s
      else
        new_dist ← dist_add dist_u weight;
        d ← dist s !! neighbor;
        if dist_ltb new_dist d
        then relax algo u dist_u rest (improve algo u neighbor new_dist s)
        else relax algo u dist_u rest s
  end.

Definition step (algo : Algo) (s : Engine) : option Engine :=
  if negb (is_running s) || is_finished s then Some s
  else
    sel ← select algo s;
    match sel with
    | NoCandidate s1 => _finish s1
    | Candidate dist_u u s1 =>
        let s2 := settle u s1 in
        if decide (u = end_node) then _finish s2
        else
          edges ← graph !! u;
          relax algo u dist_u edges s2
    end.

(** [n] calls of [step] that all return. *)
Fixpoint steps (algo : Algo) (n : nat) (s : Engine) : option Engine :=
  match n with
  | O => Some s
  | S k => s' ← step algo s; steps algo k s'
  end.

(** Step until [is_finished], for at most [fuel] presses. *)
Fixpoint run (algo : Algo) (fuel : nat) (s : Engine) : option Engine :=
  if is_finished s then Some s
  else
    match fuel with
    | O => None
    | S k => s' ← step algo s; run algo k s'
    end.

(** ** The state a call leaves behind

    Python does not undo the writes of a call that raises, and Tk reports
    the exception of a button command and carries on: the next press of
    Step finds the fields as the failed call left them. *)

(** The relaxation loop, when it ends or when [dist_u + weight] or
    [dist[neighbor]] raises. *)
Fixpoint relax_state (algo : Algo) (u : string) (dist_u : Dist)
    (edges : list (string * Z)) (s : Engine) : Engine :=
  match edges with
  | [] => s
  | (neighbor, weight) :: rest =>
      if decide (neighbor ∈ visited s) then relax_state algo u dist_u rest s
      else
        match dist_add dist_u weight, dist s !! neighbor with
        | Some new_dist, Some d =>
            if dist_ltb new_dist d
            then relax_state algo u dist_u rest
                   (improve algo u neighbor new_dist s)
            else relax_state algo u dist_u rest s
        | _, _ => s
        end
  end.

(** [_finish]: the two flags are written before [dist[end_node]] is looked
    up. *)
Definition _finish_state (s : Engine) : Engine :=
  match _finish s with
  | Some s' => s'
  | None =>
      {| dist := dist s; prev := prev s; visited := visited s;
         unvisited := unvisited s; pq := pq s;
         current_node := current_node s;
         is_running := false; is_finished := true;
         start_time := start_time s; status_label := status_label s |}
  end.

(** [step]: [min] and [dist[u]] raise before anything is written; stale
    queue entries are popped, and the node is settled, before [graph[u]] and
    the relaxation loop can raise. *)
Definition step_state (algo : Algo) (s : Engine) : Engine :=
  if negb (is_running s) || is_finished s then s
  else
    match select algo s with
    | None => s
    | Some (NoCandidate s1) => _finish_state s1
    | Some (Candidate dist_u u s1) =>
        let s2 := settle u s1 in
        if decide (u = end_node) then _finish_state s2
        else
          match graph !! u with
          | None => s2
          | Some edges => relax_state algo u dist_u edges s2
          end
    end.

(** [n] presses of the Step button. *)
Fixpoint presses (algo : Algo) (n : nat) (s : Engine) : Engine :=
  match n with
  | O => s
  | S k => presses algo k (step_state algo s)
  end.

(** The path walk of [_redraw(show_path=True)]:
    [while curr: path.append(curr); curr = self.prev[curr]] followed by
    [path.reverse()].  [acc] is the reversed [path]; a string is true when
    it is not empty. *)
Inductive Walk :=
  | Walked (path : list string)
  | WalkRaised
  | WalkFuel.

Fixpoint walk_back (p : gmap string (option string)) (fuel : nat)
    (curr : option string) (acc : list string) : Walk :=
  match curr with
  | None => Walked acc
  | Some c =>
      if decide (c = "") then Walked acc
      else
        match fuel with
        | O => WalkFuel
        | S k =>
            match p !! c with
            | None => WalkRaised
            | Some next => walk_back p k next (c :: acc)
            end
        end
  end.

(** What [_redraw(show_path=True)] highlights: nothing when
    [dist[end_node]] is infinite, the walked path otherwise. *)
Inductive Shown :=
  | NoPath
  | ShownPath (w : Walk).

Definition shown_path (fuel : nat) (s : Engine) : option Shown :=
  d ← dist s !! end_node;
  if dist_ltb d Inf then Some (ShownPath (walk_back (prev s) fuel (Some end_node) []))
  else Some NoPath.

End Visualizer.

(** ** The built-in graph *)

Definition builtin_graph : Graph :=
  list_to_map
    [("A", [("B", 2); ("C", 5)]); ("B", [("A", 2); ("C", 6); ("D", 1)]);
     ("C", [("A", 5); ("B", 6); ("E", 3)]); ("D", [("B", 1); ("E", 1); ("F", 4)]);
     ("E", [("C", 3); ("D", 1); ("G", 2)]); ("F", [("D", 4); ("G", 1)]);
     ("G", [("E", 2); ("F", 1)])].

Definition builtin_nodes : list string := ["A"; "B"; "C"; "D"; "E"; "F"; "G"].

(** ** What [_redraw] shows *)

Section Drawing.

Variable graph : Graph.
Variables start_node end_node : string.

(** [_get_node_color]; [node_id == self.current_node] is false while
    [current_node] is [None]. *)
Definition _get_node_color (s : Engine) (node_id : string) : string :=
  if decide (current_node s = Some node_id) then "khaki"
  else if decide (node_id ∈ visited s) then "lightgray"
  else if decide (node_id = start_node) then "lightgreen"
  else if decide (node_id = end_node) then "tomato"
  else "skyblue".

(** The edge lines of [_redraw]: [for u, edges in self.graph.items(): for v,
    w in edges: if u < v: ...], one triple per line drawn.  The keys come in
    the map's order, not in the dictionary's; the lines drawn are the
    same. *)
Definition drawn_edges : list (string * string * Z) :=
  '(u, edges) ← map_to_list graph;
  '(v, w) ← edges;
  if String.ltb u v then [(u, v, w)] else [].

End Drawing.

(** [sorted(items, key=...)] on items already paired with their keys:
    Python's sort is stable and compares keys with [<] only, so its result
    is that of this insertion sort. *)
Fixpoint insert_keyed (kx : Dist) (x : string) (l : list (Dist * string))
    : list (Dist * string) :=
  match l with
  | [] => [(kx, x)]
  | (ky, y) :: rest =>
      if dist_ltb ky kx then (ky, y) :: insert_keyed kx x rest
      else (kx, x) :: l
  end.

Fixpoint sort_keyed (l : list (Dist * string)) : list (Dist * string) :=
  match l with
  | [] => []
  | (k, x) :: rest => insert_keyed k x (sort_keyed rest)
  end.

(** The items of the side panel in linear-scan mode,
    [sorted(self.unvisited, key=self.dist.get)]: with two items or more a
    key that is [None] raises [TypeError] when it is compared. *)
Definition unvisited_items (s : Engine) : option (list string) :=
  match unvisited s with
  | [] => Some []
  | [v] => Some [v]
  | l =>
      keyed ← mapM (λ v, k ← dist s !! v; Some (k, v)) l;
      Some (snd <$> sort_keyed keyed)
  end.

(** * Vocabulary of the properties *)

(** [a <= b] on entries: Python's [not (b < a)]. *)
Definition entry_le (a b : Entry) : Prop := entry_ltb b a = false.

(** The queue is kept in ascending order. *)
Definition pq_sorted (q : list Entry) : Prop := StronglySorted entry_le q.

(** Everything but [dist], [prev] and [pq] is left alone. *)
Definition same_frame (s s' : Engine) : Prop :=
  visited s' = visited s ∧ unvisited s' = unvisited s ∧
  current_node s' = current_node s ∧ is_running s' = is_running s ∧
  is_finished s' = is_finished s ∧ start_time s' = start_time s ∧
  status_label s' = status_label s.

(** The run state Running of the specification. *)
Definition running (s : Engine) : Prop :=
  is_running s = true ∧ is_finished s = false.

(** The graph model's invariant: [start_node] and [end_node] are nodes, and
    so is every neighbour an adjacency list names. *)
Definition closed (graph : Graph) : Prop :=
  map_Forall (λ _ edges, Forall (λ e : string * Z, e.1 ∈ dom graph) edges) graph.

Definition well_formed (graph : Graph) (start_node end_node : string) : Prop :=
  start_node ∈ dom graph ∧ end_node ∈ dom graph ∧ closed graph.

(** Dijkstra's precondition. *)
Definition nonneg (graph : Graph) : Prop :=
  map_Forall (λ _ edges, Forall (λ e : string * Z, 0 <= e.2) edges) graph.

(** Every weight converts to a float: [dist_u + weight] does not raise. *)
Definition float_weights (graph : Graph) : Prop :=
  map_Forall (λ _ edges,
    Forall (λ e : string * Z, is_Some (float_of_int e.2)) edges) graph.

(** Every weight, counted once for each node of the graph, stays below
    [2^53] in magnitude.  The engine adds weights along paths of distinct
    nodes, so the sums it forms are then integers that floats hold exactly:
    its float additions neither round nor overflow. *)
Definition exact_sums (graph : Graph) : Prop :=
  map_Forall (λ _ edges,
    Forall (λ e : string * Z,
      Z.abs e.2 * Z.of_nat (size graph) < 2 ^ 53) edges) graph.

(** [order] is an order in which [set(self.graph)] may iterate. *)
Definition set_order (graph : Graph) (order : list string) : Prop :=
  NoDup order ∧ ∀ v, v ∈ order ↔ v ∈ dom graph.

(** [edge graph u v w]: [(v, w)] is in [graph[u]]. *)
Definition edge (graph : Graph) (u v : string) (w : Z) : Prop :=
  ∃ edges, graph !! u = Some edges ∧ (v, w) ∈ edges.

(** [walk graph start v z]: some walk from [start] to [v] weighs [z]. *)
Inductive walk (graph : Graph) (start_node : string) : string → Z → Prop :=
  | walk_start : walk graph start_node start_node 0
  | walk_edge u v z w :
      walk graph start_node u z → edge graph u v w →
      walk graph start_node v (z + w).

(** [d] is the weight of a lightest walk to [v], or [Inf] when there is
    none. *)
Definition lightest (graph : Graph) (start_node v : string) (d : Dist) : Prop :=
  match d with
  | Fin z => walk graph start_node v z ∧ ∀ z', walk graph start_node v z' → z <= z'
  | Inf => ∀ z, ¬ walk graph start_node v z
  | NegInf => False
  end.

(** The states of a run: what [start] makes of a fresh [reset], and what
    [step] makes of them with the algorithm the run was started with. *)
Inductive run_state (graph : Graph) (start_node end_node : string)
    (algo : Algo) (now : Z) (order : list string) : Engine → Prop :=
  | run_begin :
      run_state graph start_node end_node algo now order
        (start start_node algo now (reset graph start_node order))
  | run_step s s' :
      run_state graph start_node end_node algo now order s →
      step graph end_node algo s = Some s' →
      run_state graph start_node end_node algo now order s'.

(** [dist] right after [reset]. *)
Definition init_dist (graph : Graph) (start_node : string) : gmap string Dist :=
  <[start_node := Fin 0]> ((λ _, Inf) <$> graph).

(** What every state of a run satisfies, whatever the algorithm. *)
Record basic_inv (graph : Graph) (start_node : string) (s : Engine) : Prop := {
  bi_dom_dist : dom (dist s) = dom graph;
  bi_dom_prev : dom (prev s) = dom graph;
  bi_visited : visited s ⊆ dom graph;
  bi_start : dist s !! start_node = Some (Fin 0);
  bi_visited_fin : ∀ v, v ∈ visited s → ∃ d, dist s !! v = Some d ∧ d ≠ Inf;
  bi_reach : ∀ v d, dist s !! v = Some d → d ≠ Inf →
             ∃ z, walk graph start_node v z;
  bi_fresh : start_node ∈ visited s ∨
             (visited s = ∅ ∧ dist s = init_dist graph start_node)
}.

(** The lazy-deletion queue while Running: ascending; the current distance
    of every open node is queued, unless it is [inf]; no entry of an open
    node is below its distance; no priority is [inf]. *)
Record heap_inv (s : Engine) : Prop := {
  hi_sorted : pq_sorted (pq s);
  hi_has : ∀ v d, v ∉ visited s → dist s !! v = Some d → d ≠ Inf →
           (d, v) ∈ pq s;
  hi_ge : ∀ d v, (d, v) ∈ pq s → v ∉ visited s →
          ∃ dv, dist s !! v = Some dv ∧ dist_le dv d;
  hi_fin : ∀ d v, (d, v) ∈ pq s → d ≠ Inf
}.

(** [visited] and [unvisited] partition the nodes. *)
Record lin_inv (graph : Graph) (s : Engine) : Prop := {
  li_nodup : NoDup (unvisited s);
  li_part : ∀ v, v ∈ unvisited s ↔ v ∈ dom graph ∧ v ∉ visited s
}.

Definition frontier_inv (graph : Graph) (algo : Algo) (s : Engine) : Prop :=
  match algo with
  | heap => running s → heap_inv s
  | lin => lin_inv graph s
  end.

(** Dijkstra's invariant while Running: every edge out of a settled node is
    relaxed, and settled nodes are no farther than open ones. *)
Record opt_inv (graph : Graph) (s : Engine) : Prop := {
  oi_relaxed : ∀ u v w zu, u ∈ visited s → edge graph u v w →
               dist s !! u = Some (Fin zu) →
               ∃ dv, dist s !! v = Some dv ∧ dist_le dv (Fin (zu + w));
  oi_mono : ∀ x y dx dy, x ∈ visited s → y ∉ visited s →
            dist s !! x = Some dx → dist s !! y = Some dy → dist_le dx dy
}.

(** While the sums are exact: a distance that is not [inf] is an integer,
    the weight of a walk from the start, and of a size that grows with the
    number of settled nodes only. *)
Record exact_inv (graph : Graph) (start_node : string) (s : Engine) : Prop := {
  ei_fin : ∀ v d, dist s !! v = Some d → d ≠ Inf → ∃ z, d = Fin z;
  ei_walk : ∀ v z, dist s !! v = Some (Fin z) → walk graph start_node v z;
  ei_bound : ∀ v z, dist s !! v = Some (Fin z) →
             Z.abs z * Z.of_nat (size graph)
             <= Z.of_nat (size (visited s)) * (2 ^ 53 - 1)
}.

(** What the choice of a node leaves alone. *)
Definition sel_frame (s s1 : Engine) : Prop :=
  dist s1 = dist s ∧ prev s1 = prev s ∧ visited s1 = visited s ∧
  current_node s1 = current_node s ∧ is_running s1 = is_running s ∧
  is_finished s1 = is_finished s ∧ start_time s1 = start_time s ∧
  status_label s1 = status_label s.

(** What [_finish] leaves alone. *)
Definition finish_frame (s s' : Engine) : Prop :=
  dist s' = dist s ∧ prev s' = prev s ∧ visited s' = visited s ∧
  unvisited s' = unvisited s ∧ pq s' = pq s ∧
  current_node s' = current_node s ∧ start_time s' = start_time s.

(** The verdict [_finish] writes into the status label. *)
Definition verdict (d : Dist) : string :=
  if dist_ltb d Inf then "Path found!" else "Target is unreachable.".

(** What holds of every state of a run. *)
Definition state_inv (graph : Graph) (start_node end_node : string)
    (algo : Algo) (s : Engine) : Prop :=
  basic_inv graph start_node s ∧ frontier_inv graph algo s ∧
  (running s → end_node ∉ visited s) ∧
  (is_finished s = false → is_running s = true).

(** What holds of every state of a run with non-negative weights and exact
    sums. *)
Definition exact_state (graph : Graph) (start_node end_node : string)
    (algo : Algo) (s : Engine) : Prop :=
  state_inv graph start_node end_node algo s ∧
  exact_inv graph start_node s ∧ (running s → opt_inv graph s).

(** What [select] promises while Running. *)
Definition select_post (s : Engine) (sel : Selection) : Prop :=
  match sel with
  | NoCandidate s1 =>
      sel_frame s s1 ∧
      ∀ y dy, y ∉ visited s → dist s !! y = Some dy → dy = Inf
  | Candidate d u s1 =>
      sel_frame s s1 ∧ (u ∉ visited s) ∧ d ≠ Inf ∧
      dist s !! u = Some d ∧
      ∀ y dy, y ∉ visited s → dist s !! y = Some dy → dist_le d dy
  end.

(** The state [select] hands on. *)
Definition sel_state (sel : Selection) : Engine :=
  match sel with
  | NoCandidate s1 => s1
  | Candidate _ _ s1 => s1
  end.

(** [visited] and [unvisited] are disjoint and together hold every node. *)
Definition partition (graph : Graph) (s : Engine) : Prop :=
  NoDup (unvisited s) ∧
  (∀ v, v ∈ unvisited s → v ∉ visited s) ∧
  (∀ v, v ∈ dom graph ↔ v ∈ visited s ∨ v ∈ unvisited s).

(** [chain p start v l]: following the predecessor links [p] back from [v]
    leads to [start], and [l] lists the nodes met, from [start] to [v]. *)
Inductive chain (p : gmap string (option string)) (start_node : string)
    : string → list string → Prop :=
  | chain_start :
      p !! start_node = Some None → chain p start_node start_node [start_node]
  | chain_link v u l :
      p !! v = Some (Some u) → chain p start_node u l →
      chain p start_node v (l ++ [v]).

(** The predecessor links while and after a run: every settled node has a
    chain of distinct settled nodes back to the start; an open node whose
    distance is not [inf] is the start, without predecessor, or its
    predecessor is settled. *)
Record path_inv (start_node : string) (s : Engine) : Prop := {
  pi_chain : ∀ v, v ∈ visited s →
             ∃ l, chain (prev s) start_node v l ∧ NoDup l ∧
                  ∀ x, x ∈ l → x ∈ visited s;
  pi_open : ∀ v d, v ∉ visited s → dist s !! v = Some d → d ≠ Inf →
            (v = start_node ∧ prev s !! v = Some None) ∨
            (∃ x, prev s !! v = Some (Some x) ∧ x ∈ visited s)
}.

#[global] Instance Walk_eq_dec : EqDecision Walk.
Proof. solve_decision. Defined.

#[global] Instance Shown_eq_dec : EqDecision Shown.
Proof. solve_decision. Defined.

(** ** Concrete graphs *)

(** The run on the built-in graph, and the outcome the specification
    expects of it. *)
Definition builtin_run (algo : Algo) (now : Z) (order : list string)
    : option Engine :=
  run builtin_graph "G" algo 7
    (start "A" algo now (reset builtin_graph "A" order)).

Definition builtin_expected (s : Engine) : Prop :=
  is_finished s = true ∧ dist s !! "G" = Some (Fin 6) ∧
  shown_path "G" 7 s = Some (ShownPath (Walked ["A"; "B"; "D"; "E"; "G"])).

Definition builtin_check (algo : Algo) (now : Z) (order : list string) : bool :=
  match builtin_run algo now order with
  | Some s => bool_decide (builtin_expected s)
  | None => false
  end.

(** The built-in graph without the edges to G: G is unreachable. *)
Definition island_graph : Graph :=
  list_to_map
    [("A", [("B", 2); ("C", 5)]); ("B", [("A", 2); ("C", 6); ("D", 1)]);
     ("C", [("A", 5); ("B", 6); ("E", 3)]); ("D", [("B", 1); ("E", 1); ("F", 4)]);
     ("E", [("C", 3); ("D", 1)]); ("F", [("D", 4)]);
     ("G", [])].



(** One edge whose weight, [2^53 + 1], no float holds. *)
Definition round_graph : Graph :=
  list_to_map [("S", [("T", 2 ^ 53 + 1)]); ("T", [("S", 2 ^ 53 + 1)])].

(** S - M - T with weights of [10^308]: each is a float, their sum is beyond
    the largest float. *)
Definition far_graph : Graph :=
  list_to_map
    [("S", [("M", 10 ^ 308)]); ("M", [("S", 10 ^ 308); ("T", 10 ^ 308)]);
     ("T", [("M", 10 ^ 308)])].

(** One edge whose weight, [10^400], is too large to convert to a float. *)
Definition huge_graph : Graph :=
  list_to_map [("S", [("T", 10 ^ 400)]); ("T", [("S", 10 ^ 400)])].



(** ** Vocabulary of the further properties *)

(** Every settled node carries the weight of a lightest walk to it. *)
Definition settled_exact (graph : Graph) (start_node : string) (s : Engine)
    : Prop :=
  ∀ v, v ∈ visited s →
       ∃ d, dist s !! v = Some d ∧ lightest graph start_node v d.

(** [prev] and [dist] move in lockstep: the start node has no predecessor; a
    predecessor is a settled node, joined to the node by an edge [w], and
    the node's distance is the float sum [dist[u] + w]; a node without
    predecessor is the start node or at infinite distance. *)
Record pred_inv (graph : Graph) (start_node : string) (s : Engine) : Prop := {
  pv_start : prev s !! start_node = Some None;
  pv_link : ∀ v u, prev s !! v = Some (Some u) →
            ∃ d du w, dist s !! v = Some d ∧ d ≠ Inf ∧ u ∈ visited s ∧
                      edge graph u v w ∧ dist s !! u = Some du ∧
                      dist_add du w = Some d;
  pv_none : ∀ v, prev s !! v = Some None →
            v = start_node ∨ dist s !! v = Some Inf
}.

(** While the sums are exact: the weight of the edge from a predecessor
    makes up the difference of the two distances. *)
Definition pred_exact (graph : Graph) (s : Engine) : Prop :=
  ∀ v u, prev s !! v = Some (Some u) →
         ∃ z zu w, dist s !! v = Some (Fin z) ∧ u ∈ visited s ∧
                   edge graph u v w ∧ dist s !! u = Some (Fin zu) ∧
                   z = zu + w.

(** [path_walk graph l z]: each node of [l] is joined to the next by an edge
    of the graph, and the weights of these edges add up to [z]. *)
Inductive path_walk (graph : Graph) : list string → Z → Prop :=
  | path_one v : path_walk graph [v] 0
  | path_snoc l u v z w :
      path_walk graph l z → last l = Some u → edge graph u v w →
      path_walk graph (l ++ [v]) (z + w).

(** An undirected graph held as two directed entries per edge. *)
Definition symmetric (graph : Graph) : Prop :=
  ∀ u v w, edge graph u v w → edge graph v u w.

(** [current_node] is the node settled last. *)
Definition current_inv (s : Engine) : Prop :=
  (∀ u, current_node s = Some u → u ∈ visited s) ∧
  (current_node s = None → visited s = ∅).

(** Every queue entry, stale or not, is for a node that a walk reaches, and
    is not below the node's distance. *)
Definition queue_real (graph : Graph) (start_node : string) (s : Engine)
    : Prop :=
  ∀ d v, (d, v) ∈ pq s →
         d ≠ Inf ∧ (∃ z, walk graph start_node v z) ∧
         ∃ dv, dist s !! v = Some dv ∧ dist_le dv d.

(** While the sums are exact, the priority is the weight of such a walk. *)
Definition queue_exact (graph : Graph) (start_node : string) (s : Engine)
    : Prop :=
  ∀ d v, (d, v) ∈ pq s → ∃ z, d = Fin z ∧ walk graph start_node v z.

(** No distance and no priority is negative or [-inf]: [int(dist_val)] and
    [int(d)], which [_redraw] takes of every distance that is not [inf] and
    of every priority, are defined. *)
Definition nonneg_dists (s : Engine) : Prop :=
  (∀ v d, dist s !! v = Some d → dist_le (Fin 0) d) ∧
  (∀ d v, (d, v) ∈ pq s → dist_le (Fin 0) d ∧ d ≠ Inf).

(** A list of keyed items in ascending key order. *)
Definition keys_sorted (l : list (Dist * string)) : Prop :=
  StronglySorted (λ a b, dist_le a.1 b.1) l.

(** The first item of least key in a list of keyed items, found as [min]
    finds it, from the left with the best item so far, and as the stable
    sort brings it to the front, from the right. *)
Fixpoint first_min_l (best : Dist * string) (l : list (Dist * string))
    : Dist * string :=
  match l with
  | [] => best
  | (k, v) :: rest =>
      if dist_ltb k best.1 then first_min_l (k, v) rest
      else first_min_l best rest
  end.

Fixpoint first_min_r (l : list (Dist * string)) : option (Dist * string) :=
  match l with
  | [] => None
  | (k, v) :: rest =>
      match first_min_r rest with
      | None => Some (k, v)
      | Some m => if dist_ltb m.1 k then Some m else Some (k, v)
      end
  end.

(** The items of a list paired with their keys in [d]. *)
Definition keyed_by (d : gmap string Dist) (l : list string)
    (keyed : list (Dist * string)) : Prop :=
  Forall2 (λ v kv, kv.2 = v ∧ d !! v = Some kv.1) l keyed.

(** The run's status line, as the state warrants it. *)
Definition status_matches (end_node : string) (s : Engine) : Prop :=
  (running s ∧ status_label s = "Running... Press Step to continue.") ∨
  (is_running s = false ∧ is_finished s = true ∧
   ∃ d, dist s !! end_node = Some d ∧
        status_label s = (if dist_ltb d Inf then "Path found!"
                          else "Target is unreachable.")).

(** * Properties *)

(** ** The order on distances and on queue entries *)

Lemma dist_le_refl d : dist_le d d.
Proof. destruct d; simpl; [lia | done | done]. Qed.

Lemma dist_le_trans a b c : dist_le a b → dist_le b c → dist_le a c.
Proof. destruct a, b, c; simpl; try done; lia. Qed.

Lemma dist_ltb_le a b : dist_ltb a b = true → dist_le a b.
Proof. destruct a, b; simpl; try done; lia. Qed.

Lemma dist_ltb_false_le a b : dist_ltb a b = false → dist_le b a.
Proof. destruct a, b; simpl; try done; lia. Qed.

Lemma dist_ltb_not_le a b : dist_ltb a b = true → dist_le b a → False.
Proof. destruct a, b; simpl; try done; lia. Qed.

Lemma dist_le_antisym a b : dist_le a b → dist_le b a → a = b.
Proof. destruct a, b; simpl; try done. intros. f_equal. lia. Qed.

Lemma dist_ltb_irrefl a : dist_ltb a a = false.
Proof. destruct a; simpl; [lia | done | done]. Qed.

Lemma dist_ltb_trans a b c :
  dist_ltb a b = true → dist_ltb b c = true → dist_ltb a c = true.
Proof. destruct a, b, c; simpl; try done; lia. Qed.

Lemma dist_ltb_neg_trans a b c :
  dist_ltb a b = false → dist_ltb b c = false → dist_ltb a c = false.
Proof. destruct a, b, c; simpl; try done; lia. Qed.

Lemma dist_ltb_inf d : dist_ltb d Inf = true ↔ d ≠ Inf.
Proof. destruct d; simpl; split; done. Qed.

Lemma dist_ltb_not_inf a b : dist_ltb a b = true → a ≠ Inf.
Proof. by destruct a. Qed.

Lemma dist_le_inf d : dist_le Inf d → d = Inf.
Proof. by destruct d. Qed.

Lemma is_inf_false d : is_inf d = false ↔ d ≠ Inf.
Proof. destruct d; simpl; split; done. Qed.

(** ** Float arithmetic *)

Lemma log2_small a : 0 <= a < 2 ^ 53 → Z.log2 a < 53.
Proof.
  intros [H0 H1]. destruct (decide (a = 0)) as [->|Hne]; [done|].
  apply Z.log2_lt_pow2; lia.
Qed.

(** An integer below [2^53] in magnitude is a double. *)
Lemma round53_small z : Z.abs z < 2 ^ 53 → round53 z = z.
Proof.
  intros Hz. unfold round53.
  assert (Z.log2 (Z.abs z) < 53) as Hlog by (apply log2_small; lia).
  apply Z.ltb_lt in Hlog. by rewrite Hlog.
Qed.

Lemma is_double_small z : Z.abs z < 2 ^ 53 → is_double z = true.
Proof.
  intros Hz. unfold is_double. apply Z.ltb_lt.
  assert (Z.log2 (Z.abs z) < 53) by (apply log2_small; lia). lia.
Qed.

Lemma float_of_int_small w : Z.abs w < 2 ^ 53 → float_of_int w = Some w.
Proof.
  intros Hw. unfold float_of_int.
  by rewrite round53_small, is_double_small.
Qed.

(** Below [2^53] the float sum is the sum. *)
Lemma dist_add_exact x w :
  Z.abs w < 2 ^ 53 → Z.abs (x + w) < 2 ^ 53 →
  dist_add (Fin x) w = Some (Fin (x + w)).
Proof.
  intros Hw Hs. unfold dist_add. rewrite float_of_int_small by done. simpl.
  unfold float_add. by rewrite round53_small, is_double_small.
Qed.

Lemma round53_nonneg z : 0 <= z → 0 <= round53 z.
Proof.
  intros Hz. unfold round53.
  destruct (Z.log2 (Z.abs z) <? 53); [done|].
  set (e := Z.log2 (Z.abs z) - 52).
  assert (0 <= 2 ^ e) as He by (apply Z.pow_nonneg; lia).
  assert (0 <= Z.abs z / 2 ^ e) as Hq by (apply Z_div_nonneg_nonneg; lia).
  assert (0 <= Z.sgn z) as Hs by (apply Z.sgn_nonneg; lia).
  destruct (2 * (Z.abs z mod 2 ^ e) <? 2 ^ e); [nia|].
  destruct (2 ^ e <? 2 * (Z.abs z mod 2 ^ e)); [nia|].
  destruct (Z.even (Z.abs z / 2 ^ e)); nia.
Qed.

(** With a non-negative weight a distance that is not negative stays so:
    the float sum is not negative and not [-inf]. *)
Lemma dist_add_nonneg du w nd :
  dist_le (Fin 0) du → 0 <= w → dist_add du w = Some nd →
  dist_le (Fin 0) nd.
Proof.
  intros Hdu Hw. unfold dist_add, float_of_int.
  pose proof (round53_nonneg w Hw) as Hy.
  destruct (is_double (round53 w)); simpl; [|done].
  intros [= <-]. destruct du as [x| |]; [|done|done].
  simpl in Hdu. unfold float_add.
  pose proof (round53_nonneg (x + round53 w) ltac:(lia)) as Hr.
  destruct (is_double (round53 (x + round53 w))) eqn:Hd; [done|].
  destruct (0 <? round53 (x + round53 w)) eqn:Hpos; [done|].
  apply Z.ltb_ge in Hpos.
  assert (round53 (x + round53 w) = 0) as H0 by lia.
  by rewrite H0 in Hd.
Qed.

(** The sum raises exactly when the weight does not convert. *)
Lemma dist_add_None d w : dist_add d w = None ↔ float_of_int w = None.
Proof. unfold dist_add. by destruct (float_of_int w). Qed.

Lemma dist_add_is_Some d w :
  is_Some (dist_add d w) ↔ is_Some (float_of_int w).
Proof.
  unfold dist_add. destruct (float_of_int w); simpl.
  - split; eauto.
  - split; by intros [? ?].
Qed.

Lemma string_ltb_lt a b : String.ltb a b = true ↔ OrderedTypeEx.String_as_OT.lt a b.
Proof.
  rewrite <- OrderedTypeEx.String_as_OT.cmp_lt.
  unfold String.ltb, OrderedTypeEx.String_as_OT.cmp.
  destruct (String.compare a b); split; congruence.
Qed.

Lemma string_ltb_irrefl a : String.ltb a a = false.
Proof.
  destruct (String.ltb a a) eqn:E; [|done].
  apply string_ltb_lt, OrderedTypeEx.String_as_OT.lt_not_eq in E.
  by destruct E.
Qed.

Lemma string_ltb_trans a b c :
  String.ltb a b = true → String.ltb b c = true → String.ltb a c = true.
Proof.
  rewrite !string_ltb_lt. apply OrderedTypeEx.String_as_OT.lt_trans.
Qed.

Lemma string_ltb_total a b :
  String.ltb a b = false → String.ltb b a = false → a = b.
Proof.
  unfold String.ltb. rewrite (String.compare_antisym b a).
  destruct (String.compare a b) eqn:E; simpl; try done.
  intros _ _. by apply String.compare_eq_iff.
Qed.

Lemma entry_ltb_asym a b : entry_ltb a b = true → entry_le a b.
Proof.
  unfold entry_le, entry_ltb. destruct a as [da na], b as [db nb]; simpl.
  intros H. apply orb_true_iff in H as [H|H].
  - apply orb_false_iff. split.
    + destruct da, db; simpl in *; try done; lia.
    + apply andb_false_iff. left. apply bool_decide_eq_false. intros ->.
      by rewrite dist_ltb_irrefl in H.
  - apply andb_true_iff in H as [H1 H2]. apply bool_decide_eq_true in H1 as ->.
    apply orb_false_iff. split.
    + apply dist_ltb_irrefl.
    + apply andb_false_iff. right.
      destruct (String.ltb nb na) eqn:E; [|done].
      pose proof (string_ltb_trans _ _ _ H2 E) as F.
      by rewrite string_ltb_irrefl in F.
Qed.

Lemma entry_le_refl a : entry_le a a.
Proof.
  unfold entry_le, entry_ltb. rewrite string_ltb_irrefl, andb_false_r, orb_false_r.
  apply dist_ltb_irrefl.
Qed.

Lemma entry_le_trans a b c : entry_le a b → entry_le b c → entry_le a c.
Proof.
  unfold entry_le, entry_ltb.
  destruct a as [da na], b as [db nb], c as [dc nc]; simpl.
  rewrite !orb_false_iff, !andb_false_iff, !bool_decide_eq_false.
  intros [H1 H2] [H3 H4].
  split.
  - by eapply dist_ltb_neg_trans.
  - destruct (decide (dc = da)) as [Heq|Hne]; [subst dc|by left].
    right.
    assert (db = da) as ->.
    { apply dist_le_antisym; by apply dist_ltb_false_le. }
    destruct H2 as [H2|H2]; [done|]. destruct H4 as [H4|H4]; [done|].
    destruct (String.ltb nc na) eqn:E; [|done].
    destruct (String.ltb nb nc) eqn:E2.
    + pose proof (string_ltb_trans _ _ _ E2 E). congruence.
    + pose proof (string_ltb_total _ _ H4 E2) as ->. congruence.
Qed.

Lemma entry_le_dist (a b : Entry) : entry_le a b → dist_le a.1 b.1.
Proof.
  unfold entry_le, entry_ltb. intros H. apply orb_false_iff in H as [H _].
  by apply dist_ltb_false_le.
Qed.

Lemma elem_of_heappush e x q : e ∈ heappush x q ↔ e = x ∨ e ∈ q.
Proof.
  induction q as [|y q IH]; simpl.
  - set_solver.
  - destruct (entry_ltb y x); set_solver.
Qed.

Lemma heappush_sorted x q : pq_sorted q → pq_sorted (heappush x q).
Proof.
  unfold pq_sorted. induction 1 as [|y q Hq IH Hy]; simpl.
  - repeat constructor.
  - destruct (entry_ltb y x) eqn:E.
    + constructor; [done|].
      apply Forall_forall. intros e He. apply elem_of_heappush in He as [->|He].
      * by apply entry_ltb_asym.
      * by eapply Forall_forall in Hy.
    + constructor; [by constructor|].
      constructor; [done|].
      eapply Forall_impl; [exact Hy|]. intros e He.
      by eapply entry_le_trans.
Qed.

Lemma drop_stale_sorted vis q : pq_sorted q → pq_sorted (drop_stale vis q).
Proof.
  unfold pq_sorted. induction 1 as [|e q Hq IH He]; simpl; [constructor|].
  destruct (decide (e.2 ∈ vis)); [done | by constructor].
Qed.

Lemma drop_stale_fresh vis q e : e ∈ q → e.2 ∉ vis → e ∈ drop_stale vis q.
Proof.
  induction q as [|y q IH]; simpl; [set_solver|].
  destruct (decide (y.2 ∈ vis)); set_solver.
Qed.

Lemma drop_stale_subseteq vis q e : e ∈ drop_stale vis q → e ∈ q.
Proof.
  induction q as [|y q IH]; simpl; [set_solver|].
  destruct (decide (y.2 ∈ vis)); set_solver.
Qed.

Lemma drop_stale_head vis q e rest : drop_stale vis q = e :: rest → e.2 ∉ vis.
Proof.
  induction q as [|y q IH]; simpl; [done|].
  destruct (decide (y.2 ∈ vis)); [done|]. by intros [= -> _].
Qed.

(** ** The linear scan *)

Lemma min_scan_spec d l : ∀ best kb u,
  d !! best = Some kb →
  min_scan d best (Some kb) l = Some u →
  (u = best ∨ u ∈ l) ∧
  ∃ ku, d !! u = Some ku ∧ dist_le ku kb ∧
        ∀ y, y ∈ l → ∃ ky, d !! y = Some ky ∧ dist_le ku ky.
Proof.
  induction l as [|v l IH]; simpl; intros best kb u Hb H.
  - injection H as <-. split; [by left|]. exists kb.
    split_and!; [done | apply dist_le_refl | set_solver].
  - destruct (d !! v) as [kv|] eqn:Hv; [|done].
    destruct (dist_ltb kv kb) eqn:Hlt.
    + destruct (IH _ _ _ Hv H) as (Hin & ku & Hu & Hle & Hall).
      split; [set_solver|]. exists ku. split_and!; [done | |].
      * eapply dist_le_trans; [done|]. by apply dist_ltb_le.
      * intros y Hy. apply elem_of_cons in Hy as [->|Hy]; [|by apply Hall].
        by exists kv.
    + destruct (IH _ _ _ Hb H) as (Hin & ku & Hu & Hle & Hall).
      split; [set_solver|]. exists ku. split_and!; [done | done |].
      intros y Hy. apply elem_of_cons in Hy as [->|Hy]; [|by apply Hall].
      exists kv. split; [done|].
      eapply dist_le_trans; [done|]. by apply dist_ltb_false_le.
Qed.

Lemma min_scan_total d l : ∀ best kb,
  (∀ y, y ∈ l → is_Some (d !! y)) → is_Some (min_scan d best (Some kb) l).
Proof.
  induction l as [|v l IH]; simpl; intros best kb Hall; [done|].
  destruct (Hall v) as [kv Hv]; [set_solver|]. rewrite Hv.
  destruct (dist_ltb kv kb); apply IH; set_solver.
Qed.

Lemma min_unvisited_none d l : min_unvisited d l = Some None ↔ l = [].
Proof.
  destruct l as [|v l]; simpl; [done|].
  destruct (min_scan d v (d !! v) l); simpl; split; done.
Qed.

Lemma min_unvisited_spec d l u ku :
  min_unvisited d l = Some (Some u) →
  d !! u = Some ku →
  u ∈ l ∧ ∀ y, y ∈ l → ∃ ky, d !! y = Some ky ∧ dist_le ku ky.
Proof.
  destruct l as [|v l]; simpl; [done|].
  destruct (d !! v) as [kv|] eqn:Hv.
  - destruct (min_scan d v (Some kv) l) as [u'|] eqn:Hm; simpl; [|done].
    intros [= ->] Hu.
    destruct (min_scan_spec _ _ _ _ _ Hv Hm) as (Hin & ku' & Hu' & Hle & Hall).
    assert (ku' = ku) as -> by congruence.
    split; [set_solver|].
    intros y Hy. apply elem_of_cons in Hy as [->|Hy]; [|by apply Hall].
    by exists kv.
  - destruct l as [|v' l]; simpl.
    + intros [= ->]. congruence.
    + by destruct (d !! v').
Qed.

Lemma min_unvisited_total d l :
  (∀ y, y ∈ l → is_Some (d !! y)) → is_Some (min_unvisited d l).
Proof.
  destruct l as [|v l]; simpl; intros Hall; [done|].
  destruct (Hall v) as [kv Hv]; [set_solver|]. rewrite Hv.
  destruct (min_scan_total d l v kv) as [u Hu]; [set_solver|].
  rewrite Hu. done.
Qed.

Lemma elem_of_set_remove u l v : v ∈ set_remove u l ↔ v ∈ l ∧ v ≠ u.
Proof. unfold set_remove. rewrite list_elem_of_filter. tauto. Qed.

Lemma NoDup_set_remove u l : NoDup l → NoDup (set_remove u l).
Proof. apply NoDup_filter. Qed.


(** ** The relaxation loop *)

(** A loop that returns leaves the state it returns. *)
Lemma relax_returned algo u du edges : ∀ s s',
  relax algo u du edges s = Some s' → relax_state algo u du edges s = s'.
Proof.
  induction edges as [|[nbr w] edges IH]; simpl; intros s s' Hr.
  - by injection Hr as <-.
  - destruct (decide (nbr ∈ visited s)); [by apply IH|].
    destruct (dist_add du w) as [nd|]; simpl in Hr; [|done].
    destruct (dist s !! nbr) as [d|]; simpl in Hr; [|done].
    destruct (dist_ltb nd d); by apply IH.
Qed.

(** An induction principle: a property of the state that every improvement
    of a neighbour's distance preserves holds after the loop, whether it
    ends or raises. *)
Lemma relax_state_ind (P : Engine → Prop) algo u du edges : ∀ s,
  P s →
  (∀ s0 nbr w nd d,
      P s0 → visited s0 = visited s → (nbr, w) ∈ edges →
      nbr ∉ visited s0 → dist_add du w = Some nd →
      dist s0 !! nbr = Some d → dist_ltb nd d = true →
      P (improve algo u nbr nd s0)) →
  P (relax_state algo u du edges s).
Proof.
  induction edges as [|[nbr w] edges IH]; simpl; intros s HP Himp; [done|].
  destruct (decide (nbr ∈ visited s)) as [Hv|Hv].
  - apply IH; [done|]. intros. eapply Himp; eauto. set_solver.
  - destruct (dist_add du w) as [nd|] eqn:Hnd; [|done].
    destruct (dist s !! nbr) as [d|] eqn:Hd; [|done].
    destruct (dist_ltb nd d) eqn:Hlt.
    + apply IH.
      * eapply Himp; eauto. set_solver.
      * intros. eapply Himp; eauto. set_solver.
    + apply IH; [done|]. intros. eapply Himp; eauto. set_solver.
Qed.

Lemma relax_ind (P : Engine → Prop) algo u du edges s s' :
  relax algo u du edges s = Some s' →
  P s →
  (∀ s0 nbr w nd d,
      P s0 → visited s0 = visited s → (nbr, w) ∈ edges →
      nbr ∉ visited s0 → dist_add du w = Some nd →
      dist s0 !! nbr = Some d → dist_ltb nd d = true →
      P (improve algo u nbr nd s0)) →
  P s'.
Proof.
  intros Hr HP Himp. rewrite <- (relax_returned _ _ _ _ _ _ Hr).
  by apply relax_state_ind.
Qed.

Lemma relax_state_frame algo u du edges s :
  same_frame s (relax_state algo u du edges s).
Proof.
  apply (relax_state_ind (same_frame s)); [by repeat split|].
  intros s0 nbr w nd d (?&?&?&?&?&?&?) _ _ _ _ _ _. by repeat split.
Qed.

Lemma relax_frame algo u du edges s s' :
  relax algo u du edges s = Some s' → same_frame s s'.
Proof. intros <-%relax_returned. apply relax_state_frame. Qed.

Lemma relax_pq_lin u du edges s s' :
  relax lin u du edges s = Some s' → pq s' = pq s.
Proof.
  intros Hr. by eapply (relax_ind (λ s0, pq s0 = pq s)).
Qed.

Lemma relax_state_dom algo u du edges s :
  dom (prev s) = dom (dist s) →
  dom (dist (relax_state algo u du edges s)) = dom (dist s) ∧
  dom (prev (relax_state algo u du edges s)) = dom (dist s).
Proof.
  intros Heq.
  apply (relax_state_ind (λ s0, dom (dist s0) = dom (dist s) ∧
                                dom (prev s0) = dom (dist s))); [done|].
  intros s0 nbr w nd d [Hd Hp] Hvis _ Hnv _ Hl _. simpl.
  rewrite !dom_insert_L, Hd, Hp.
  assert (nbr ∈ dom (dist s)) by (rewrite <- Hd; by apply elem_of_dom).
  set_solver.
Qed.

Lemma relax_dom algo u du edges s s' :
  relax algo u du edges s = Some s' →
  dom (prev s) = dom (dist s) →
  dom (dist s') = dom (dist s) ∧ dom (prev s') = dom (dist s).
Proof. intros <-%relax_returned. apply relax_state_dom. Qed.

(** What the loop does to one node's entries: nothing, or the entries of a
    relaxation through an edge out of [u]. *)
Lemma relax_state_changed algo u du edges s v :
  let s' := relax_state algo u du edges s in
  (dist s' !! v = dist s !! v ∧ prev s' !! v = prev s !! v) ∨
  ((v ∉ visited s) ∧ ∃ w nd d, (v, w) ∈ edges ∧ dist_add du w = Some nd ∧
     dist s !! v = Some d ∧ dist_ltb nd d = true ∧
     dist s' !! v = Some nd ∧ prev s' !! v = Some (Some u)).
Proof.
  apply (relax_state_ind (λ s0,
    (dist s0 !! v = dist s !! v ∧ prev s0 !! v = prev s !! v) ∨
    ((v ∉ visited s) ∧ ∃ w nd d, (v, w) ∈ edges ∧ dist_add du w = Some nd ∧
       dist s !! v = Some d ∧ dist_ltb nd d = true ∧
       dist s0 !! v = Some nd ∧ prev s0 !! v = Some (Some u))));
    [by left|].
  intros s0 nbr w nd d HP Hvis Hin Hnv Hnd Hl Hlt. simpl.
  destruct (decide (nbr = v)) as [->|Hne].
  - right. split; [by rewrite <- Hvis|].
    rewrite !lookup_insert_eq.
    destruct HP as [[Hd _]|(_ & w0 & nd0 & d0 & Hin0 & Hnd0 & Hd0 & Hlt0 & Hd0' & _)].
    + exists w, nd, d. rewrite <- Hd. done.
    + exists w, nd, d0. split_and!; try done.
      rewrite Hl in Hd0'. injection Hd0' as ->.
      by eapply dist_ltb_trans.
  - rewrite !lookup_insert_ne by done. done.
Qed.

Lemma relax_changed algo u du edges s s' v :
  relax algo u du edges s = Some s' →
  (dist s' !! v = dist s !! v ∧ prev s' !! v = prev s !! v) ∨
  ((v ∉ visited s) ∧ ∃ w nd d, (v, w) ∈ edges ∧ dist_add du w = Some nd ∧
     dist s !! v = Some d ∧ dist_ltb nd d = true ∧
     dist s' !! v = Some nd ∧ prev s' !! v = Some (Some u)).
Proof. intros <-%relax_returned. apply relax_state_changed. Qed.

Lemma relax_state_visited_same algo u du edges s v :
  v ∈ visited s →
  dist (relax_state algo u du edges s) !! v = dist s !! v ∧
  prev (relax_state algo u du edges s) !! v = prev s !! v.
Proof.
  intros Hv. destruct (relax_state_changed algo u du edges s v) as [?|[? _]]; done.
Qed.

Lemma relax_visited_same algo u du edges s s' v :
  relax algo u du edges s = Some s' → v ∈ visited s →
  dist s' !! v = dist s !! v ∧ prev s' !! v = prev s !! v.
Proof. intros <-%relax_returned. apply relax_state_visited_same. Qed.

Lemma relax_state_dist_mono algo u du edges s v d :
  dist s !! v = Some d →
  ∃ d', dist (relax_state algo u du edges s) !! v = Some d' ∧ dist_le d' d.
Proof.
  intros Hd.
  destruct (relax_state_changed algo u du edges s v)
    as [[Hs _]|(_ & w & nd & d0 & _ & _ & Hd0 & Hlt & Hs & _)].
  - exists d. rewrite Hs. split; [done | apply dist_le_refl].
  - exists nd. split; [done|].
    assert (d0 = d) as -> by congruence. by apply dist_ltb_le.
Qed.

Lemma relax_dist_mono algo u du edges s s' v d :
  relax algo u du edges s = Some s' → dist s !! v = Some d →
  ∃ d', dist s' !! v = Some d' ∧ dist_le d' d.
Proof. intros <-%relax_returned. apply relax_state_dist_mono. Qed.

(** After a loop that returns every edge out of [u] to an open node is
    relaxed. *)
Lemma relax_relaxed algo u du edges : ∀ s s' v w,
  relax algo u du edges s = Some s' → (v, w) ∈ edges → v ∉ visited s →
  ∃ nd d', dist_add du w = Some nd ∧ dist s' !! v = Some d' ∧ dist_le d' nd.
Proof.
  induction edges as [|[nbr w0] edges IH]; simpl; intros s s' v w Hr Hin Hv.
  - by apply elem_of_nil in Hin.
  - apply elem_of_cons in Hin as [[= -> ->]|Hin].
    + destruct (decide (nbr ∈ visited s)); [done|].
      destruct (dist_add du w0) as [nd|] eqn:Hnd; simpl in Hr; [|done].
      destruct (dist s !! nbr) as [d|] eqn:Hd; simpl in Hr; [|done].
      exists nd.
      destruct (dist_ltb nd d) eqn:Hlt.
      * eapply (relax_dist_mono _ _ _ _ _ _ nbr) in Hr as (d' & ? & ?);
          [|simpl; apply lookup_insert_eq].
        by exists d'.
      * eapply (relax_dist_mono _ _ _ _ _ _ nbr) in Hr as (d' & ? & ?); [|done].
        exists d'. split_and!; [done..|].
        eapply dist_le_trans; [done|]. by apply dist_ltb_false_le.
    + destruct (decide (nbr ∈ visited s)); [by eapply IH|].
      destruct (dist_add du w0) as [nd|]; simpl in Hr; [|done].
      destruct (dist s !! nbr) as [d|] eqn:Hd; simpl in Hr; [|done].
      destruct (dist_ltb nd d); by eapply IH.
Qed.

(** The loop returns when every weight converts to a float and every
    neighbour is a key of [dist]. *)
Lemma relax_total algo u du edges : ∀ s,
  (∀ v w, (v, w) ∈ edges → is_Some (float_of_int w) ∧ v ∈ dom (dist s)) →
  is_Some (relax algo u du edges s).
Proof.
  induction edges as [|[nbr w0] edges IH]; simpl; intros s Hdom; [done|].
  destruct (decide (nbr ∈ visited s)).
  - apply IH. intros v w Hin. apply (Hdom v w). by right.
  - destruct (Hdom nbr w0) as [Hw [d Hd]%elem_of_dom]; [by left|].
    apply (dist_add_is_Some du) in Hw as [nd Hnd].
    rewrite Hnd, Hd. simpl.
    destruct (dist_ltb nd d).
    + apply IH. simpl. intros v w Hin. rewrite dom_insert_L.
      split; [by apply (Hdom v w); right|].
      apply elem_of_union_r. apply (Hdom v w). by right.
    + apply IH. intros v w Hin. apply (Hdom v w). by right.
Qed.

(** ** One call of [step] *)

Section Step.

Context (graph : Graph) (end_node : string).

Lemma finish_spec s s' :
  _finish end_node s = Some s' →
  finish_frame s s' ∧ is_running s' = false ∧ is_finished s' = true ∧
  ∃ d, dist s !! end_node = Some d ∧ status_label s' = verdict d.
Proof.
  unfold _finish. destruct (dist s !! end_node) as [d|]; simpl; [|done].
  intros [= <-]. simpl. split; [by repeat split|]. eauto.
Qed.

Lemma finish_total s :
  end_node ∈ dom (dist s) → is_Some (_finish end_node s).
Proof.
  intros [d Hd]%elem_of_dom. unfold _finish. rewrite Hd. simpl. eauto.
Qed.

Lemma step_inert algo s :
  is_running s = false ∨ is_finished s = true →
  step graph end_node algo s = Some s.
Proof.
  unfold step. intros [-> | ->]; simpl; [done|]. by rewrite orb_true_r.
Qed.

(** The three ways through [step] while Running. *)
Lemma step_cases algo s s' :
  running s → step graph end_node algo s = Some s' →
  (∃ s1, select algo s = Some (NoCandidate s1) ∧
         _finish end_node s1 = Some s') ∨
  (∃ d s1, select algo s = Some (Candidate d end_node s1) ∧
           _finish end_node (settle end_node s1) = Some s') ∨
  (∃ d u s1 edges, select algo s = Some (Candidate d u s1) ∧ u ≠ end_node ∧
           graph !! u = Some edges ∧
           relax algo u d edges (settle u s1) = Some s').
Proof.
  intros [Hr Hf]. unfold step. rewrite Hr, Hf. simpl.
  destruct (select algo s) as [[s1|d u s1]|]; simpl; [|  |done].
  - intros H. left. by exists s1.
  - destruct (decide (u = end_node)) as [->|Hne].
    + intros H. right. left. by exists d, s1.
    + destruct (graph !! u) as [edges|] eqn:Hg; simpl; [|done].
      intros H. right. right. by exists d, u, s1, edges.
Qed.

Lemma finish_returned s s' :
  _finish end_node s = Some s' → _finish_state end_node s = s'.
Proof. unfold _finish_state. by intros ->. Qed.

(** A call that returns leaves the state it returns. *)
Lemma step_returned algo s s' :
  step graph end_node algo s = Some s' → step_state graph end_node algo s = s'.
Proof.
  unfold step, step_state.
  destruct (negb (is_running s) || is_finished s); [by intros [= <-]|].
  destruct (select algo s) as [[s1|d u s1]|]; simpl; [| |done].
  - apply finish_returned.
  - destruct (decide (u = end_node)); [apply finish_returned|].
    destruct (graph !! u) as [edges|]; simpl; [|done].
    apply relax_returned.
Qed.

Lemma steps_presses algo k : ∀ s s',
  steps graph end_node algo k s = Some s' →
  presses graph end_node algo k s = s'.
Proof.
  induction k as [|k IH]; simpl; intros s s'.
  - by intros [= <-].
  - destruct (step graph end_node algo s) as [s1|] eqn:Hs; simpl; [|done].
    rewrite (step_returned _ _ _ Hs). apply IH.
Qed.

Lemma presses_snoc algo k : ∀ s,
  presses graph end_node algo (S k) s
  = step_state graph end_node algo (presses graph end_node algo k s).
Proof.
  induction k as [|k IH]; intros s; [done|].
  change (presses graph end_node algo (S (S k)) s)
    with (presses graph end_node algo (S k) (step_state graph end_node algo s)).
  by rewrite IH.
Qed.

End Step.

(** Case analysis on a call of [step] by a Running engine: the run finishes
    for want of a candidate, finishes on the end node, or relaxes the edges
    of the settled node [u]. *)
Ltac step_analysis Hrun Hstep :=
  let s1 := fresh "s1" in
  let d := fresh "d" in
  let u := fresh "u" in
  let edges := fresh "edges" in
  let Hsel := fresh "Hsel" in
  let Hfin := fresh "Hfin" in
  let Hne := fresh "Hne" in
  let Hg := fresh "Hg" in
  let Hr := fresh "Hr" in
  destruct (step_cases _ _ _ _ _ Hrun Hstep)
    as [(s1 & Hsel & Hfin)
       |[(d & s1 & Hsel & Hfin)
        |(d & u & s1 & edges & Hsel & Hne & Hg & Hr)]].

(** ** The choice of the node to settle *)

Lemma select_heap_none s s1 :
  select heap s = Some (NoCandidate s1) →
  drop_stale (visited s) (pq s) = [] ∧ s1 = with_pq [] s.
Proof.
  unfold select. destruct (drop_stale (visited s) (pq s)) as [|[d u] rest].
  - by intros [= <-].
  - done.
Qed.

Lemma select_heap_cand s d u s1 :
  select heap s = Some (Candidate d u s1) →
  ∃ rest, drop_stale (visited s) (pq s) = (d, u) :: rest ∧ s1 = with_pq rest s.
Proof.
  unfold select. destruct (drop_stale (visited s) (pq s)) as [|[d' u'] rest].
  - done.
  - intros [= <- <- <-]. eauto.
Qed.

Lemma select_heap_total s : is_Some (select heap s).
Proof.
  unfold select. by destruct (drop_stale (visited s) (pq s)) as [|[d' u'] rest].
Qed.

Lemma select_lin_none s s1 :
  select lin s = Some (NoCandidate s1) →
  s1 = s ∧
  (unvisited s = [] ∨
   ∃ u, u ∈ unvisited s ∧ dist s !! u = Some Inf ∧
        ∀ y, y ∈ unvisited s → dist s !! y = Some Inf).
Proof.
  unfold select.
  destruct (min_unvisited (dist s) (unvisited s)) as [[u|]|] eqn:Hm; simpl; [| |done].
  - destruct (dist s !! u) as [d|] eqn:Hd; simpl; [|done].
    destruct (is_inf d) eqn:Hi; [|done].
    intros [= <-]. split; [done|]. right.
    assert (d = Inf) as -> by (by destruct d).
    destruct (min_unvisited_spec _ _ _ _ Hm Hd) as [Hin Hall].
    exists u. split_and!; [done..|].
    intros y Hy. destruct (Hall y Hy) as (ky & Hky & Hle).
    by rewrite (dist_le_inf _ Hle) in Hky.
  - intros [= <-]. apply min_unvisited_none in Hm. auto.
Qed.

Lemma select_lin_cand s d u s1 :
  select lin s = Some (Candidate d u s1) →
  u ∈ unvisited s ∧ dist s !! u = Some d ∧ d ≠ Inf ∧
  (∀ y, y ∈ unvisited s → ∃ dy, dist s !! y = Some dy ∧ dist_le d dy) ∧
  s1 = with_unvisited (set_remove u (unvisited s)) s.
Proof.
  unfold select.
  destruct (min_unvisited (dist s) (unvisited s)) as [[u'|]|] eqn:Hm; simpl; [| |done].
  - destruct (dist s !! u') as [d'|] eqn:Hd; simpl; [|done].
    destruct (is_inf d') eqn:Hi; [done|].
    intros [= <- <- <-].
    destruct (min_unvisited_spec _ _ _ _ Hm Hd) as [Hin Hall].
    split_and!; try done.
    by apply is_inf_false.
  - done.
Qed.

Lemma select_lin_total s :
  (∀ y, y ∈ unvisited s → y ∈ dom (dist s)) → is_Some (select lin s).
Proof.
  intros Hall. unfold select.
  destruct (min_unvisited_total (dist s) (unvisited s)) as [m Hm].
  { intros y Hy. apply elem_of_dom. auto. }
  rewrite Hm. simpl. destruct m as [u|]; [|done].
  assert (u ∈ unvisited s) as Hu.
  { destruct (unvisited s) as [|v l] eqn:E; simpl in Hm; [done|].
    destruct (dist s !! v) as [kv|] eqn:Hv.
    - destruct (min_scan (dist s) v (Some kv) l) as [u'|] eqn:Hs; simpl in Hm; [|done].
      injection Hm as ->.
      destruct (min_scan_spec _ _ _ _ _ Hv Hs) as [[->|?] _]; set_solver.
    - assert (v ∈ dom (dist s)) as [? ?]%elem_of_dom by (apply Hall; by left).
      congruence. }
  apply Hall, elem_of_dom in Hu as [d Hd]. rewrite Hd. simpl.
  by destruct (is_inf d).
Qed.

Lemma heap_head_le (q : list Entry) e rest e' :
  pq_sorted q → q = e :: rest → e' ∈ q → entry_le e e'.
Proof.
  intros Hs -> Hin. apply StronglySorted_inv in Hs as [_ Hall].
  apply elem_of_cons in Hin as [->|Hin]; [apply entry_le_refl|].
  by eapply Forall_forall in Hall.
Qed.

(** The popped priority of a fresh entry is the node's current distance,
    and no open node is nearer. *)
Lemma select_heap_min s d u s1 :
  heap_inv s → select heap s = Some (Candidate d u s1) →
  (u ∉ visited s) ∧ dist s !! u = Some d ∧ d ≠ Inf ∧
  ∀ y dy, y ∉ visited s → dist s !! y = Some dy → dist_le d dy.
Proof.
  intros [Hsorted Hhas Hge Hfin] (rest & Hdrop & ->)%select_heap_cand.
  pose proof (drop_stale_head _ _ _ _ Hdrop) as Hu. simpl in Hu.
  assert ((d, u) ∈ pq s) as Hin.
  { apply (drop_stale_subseteq (visited s)). rewrite Hdrop. by left. }
  pose proof (Hfin _ _ Hin) as Hd.
  assert (∀ y dy, y ∉ visited s → dist s !! y = Some dy → dist_le d dy) as Hmin.
  { intros y dy Hy Hdy.
    destruct (decide (dy = Inf)) as [->|Hne]; [by destruct d|].
    pose proof (drop_stale_fresh (visited s) _ _ (Hhas _ _ Hy Hdy Hne) Hy) as Hy'.
    apply (entry_le_dist (d, u) (dy, y)).
    eapply heap_head_le; [by apply drop_stale_sorted | exact Hdrop | done]. }
  destruct (Hge _ _ Hin Hu) as (dv & Hdv & Hle).
  pose proof (Hmin _ _ Hu Hdv) as Hle'.
  assert (dv = d) as -> by (by apply dist_le_antisym).
  done.
Qed.

Lemma select_heap_exhausted s s1 y dy :
  heap_inv s → select heap s = Some (NoCandidate s1) →
  y ∉ visited s → dist s !! y = Some dy → dy = Inf.
Proof.
  intros [_ Hhas _ _] [Hdrop _]%select_heap_none Hy Hdy.
  destruct (decide (dy = Inf)) as [|Hne]; [done|].
  pose proof (drop_stale_fresh (visited s) _ _ (Hhas _ _ Hy Hdy Hne) Hy) as Hy'.
  rewrite Hdrop in Hy'. by apply elem_of_nil in Hy'.
Qed.

(** ** The invariants of a run *)

Section Run.

Context (graph : Graph) (start_node end_node : string).
Context (order : list string) (now : Z).
Hypothesis Hwf : well_formed graph start_node end_node.
Hypothesis Horder : set_order graph order.

Lemma edge_dom u v w : edge graph u v w → v ∈ dom graph.
Proof.
  intros (edges & Hu & Hin). destruct Hwf as (_ & _ & Hc).
  pose proof (map_Forall_lookup_1 _ _ _ _ Hc Hu) as Hall.
  rewrite Forall_forall in Hall. by apply (Hall (v, w)).
Qed.

Lemma init_dist_dom : dom (init_dist graph start_node) = dom graph.
Proof.
  unfold init_dist. rewrite dom_insert_L, dom_fmap_L.
  destruct Hwf as (Hs & _). set_solver.
Qed.

Lemma init_dist_not_inf v d :
  init_dist graph start_node !! v = Some d → d ≠ Inf →
  v = start_node ∧ d = Fin 0.
Proof using Type.
  unfold init_dist. destruct (decide (start_node = v)) as [Heq|Hne].
  - subst v. rewrite lookup_insert_eq. by intros [= <-].
  - rewrite lookup_insert_ne, lookup_fmap by done.
    destruct (graph !! v); simpl; [by intros [= <-] | done].
Qed.

Lemma init_dist_fin v z :
  init_dist graph start_node !! v = Some (Fin z) → v = start_node ∧ z = 0.
Proof using Type.
  intros Hv. by destruct (init_dist_not_inf _ _ Hv) as [-> [= ->]].
Qed.

Lemma basic_inv_begin algo :
  basic_inv graph start_node (start start_node algo now (reset graph start_node order)).
Proof.
  unfold start. simpl. split; simpl.
  - apply init_dist_dom.
  - by rewrite dom_fmap_L.
  - set_solver.
  - apply lookup_insert_eq.
  - set_solver.
  - intros v d Hv Hd. apply init_dist_not_inf in Hv as [-> _]; [|done].
    exists 0. constructor.
  - by right.
Qed.

Lemma basic_inv_frame s s' :
  dist s' = dist s → prev s' = prev s → visited s' = visited s →
  basic_inv graph start_node s → basic_inv graph start_node s'.
Proof.
  intros Hd Hp Hv [? ? ? ? ? ? ?]. split; rewrite ?Hd, ?Hp, ?Hv; done.
Qed.

Lemma basic_inv_settle s s2 u d :
  basic_inv graph start_node s → dist s !! u = Some d → d ≠ Inf →
  dist s2 = dist s → prev s2 = prev s → visited s2 = {[u]} ∪ visited s →
  basic_inv graph start_node s2 ∧ start_node ∈ visited s2.
Proof.
  intros [Hdd Hdp Hvis Hst Hfin Hwalk Hfresh] Hu Hne Hd Hp Hv.
  assert (start_node ∈ visited s2) as Hs.
  { rewrite Hv. destruct Hfresh as [?|[_ Hi]]; [set_solver|].
    rewrite Hi in Hu. apply init_dist_not_inf in Hu as [-> _]; [|done].
    set_solver. }
  split; [|done].
  split; rewrite ?Hd, ?Hp, ?Hv; try done.
  - assert (u ∈ dom graph) by (rewrite <- Hdd; by apply elem_of_dom).
    set_solver.
  - intros v [->%elem_of_singleton|Hin]%elem_of_union; eauto.
  - left. by rewrite <- Hv.
Qed.

Lemma basic_inv_relax_state algo s2 u du edges :
  basic_inv graph start_node s2 → start_node ∈ visited s2 →
  (∃ z, walk graph start_node u z) → graph !! u = Some edges →
  basic_inv graph start_node (relax_state algo u du edges s2).
Proof.
  intros [Hdd Hdp Hvis Hst Hfin Hwalk Hfresh] Hs [zu Hu] Hg.
  destruct (relax_state_frame algo u du edges s2) as (Hv & _).
  destruct (relax_state_dom algo u du edges s2) as [Hdd' Hdp']; [congruence|].
  split; rewrite ?Hv; try done; try congruence.
  - destruct (relax_state_visited_same algo u du edges s2 _ Hs) as [-> _]. done.
  - intros v Hin.
    destruct (relax_state_visited_same algo u du edges s2 _ Hin) as [-> _]. eauto.
  - intros v d Hd Hne.
    destruct (relax_state_changed algo u du edges s2 v)
      as [[Hsame _]|(_ & w & nd & d0 & Hin & _ & _ & _ & Hnew & _)].
    + eapply Hwalk; [|done]. by rewrite <- Hsame.
    + exists (zu + w). eapply walk_edge; [done|]. by exists edges.
  - by left.
Qed.

Lemma basic_inv_relax algo s2 s' u du edges :
  basic_inv graph start_node s2 → start_node ∈ visited s2 →
  (∃ z, walk graph start_node u z) → graph !! u = Some edges →
  relax algo u du edges s2 = Some s' →
  basic_inv graph start_node s'.
Proof.
  intros Hb Hs Hu Hg <-%relax_returned. by apply basic_inv_relax_state.
Qed.

(** *** The queue *)

Lemma heap_inv_begin :
  heap_inv (start start_node heap now (reset graph start_node order)).
Proof.
  unfold start. simpl. split; simpl.
  - repeat constructor.
  - intros v d _ Hv Hd. apply init_dist_not_inf in Hv as [-> ->]; [|done].
    by left.
  - intros d v [= -> ->]%list_elem_of_singleton _.
    exists (Fin 0). split; [apply lookup_insert_eq | apply dist_le_refl].
  - by intros d v [= -> ->]%list_elem_of_singleton.
Qed.

Lemma heap_inv_popped s d u rest s2 :
  heap_inv s → drop_stale (visited s) (pq s) = (d, u) :: rest →
  dist s2 = dist s → visited s2 = {[u]} ∪ visited s → pq s2 = rest →
  heap_inv s2.
Proof.
  intros [Hsorted Hhas Hge Hfin] Hdrop Hd Hv Hq.
  assert (∀ e, e ∈ rest → e ∈ pq s) as Hsub.
  { intros e He. apply (drop_stale_subseteq (visited s)). rewrite Hdrop. by right. }
  split; rewrite ?Hd, ?Hv, ?Hq.
  - pose proof (drop_stale_sorted (visited s) _ Hsorted) as Hs.
    rewrite Hdrop in Hs. by apply StronglySorted_inv in Hs as [? _].
  - intros v dv Hnv Hz Hne.
    assert (v ∉ visited s) as Hnv' by set_solver.
    pose proof (drop_stale_fresh _ _ _ (Hhas _ _ Hnv' Hz Hne) Hnv') as Hin.
    rewrite Hdrop in Hin. apply elem_of_cons in Hin as [[= _ ->]|Hin]; [|done].
    set_solver.
  - intros d' v Hin Hnv. apply Hge; [by apply Hsub | set_solver].
  - intros d' v Hin. eapply Hfin. by apply Hsub.
Qed.

Lemma heap_inv_relax_state s2 u du edges :
  heap_inv s2 → heap_inv (relax_state heap u du edges s2).
Proof.
  intros Hinv. apply (relax_state_ind heap_inv); [done|].
  intros s0 nbr w nd d0 [Hsorted Hhas Hge Hfin] _ _ Hnv _ Hd0 Hlt.
  split; simpl.
  - by apply heappush_sorted.
  - intros v d Hv Hz Hne. apply elem_of_heappush.
    destruct (decide (nbr = v)) as [->|Hneq].
    + rewrite lookup_insert_eq in Hz. left. congruence.
    + rewrite lookup_insert_ne in Hz by done. right. by apply Hhas.
  - intros d v [[= -> ->]|Hin]%elem_of_heappush Hv.
    + exists nd. split; [apply lookup_insert_eq | apply dist_le_refl].
    + destruct (decide (nbr = v)) as [->|Hneq].
      * exists nd. split; [apply lookup_insert_eq|].
        destruct (Hge _ _ Hin Hv) as (dv & Hdv & Hle).
        assert (dv = d0) as -> by congruence.
        eapply dist_le_trans; [|exact Hle]. by apply dist_ltb_le.
      * rewrite lookup_insert_ne by done. by apply Hge.
  - intros d v [[= -> ->]|Hin]%elem_of_heappush;
      [by eapply dist_ltb_not_inf | by eapply Hfin].
Qed.

Lemma heap_inv_relax s2 s' u du edges :
  heap_inv s2 → relax heap u du edges s2 = Some s' → heap_inv s'.
Proof. intros Hinv <-%relax_returned. by apply heap_inv_relax_state. Qed.

(** *** The unvisited set *)

Lemma lin_inv_reset : lin_inv graph (reset graph start_node order).
Proof using Horder.
  destruct Horder as [Hnd Hmem]. split; simpl; [done|].
  intros v. rewrite Hmem.
  split; [intros ?; split; [done | apply not_elem_of_empty] | by intros [? _]].
Qed.

Lemma lin_inv_begin algo :
  lin_inv graph (start start_node algo now (reset graph start_node order)).
Proof.
  destruct Horder as [Hnd Hmem]. unfold start. simpl. split; simpl; [done|].
  intros v. rewrite Hmem. set_solver.
Qed.

Lemma lin_inv_frame s s' :
  visited s' = visited s → unvisited s' = unvisited s →
  lin_inv graph s → lin_inv graph s'.
Proof. intros Hv Hu [? ?]. split; rewrite ?Hv, ?Hu; done. Qed.

Lemma lin_inv_removed s s2 u :
  lin_inv graph s → visited s2 = {[u]} ∪ visited s →
  unvisited s2 = set_remove u (unvisited s) → lin_inv graph s2.
Proof.
  intros [Hnd Hpart] Hv Hu. split; rewrite ?Hv, ?Hu.
  - by apply NoDup_set_remove.
  - intros v. rewrite elem_of_set_remove, Hpart. set_solver.
Qed.

(** *** Selection under the invariants *)

Lemma select_spec algo s sel :
  state_inv graph start_node end_node algo s → running s →
  select algo s = Some sel → select_post s sel.
Proof.
  intros (Hb & Hf & _ & _) Hrun Hsel. destruct algo.
  - specialize (Hf Hrun). destruct sel as [s1|d u s1]; simpl.
    + split.
      * apply select_heap_none in Hsel as [_ ->]. by repeat split.
      * intros y dy. by eapply select_heap_exhausted.
    + destruct (select_heap_min _ _ _ _ Hf Hsel) as (? & ? & ? & ?).
      apply select_heap_cand in Hsel as (rest & _ & ->).
      split_and!; done.
  - destruct Hf as [Hnd Hpart].
    assert (∀ y dy, y ∉ visited s → dist s !! y = Some dy → y ∈ unvisited s) as Hun.
    { intros y dy Hy Hdy. apply Hpart. split; [|done].
      rewrite <- (bi_dom_dist _ _ _ Hb). by apply elem_of_dom. }
    destruct sel as [s1|d u s1]; simpl.
    + apply select_lin_none in Hsel as [-> Hcase]. split; [by repeat split|].
      intros y dy Hy Hdy. pose proof (Hun _ _ Hy Hdy) as Hin.
      destruct Hcase as [Hnil|(_ & _ & _ & Hall)].
      * rewrite Hnil in Hin. by apply elem_of_nil in Hin.
      * specialize (Hall _ Hin). congruence.
    + apply select_lin_cand in Hsel as (Hin & Hd & Hz & Hmin & ->).
      split_and!; try done.
      * apply Hpart in Hin. tauto.
      * intros y dy Hy Hdy.
        destruct (Hmin y (Hun _ _ Hy Hdy)) as (dy' & ? & ?). congruence.
Qed.

Lemma select_total algo s :
  state_inv graph start_node end_node algo s → running s →
  is_Some (select algo s).
Proof.
  intros (Hb & Hf & _ & _) Hrun. destruct algo.
  - apply select_heap_total.
  - apply select_lin_total. intros y Hy.
    rewrite (bi_dom_dist _ _ _ Hb). apply (li_part _ _ Hf) in Hy. tauto.
Qed.

Lemma not_running_inert algo s :
  ¬ running s → step graph end_node algo s = Some s.
Proof.
  intros Hn. apply step_inert. unfold running in Hn.
  destruct (is_running s), (is_finished s); auto.
Qed.

Lemma step_state_inert algo s :
  ¬ running s → step_state graph end_node algo s = s.
Proof.
  intros Hn. apply step_returned. by apply not_running_inert.
Qed.

(** The three ways through [step] while Running and under the invariants:
    only the relaxation loop can raise. *)
Lemma step_state_cases algo s :
  state_inv graph start_node end_node algo s → running s →
  (∃ s1 s', select algo s = Some (NoCandidate s1) ∧
            _finish end_node s1 = Some s' ∧
            step graph end_node algo s = Some s') ∨
  (∃ d s1 s', select algo s = Some (Candidate d end_node s1) ∧
              _finish end_node (settle end_node s1) = Some s' ∧
              step graph end_node algo s = Some s') ∨
  (∃ d u s1 edges, select algo s = Some (Candidate d u s1) ∧ u ≠ end_node ∧
       graph !! u = Some edges ∧
       step graph end_node algo s = relax algo u d edges (settle u s1) ∧
       step_state graph end_node algo s
       = relax_state algo u d edges (settle u s1)).
Proof.
  intros Hinv Hrun.
  destruct (select_total _ _ Hinv Hrun) as [sel Hsel].
  pose proof (select_spec _ _ _ Hinv Hrun Hsel) as Hpost.
  destruct Hinv as (Hb & _). destruct Hwf as (_ & Hend & _).
  destruct Hrun as [Hr Hf]. unfold step, step_state. rewrite Hr, Hf, Hsel. simpl.
  destruct sel as [s1|d u s1]; simpl in Hpost.
  - destruct Hpost as [(Hd & _) _]. left.
    destruct (finish_total end_node s1) as [s' Hs'].
    { by rewrite Hd, (bi_dom_dist _ _ _ Hb). }
    by exists s1, s'.
  - destruct Hpost as ((Hd & _) & _ & _ & Hu & _).
    destruct (decide (u = end_node)) as [->|Hne].
    + right. left.
      destruct (finish_total end_node (settle end_node s1)) as [s' Hs'].
      { simpl. by rewrite Hd, (bi_dom_dist _ _ _ Hb). }
      exists d, s1, s'. split_and!; [done | done |].
      by destruct (decide (end_node = end_node)).
    + right. right.
      assert (u ∈ dom graph) as [edges Hg]%elem_of_dom.
      { rewrite <- (bi_dom_dist _ _ _ Hb). by apply elem_of_dom. }
      exists d, u, s1, edges. rewrite Hg. simpl.
      by destruct (decide (u = end_node)).
Qed.

(** While the invariants hold and the weights convert to floats [step] does
    not raise. *)
Lemma step_total algo s :
  float_weights graph →
  state_inv graph start_node end_node algo s →
  is_Some (step graph end_node algo s).
Proof.
  intros Hfw Hinv. destruct (decide (running s)) as [Hrun|Hn];
    [|rewrite not_running_inert; done].
  destruct (step_state_cases _ _ Hinv Hrun)
    as [(s1 & s' & _ & _ & ->)
       |[(d & s1 & s' & _ & _ & ->)
        |(d & u & s1 & edges & Hsel & Hne & Hg & -> & _)]]; [done | done |].
  pose proof (select_spec _ _ _ Hinv Hrun Hsel) as ((Hd & _) & _).
  destruct Hinv as (Hb & _).
  apply relax_total. simpl. intros v w Hin. split.
  - pose proof (map_Forall_lookup_1 _ _ _ _ Hfw Hg) as Hall.
    rewrite Forall_forall in Hall. apply (Hall (v, w) Hin).
  - rewrite Hd, (bi_dom_dist _ _ _ Hb). apply (edge_dom u v w).
    by exists edges.
Qed.

(** A press of Step keeps the invariants, whether the call returns or
    raises. *)
Lemma step_state_inv algo s :
  state_inv graph start_node end_node algo s →
  state_inv graph start_node end_node algo (step_state graph end_node algo s).
Proof.
  intros Hinv. destruct (decide (running s)) as [Hrun|Hn]; cycle 1.
  { by rewrite step_state_inert. }
  destruct (step_state_cases _ _ Hinv Hrun)
    as [(s1 & s' & Hsel & Hfin & Hstep)
       |[(d & s1 & s' & Hsel & Hfin & Hstep)
        |(d & u & s1 & edges & Hsel & Hne & Hg & _ & ->)]];
    rewrite ?(step_returned _ _ _ _ _ Hstep);
    pose proof (select_spec _ _ _ Hinv Hrun Hsel) as Hpost; simpl in Hpost;
    destruct Hinv as (Hb & Hf & Hend & Hflag).
  - destruct Hpost as [(Hd & Hp & Hv & _) _].
    destruct (finish_spec _ _ _ Hfin) as ((Hd' & Hp' & Hv' & Hu' & _) & Hr' & Hf' & _).
    split_and!.
    + eapply basic_inv_frame; [| | |exact Hb]; congruence.
    + destruct algo; simpl.
      * intros [? ?]. congruence.
      * apply select_lin_none in Hsel as [-> _].
        by eapply lin_inv_frame.
    + intros [? ?]. congruence.
    + congruence.
  - destruct Hpost as ((Hd & Hp & Hv & _) & Hnv & Hdne & Hu & _).
    destruct (finish_spec _ _ _ Hfin) as ((Hd' & Hp' & Hv' & Hu' & _) & Hr' & Hf' & _).
    simpl in *. split_and!.
    + eapply (basic_inv_settle s s' end_node d); [done | done | done | | |]; congruence.
    + destruct algo; simpl.
      * intros [? ?]. congruence.
      * apply select_lin_cand in Hsel as (_ & _ & _ & _ & ->).
        simpl in *. by eapply lin_inv_removed.
    + intros [? ?]. congruence.
    + congruence.
  - destruct Hpost as ((Hd & Hp & Hv & _ & Hr1 & Hf1 & _) & Hnv & Hdne & Hu & _).
    destruct (relax_state_frame algo u d edges (settle u s1))
      as (Hv' & Hu' & _ & Hr' & Hf' & _).
    simpl in *.
    destruct (basic_inv_settle s (settle u s1) u d Hb Hu Hdne) as [Hb2 Hs2];
      [done | done | simpl; congruence |].
    split_and!.
    + apply basic_inv_relax_state; [exact Hb2 | done | | done].
      by apply (bi_reach _ _ _ Hb u d).
    + destruct algo; simpl.
      * intros _. apply heap_inv_relax_state.
        pose proof Hsel as (rest & Hdrop & ->)%select_heap_cand.
        eapply heap_inv_popped; [by apply Hf | done | done..].
      * apply select_lin_cand in Hsel as (_ & _ & _ & _ & ->).
        simpl in *. eapply lin_inv_frame; [done | done |].
        by eapply lin_inv_removed.
    + intros _. rewrite Hv', Hv. specialize (Hend Hrun). set_solver.
    + intros _. destruct Hrun. congruence.
Qed.

(** [step] keeps the invariants. *)
Lemma step_inv algo s s' :
  state_inv graph start_node end_node algo s →
  step graph end_node algo s = Some s' →
  state_inv graph start_node end_node algo s'.
Proof.
  intros Hinv <-%step_returned. by apply step_state_inv.
Qed.

Lemma state_inv_begin algo :
  state_inv graph start_node end_node algo
    (start start_node algo now (reset graph start_node order)).
Proof.
  split_and!.
  - apply basic_inv_begin.
  - destruct algo; simpl; [intros _; apply heap_inv_begin | apply lin_inv_begin].
  - intros _. unfold start. simpl. set_solver.
  - done.
Qed.

Lemma run_state_inv algo s :
  run_state graph start_node end_node algo now order s →
  state_inv graph start_node end_node algo s.
Proof.
  induction 1 as [|s s' _ IH Hstep]; [apply state_inv_begin|].
  by eapply step_inv.
Qed.

End Run.

(** ** Properties of a single call, in any state *)

Section Single.

Context (graph : Graph) (start_node end_node : string).

Lemma select_frame algo s sel :
  select algo s = Some sel → sel_frame s (sel_state sel).
Proof.
  destruct algo; intros Hsel.
  - destruct sel as [s1|d u s1]; simpl.
    + apply select_heap_none in Hsel as [_ ->]. by repeat split.
    + apply select_heap_cand in Hsel as (rest & _ & ->). by repeat split.
  - destruct sel as [s1|d u s1]; simpl.
    + apply select_lin_none in Hsel as [-> _]. by repeat split.
    + apply select_lin_cand in Hsel as (_ & _ & _ & _ & ->). by repeat split.
Qed.

(** [select] adds nothing to the queue. *)
Lemma select_pq_subseteq algo s sel e :
  select algo s = Some sel → e ∈ pq (sel_state sel) → e ∈ pq s.
Proof.
  destruct algo; intros Hsel.
  - destruct sel as [s1|d u s1]; simpl.
    + apply select_heap_none in Hsel as [_ ->]. simpl. by intros ?%elem_of_nil.
    + apply select_heap_cand in Hsel as (rest & Hdrop & ->). simpl.
      intros He. apply (drop_stale_subseteq (visited s)). rewrite Hdrop.
      by right.
  - destruct sel as [s1|d u s1]; simpl.
    + by apply select_lin_none in Hsel as [-> _].
    + by apply select_lin_cand in Hsel as (_ & _ & _ & _ & ->).
Qed.

(** A tentative distance never grows across [step]. *)
Lemma step_dist_mono algo s s' v d :
  step graph end_node algo s = Some s' → dist s !! v = Some d →
  ∃ d', dist s' !! v = Some d' ∧ dist_le d' d.
Proof.
  intros Hstep Hd. destruct (decide (running s)) as [Hrun|Hn]; cycle 1.
  { rewrite not_running_inert in Hstep by done. injection Hstep as <-.
    exists d. split; [done | apply dist_le_refl]. }
  step_analysis Hrun Hstep;
    destruct (select_frame _ _ _ Hsel) as (Hd1 & _); simpl in Hd1.
  - destruct (finish_spec _ _ _ Hfin) as ((Hd' & _) & _).
    exists d. rewrite Hd', Hd1. split; [done | apply dist_le_refl].
  - destruct (finish_spec _ _ _ Hfin) as ((Hd' & _) & _). simpl in Hd'.
    exists d. rewrite Hd', Hd1. split; [done | apply dist_le_refl].
  - eapply relax_dist_mono; [done|]. simpl. by rewrite Hd1.
Qed.

(** The entries of a settled node are never written again. *)
Lemma step_visited_same algo s s' v :
  step graph end_node algo s = Some s' → v ∈ visited s →
  dist s' !! v = dist s !! v ∧ prev s' !! v = prev s !! v.
Proof.
  intros Hstep Hv. destruct (decide (running s)) as [Hrun|Hn]; cycle 1.
  { rewrite not_running_inert in Hstep by done. by injection Hstep as <-. }
  step_analysis Hrun Hstep;
    destruct (select_frame _ _ _ Hsel) as (Hd1 & Hp1 & Hv1 & _); simpl in *.
  - destruct (finish_spec _ _ _ Hfin) as ((Hd' & Hp' & _) & _). by rewrite Hd', Hp', Hd1, Hp1.
  - destruct (finish_spec _ _ _ Hfin) as ((Hd' & Hp' & _) & _). simpl in *.
    by rewrite Hd', Hp', Hd1, Hp1.
  - destruct (relax_visited_same _ _ _ _ _ _ v Hr) as [Hd' Hp'].
    { simpl. rewrite Hv1. set_solver. }
    simpl in *. by rewrite Hd', Hp', Hd1, Hp1.
Qed.

(** [visited] only grows. *)
Lemma step_visited_mono algo s s' :
  step graph end_node algo s = Some s' → visited s ⊆ visited s'.
Proof.
  intros Hstep. destruct (decide (running s)) as [Hrun|Hn]; cycle 1.
  { rewrite not_running_inert in Hstep by done. by injection Hstep as <-. }
  step_analysis Hrun Hstep;
    destruct (select_frame _ _ _ Hsel) as (_ & _ & Hv1 & _); simpl in *.
  - destruct (finish_spec _ _ _ Hfin) as ((_ & _ & Hv' & _) & _). by rewrite Hv', Hv1.
  - destruct (finish_spec _ _ _ Hfin) as ((_ & _ & Hv' & _) & _). simpl in *.
    rewrite Hv', Hv1. set_solver.
  - destruct (relax_frame _ _ _ _ _ _ Hr) as (Hv' & _). simpl in *.
    rewrite Hv', Hv1. set_solver.
Qed.

(** A step that leaves a Running engine Finished went through [_finish]:
    there was no candidate, or the candidate was the end node. *)
Lemma finishing_step algo s s' :
  running s → step graph end_node algo s = Some s' → is_finished s' = true →
  is_running s' = false ∧
  ((∃ s1, select algo s = Some (NoCandidate s1) ∧
          _finish end_node s1 = Some s') ∨
   (∃ d s1, select algo s = Some (Candidate d end_node s1) ∧
            _finish end_node (settle end_node s1) = Some s')).
Proof.
  intros Hrun Hstep Hf'. step_analysis Hrun Hstep.
  - destruct (finish_spec _ _ _ Hfin) as (_ & ? & _). split; [done|]. left. eauto.
  - destruct (finish_spec _ _ _ Hfin) as (_ & ? & _). split; [done|]. right. eauto.
  - destruct (relax_frame _ _ _ _ _ _ Hr) as (_ & _ & _ & _ & Hf & _).
    pose proof (select_frame _ _ _ Hsel) as (_ & _ & _ & _ & _ & Hf1 & _).
    destruct Hrun. simpl in *. congruence.
Qed.

(** The same over any number of steps. *)
Lemma steps_visited_mono algo k : ∀ s s',
  steps graph end_node algo k s = Some s' → visited s ⊆ visited s'.
Proof.
  induction k as [|k IH]; simpl; intros s s'.
  - by intros [= <-].
  - destruct (step graph end_node algo s) as [s1|] eqn:Hs; simpl; [|done].
    intros Hk. etrans; [by eapply step_visited_mono | by apply IH].
Qed.

Lemma steps_dist_mono algo k : ∀ s s' v d,
  steps graph end_node algo k s = Some s' → dist s !! v = Some d →
  ∃ d', dist s' !! v = Some d' ∧ dist_le d' d.
Proof.
  induction k as [|k IH]; simpl; intros s s' v d.
  - intros [= <-] Hd. exists d. split; [done | apply dist_le_refl].
  - destruct (step graph end_node algo s) as [s1|] eqn:Hs; simpl; [|done].
    intros Hk Hd.
    destruct (step_dist_mono _ _ _ _ _ Hs Hd) as (d1 & Hd1 & Hle1).
    destruct (IH _ _ _ _ Hk Hd1) as (d' & Hd' & Hle').
    exists d'. split; [done|]. by eapply dist_le_trans.
Qed.

Lemma steps_visited_same algo k : ∀ s s' v,
  steps graph end_node algo k s = Some s' → v ∈ visited s →
  dist s' !! v = dist s !! v ∧ prev s' !! v = prev s !! v.
Proof.
  induction k as [|k IH]; simpl; intros s s' v.
  - by intros [= <-].
  - destruct (step graph end_node algo s) as [s1|] eqn:Hs; simpl; [|done].
    intros Hk Hv.
    destruct (step_visited_same _ _ _ _ Hs Hv) as [Hd1 Hp1].
    destruct (IH _ _ v Hk) as [Hd' Hp'].
    { by eapply step_visited_mono. }
    by rewrite Hd', Hp', Hd1, Hp1.
Qed.

Lemma steps_run_state algo t order k : ∀ s s',
  run_state graph start_node end_node algo t order s →
  steps graph end_node algo k s = Some s' →
  run_state graph start_node end_node algo t order s'.
Proof.
  induction k as [|k IH]; simpl; intros s s' Hrs.
  - by intros [= <-].
  - destruct (step graph end_node algo s) as [s1|] eqn:Hs; simpl; [|done].
    apply IH. by econstructor.
Qed.

(** In heap mode [unvisited] is neither written nor read. *)
Lemma relax_heap_unvisited l u du edges : ∀ s,
  relax heap u du edges (with_unvisited l s)
  = with_unvisited l <$> relax heap u du edges s.
Proof.
  induction edges as [|[nbr w] edges IH]; simpl; intros s; [done|].
  destruct (decide (nbr ∈ visited s)); [apply IH|].
  destruct (dist_add du w) as [nd|]; simpl; [|done].
  destruct (dist s !! nbr) as [d|]; simpl; [|done].
  destruct (dist_ltb nd d); [|apply IH].
  apply (IH (improve heap u nbr nd s)).
Qed.

Lemma finish_unvisited l s :
  _finish end_node (with_unvisited l s) = with_unvisited l <$> _finish end_node s.
Proof.
  unfold _finish. simpl. by destruct (dist s !! end_node).
Qed.

Lemma step_heap_unvisited l s :
  step graph end_node heap (with_unvisited l s)
  = with_unvisited l <$> step graph end_node heap s.
Proof.
  unfold step. simpl.
  destruct (negb (is_running s) || is_finished s); [done|].
  destruct (drop_stale (visited s) (pq s)) as [|[d u] rest]; simpl.
  - apply (finish_unvisited l (with_pq [] s)).
  - destruct (decide (u = end_node)).
    + apply (finish_unvisited l (settle u (with_pq rest s))).
    + destruct (graph !! u) as [edges|]; simpl; [|done].
      apply (relax_heap_unvisited l u d edges (settle u (with_pq rest s))).
Qed.

Lemma step_heap_unvisited_same s s' :
  step graph end_node heap s = Some s' → unvisited s' = unvisited s.
Proof.
  intros Hstep. destruct (decide (running s)) as [Hrun|Hn]; cycle 1.
  { rewrite not_running_inert in Hstep by done. by injection Hstep as <-. }
  step_analysis Hrun Hstep.
  - apply select_heap_none in Hsel as [_ ->].
    by destruct (finish_spec _ _ _ Hfin) as ((_ & _ & _ & -> & _) & _).
  - apply select_heap_cand in Hsel as (rest & _ & ->).
    by destruct (finish_spec _ _ _ Hfin) as ((_ & _ & _ & -> & _) & _).
  - apply select_heap_cand in Hsel as (rest & _ & ->).
    by destruct (relax_frame _ _ _ _ _ _ Hr) as (_ & -> & _).
Qed.

Lemma start_running_noop algo t s :
  is_running s = true → start start_node algo t s = s.
Proof. unfold start. by intros ->. Qed.

Lemma start_unvisited algo t s :
  unvisited (start start_node algo t s) = unvisited s.
Proof. unfold start. by destruct (is_running s). Qed.

End Single.

(** ** Runs *)

Section Runs.

Context (graph : Graph) (end_node : string).

Lemma run_finished algo fuel s :
  is_finished s = true → run graph end_node algo fuel s = Some s.
Proof. intros H. destruct fuel; simpl; by rewrite H. Qed.

Lemma run_unfold algo fuel s :
  is_finished s = false →
  run graph end_node algo (S fuel) s
  = step graph end_node algo s ≫= run graph end_node algo fuel.
Proof. intros H. simpl. by rewrite H. Qed.

(** A run that returns took at most [fuel] steps and ended Finished; its
    last step left a state that was not Finished. *)
Lemma run_last (P : Engine → Prop) algo :
  (∀ s s', P s → step graph end_node algo s = Some s' → P s') →
  ∀ fuel s s',
    P s → is_finished s = false →
    run graph end_node algo fuel s = Some s' →
    ∃ k sk, (k < fuel)%nat ∧ steps graph end_node algo k s = Some sk ∧
            P sk ∧ is_finished sk = false ∧
            step graph end_node algo sk = Some s' ∧ is_finished s' = true.
Proof.
  intros Hpres. induction fuel as [|fuel IH]; intros s s' HP Hnf Hrun.
  - simpl in Hrun. by rewrite Hnf in Hrun.
  - rewrite run_unfold in Hrun by done.
    destruct (step graph end_node algo s) as [s1|] eqn:Hstep; simpl in Hrun; [|done].
    destruct (is_finished s1) eqn:Hf1.
    + rewrite run_finished in Hrun by done. injection Hrun as <-.
      exists 0%nat, s. split_and!; try done. lia.
    + destruct (IH s1 s' (Hpres _ _ HP Hstep) Hf1 Hrun)
        as (k & sk & Hk & Hsteps & HPk & Hfk & Hlast & Hf').
      exists (S k), sk. split_and!; try done; [lia|].
      simpl. by rewrite Hstep.
Qed.

Lemma steps_snoc algo k s sk s' :
  steps graph end_node algo k s = Some sk →
  step graph end_node algo sk = Some s' →
  steps graph end_node algo (S k) s = Some s'.
Proof.
  revert s. induction k as [|k IH]; simpl; intros s.
  - intros [= ->] ->. done.
  - destruct (step graph end_node algo s) as [s1|]; simpl; [|done].
    intros H1 H2. specialize (IH _ H1 H2). simpl in IH. done.
Qed.

End Runs.

Section Termination.

Context (graph : Graph) (start_node end_node : string).
Context (order : list string) (now : Z).
Hypothesis Hwf : well_formed graph start_node end_node.
Hypothesis Horder : set_order graph order.

(** A press of Step while Running finishes the run or settles one more
    node, whether the call returns or raises. *)
Lemma step_state_progress algo s :
  state_inv graph start_node end_node algo s → running s →
  let s' := step_state graph end_node algo s in
  (is_finished s' = true ∧ is_running s' = false) ∨
  (running s' ∧ ∃ u, (u ∉ visited s) ∧ u ∈ dom graph ∧
                     visited s' = {[u]} ∪ visited s).
Proof.
  intros Hinv Hrun. simpl.
  destruct (step_state_cases _ _ _ Hwf _ _ Hinv Hrun)
    as [(s1 & s' & Hsel & Hfin & Hstep)
       |[(d & s1 & s' & Hsel & Hfin & Hstep)
        |(d & u & s1 & edges & Hsel & Hne & Hg & _ & ->)]];
    rewrite ?(step_returned _ _ _ _ _ Hstep).
  - left. by destruct (finish_spec _ _ _ Hfin) as (_ & ? & ? & _).
  - left. by destruct (finish_spec _ _ _ Hfin) as (_ & ? & ? & _).
  - right. pose proof (select_spec _ _ _ _ _ _ Hinv Hrun Hsel) as Hpost.
    destruct Hpost as ((_ & _ & Hv & _ & Hr1 & Hf1 & _) & Hnv & _).
    destruct (relax_state_frame algo u d edges (settle u s1))
      as (Hv' & _ & _ & Hr' & Hf' & _).
    simpl in *. destruct Hrun. split; [split; congruence|].
    exists u. split_and!; [done | | congruence].
    by apply elem_of_dom.
Qed.

(** A step while Running finishes the run or settles one more node. *)
Lemma step_progress algo s s' :
  state_inv graph start_node end_node algo s → running s →
  step graph end_node algo s = Some s' →
  is_finished s' = true ∨
  (running s' ∧ ∃ u, (u ∉ visited s) ∧ u ∈ dom graph ∧
                     visited s' = {[u]} ∪ visited s).
Proof.
  intros Hinv Hrun <-%step_returned.
  destruct (step_state_progress _ _ Hinv Hrun) as [[? _]|?]; auto.
Qed.

Lemma presses_inv algo k : ∀ s,
  state_inv graph start_node end_node algo s →
  state_inv graph start_node end_node algo (presses graph end_node algo k s).
Proof.
  induction k as [|k IH]; simpl; intros s Hinv; [done|].
  apply IH. by apply (step_state_inv _ _ _ _ Hwf Horder).
Qed.

(** Presses of Step on a Running engine: after fewer presses than there are
    open nodes the engine is still Running and the next press finishes the
    run. *)
Lemma presses_finish algo : ∀ fuel s,
  state_inv graph start_node end_node algo s → running s →
  (size (dom graph ∖ visited s) ≤ fuel)%nat →
  ∃ k, (k < fuel)%nat ∧
       (∀ j, (j ≤ k)%nat → running (presses graph end_node algo j s)) ∧
       is_finished (presses graph end_node algo (S k) s) = true ∧
       is_running (presses graph end_node algo (S k) s) = false.
Proof.
  induction fuel as [|fuel IH]; intros s Hinv Hrun Hsize.
  - assert (end_node ∈ dom graph ∖ visited s) as Hin.
    { destruct Hwf as (_ & ? & _), Hinv as (_ & _ & Hend & _).
      specialize (Hend Hrun). set_solver. }
    assert (size (dom graph ∖ visited s) = 0%nat) as Hz by lia.
    apply size_empty_iff in Hz. set_solver.
  - destruct (step_state_progress _ _ Hinv Hrun)
      as [[Hf Hr]|(Hrun1 & u & Hnu & Hu & Hv)].
    + exists 0%nat. split_and!; [lia | | done | done].
      intros j Hj. by assert (j = 0%nat) as -> by lia.
    + destruct (IH (step_state graph end_node algo s))
        as (k & Hk & Hall & Hf & Hr); [by apply (step_state_inv _ _ _ _ Hwf Horder) | done | |].
      { assert (dom graph ∖ visited s
                = {[u]} ∪ dom graph ∖ visited (step_state graph end_node algo s))
          as Heq.
        { rewrite Hv. apply set_eq. intros x.
          destruct (decide (x = u)); set_solver. }
        rewrite Heq, size_union, size_singleton in Hsize; [lia|].
        rewrite Hv. set_solver. }
      exists (S k). split_and!; [lia | | done | done].
      intros [|j] Hj; [done|]. simpl. apply Hall. lia.
Qed.

(** When the weights convert to floats no press raises: the presses are
    calls that return. *)
Lemma steps_total algo k : ∀ s,
  float_weights graph →
  state_inv graph start_node end_node algo s →
  steps graph end_node algo k s = Some (presses graph end_node algo k s).
Proof.
  induction k as [|k IH]; simpl; intros s Hfw Hinv; [done|].
  destruct (step_total _ _ _ Hwf _ _ Hfw Hinv) as [s1 Hs1].
  rewrite Hs1. simpl. rewrite (step_returned _ _ _ _ _ Hs1).
  apply IH; [done|]. by eapply step_inv.
Qed.

Lemma run_presses algo k : ∀ fuel s,
  float_weights graph →
  state_inv graph start_node end_node algo s →
  (∀ j, (j ≤ k)%nat →
        is_finished (presses graph end_node algo j s) = false) →
  is_finished (presses graph end_node algo (S k) s) = true →
  (k < fuel)%nat →
  run graph end_node algo fuel s
  = Some (presses graph end_node algo (S k) s).
Proof.
  induction k as [|k IH]; intros fuel s Hfw Hinv Hall Hf Hfuel;
    (destruct fuel as [|fuel]; [lia|]);
    pose proof (Hall 0%nat ltac:(lia)) as H0; simpl in H0;
    rewrite run_unfold by done;
    destruct (step_total _ _ _ Hwf _ _ Hfw Hinv) as [s1 Hs1];
    rewrite Hs1; simpl; simpl in Hf;
    rewrite (step_returned _ _ _ _ _ Hs1) in Hf |- *.
  - by apply run_finished.
  - apply IH; [done | by eapply step_inv | | done | lia].
    intros j Hj. specialize (Hall (S j) ltac:(lia)). simpl in Hall.
    by rewrite (step_returned _ _ _ _ _ Hs1) in Hall.
Qed.

Lemma begin_running algo :
  running (start start_node algo now (reset graph start_node order)).
Proof. done. Qed.

Lemma begin_size algo :
  size (dom graph
        ∖ visited (start start_node algo now (reset graph start_node order)))
  = size graph.
Proof. unfold start. simpl. by rewrite difference_empty_L, size_dom. Qed.

(** The whole run: [size graph] presses of Step are enough. *)
Lemma run_begin_finishes algo :
  float_weights graph →
  ∃ s', run graph end_node algo (size graph)
          (start start_node algo now (reset graph start_node order)) = Some s' ∧
        is_finished s' = true.
Proof.
  intros Hfw.
  destruct (presses_finish algo (size graph)
              (start start_node algo now (reset graph start_node order)))
    as (k & Hk & Hall & Hf & _).
  - by apply state_inv_begin.
  - apply begin_running.
  - by rewrite begin_size.
  - eexists. split; [|exact Hf].
    apply run_presses; [done | by apply state_inv_begin | | done | done].
    intros j Hj. by destruct (Hall j Hj).
Qed.

End Termination.

(** ** Exact sums *)

Lemma size_settle (vis : gset string) u :
  u ∉ vis → size ({[u]} ∪ vis) = S (size vis).
Proof.
  intros Hu. rewrite size_union, size_singleton; [done|]. set_solver.
Qed.

Section Exact.

Context (graph : Graph) (start_node end_node : string).
Context (order : list string) (now : Z).
Hypothesis Hwf : well_formed graph start_node end_node.
Hypothesis Horder : set_order graph order.
Hypothesis Hexact : exact_sums graph.

Lemma edge_small u v w :
  edge graph u v w → Z.abs w * Z.of_nat (size graph) < 2 ^ 53.
Proof.
  intros (edges & Hu & Hin).
  pose proof (map_Forall_lookup_1 _ _ _ _ Hexact Hu) as Hall.
  rewrite Forall_forall in Hall. by apply (Hall (v, w)).
Qed.

Lemma exact_float_weights : float_weights graph.
Proof.
  intros u edges Hu. apply Forall_forall. intros [v w] Hin. simpl.
  assert (edge graph u v w) as He by (by exists edges).
  pose proof (edge_small _ _ _ He) as Hs.
  assert (0 < size graph)%nat as Hn.
  { destruct (decide (size graph = 0%nat)) as [H0|]; [|lia].
    apply map_size_empty_iff in H0. rewrite H0 in Hu.
    by rewrite lookup_empty in Hu. }
  rewrite float_of_int_small; [done|]. nia.
Qed.

(** The sum the engine forms along an edge out of the node it settles is
    the sum of the integers. *)
Lemma exact_add s u zu v w :
  basic_inv graph start_node s → exact_inv graph start_node s →
  (u ∉ visited s) → dist s !! u = Some (Fin zu) → edge graph u v w →
  dist_add (Fin zu) w = Some (Fin (zu + w)) ∧
  Z.abs (zu + w) * Z.of_nat (size graph)
  <= (Z.of_nat (size (visited s)) + 1) * (2 ^ 53 - 1).
Proof.
  intros Hb He Hnu Hu Hedge.
  pose proof (edge_small _ _ _ Hedge) as Hw.
  pose proof (ei_bound _ _ _ He _ _ Hu) as Hzu.
  assert (size (visited s) < size graph)%nat as Hm.
  { rewrite <- size_dom. apply subset_size. split.
    - apply (bi_visited _ _ _ Hb).
    - intros Hsub. apply Hnu, Hsub.
      rewrite <- (bi_dom_dist _ _ _ Hb). by apply elem_of_dom. }
  assert (Z.abs (zu + w) * Z.of_nat (size graph)
          <= (Z.of_nat (size (visited s)) + 1) * (2 ^ 53 - 1)) as Hsum.
  { pose proof (Z.abs_triangle zu w). nia. }
  split; [|done].
  apply dist_add_exact; nia.
Qed.

Lemma exact_inv_begin algo :
  exact_inv graph start_node
    (start start_node algo now (reset graph start_node order)).
Proof.
  unfold start. simpl. split; simpl.
  - intros v d Hv Hd.
    apply (init_dist_not_inf graph start_node) in Hv as [_ ->]; eauto.
  - intros v z [-> ->]%(init_dist_fin graph start_node). constructor.
  - intros v z [-> ->]%(init_dist_fin graph start_node). lia.
Qed.

Lemma exact_inv_frame s s' :
  dist s' = dist s → visited s' = visited s →
  exact_inv graph start_node s → exact_inv graph start_node s'.
Proof.
  intros Hd Hv [? ? ?]. split; rewrite ?Hd, ?Hv; done.
Qed.

Lemma exact_inv_settle s s2 u :
  exact_inv graph start_node s → (u ∉ visited s) →
  dist s2 = dist s → visited s2 = {[u]} ∪ visited s →
  exact_inv graph start_node s2.
Proof.
  intros [Hf Hw Hbd] Hnu Hd Hv. split; rewrite ?Hd, ?Hv; [done | done |].
  intros v z Hz. rewrite size_settle by done.
  specialize (Hbd _ _ Hz). lia.
Qed.

Lemma exact_inv_relax algo s s2 s' u zu edges :
  basic_inv graph start_node s → exact_inv graph start_node s →
  (u ∉ visited s) → dist s !! u = Some (Fin zu) → graph !! u = Some edges →
  dist s2 = dist s → visited s2 = {[u]} ∪ visited s →
  relax algo u (Fin zu) edges s2 = Some s' →
  exact_inv graph start_node s'.
Proof.
  intros Hb He Hnu Hu Hg Hd Hv Hr.
  destruct (relax_frame _ _ _ _ _ _ Hr) as (Hv' & _).
  assert (exact_inv graph start_node s2) as He2 by (by eapply exact_inv_settle).
  assert (visited s' = visited s2 ∧ exact_inv graph start_node s')
    as [_ ?]; [|done].
  eapply (relax_ind (λ s0, visited s0 = visited s2 ∧
                           exact_inv graph start_node s0));
    [exact Hr | done |].
  intros s0 nbr w nd d [Hv0 [Hf0 Hw0 Hb0]] _ Hin _ Hnd _ _.
  assert (edge graph u nbr w) as Hedge by (by exists edges).
  destruct (exact_add s u zu nbr w Hb He Hnu Hu Hedge) as [Hadd Hsum].
  assert (nd = Fin (zu + w)) as -> by congruence.
  split; [done|]. split; simpl.
  - intros v dv Hdv Hne. destruct (decide (nbr = v)) as [->|Hneq].
    + rewrite lookup_insert_eq in Hdv. injection Hdv as <-. eauto.
    + rewrite lookup_insert_ne in Hdv by done. eauto.
  - intros v z Hz. destruct (decide (nbr = v)) as [->|Hneq].
    + rewrite lookup_insert_eq in Hz. injection Hz as <-.
      eapply walk_edge; [|done]. by apply (ei_walk _ _ _ He).
    + rewrite lookup_insert_ne in Hz by done. eauto.
  - intros v z Hz. rewrite Hv0, Hv, size_settle by done.
    destruct (decide (nbr = v)) as [->|Hneq].
    + rewrite lookup_insert_eq in Hz. injection Hz as <-. lia.
    + rewrite lookup_insert_ne in Hz by done.
      specialize (Hb0 _ _ Hz). rewrite Hv0, Hv, size_settle in Hb0 by done. lia.
Qed.

Lemma exact_inv_step algo s s' :
  state_inv graph start_node end_node algo s →
  exact_inv graph start_node s →
  step graph end_node algo s = Some s' →
  exact_inv graph start_node s'.
Proof.
  intros Hinv He Hstep. destruct (decide (running s)) as [Hrun|Hn]; cycle 1.
  { rewrite not_running_inert in Hstep by done. by injection Hstep as <-. }
  step_analysis Hrun Hstep;
    pose proof (select_spec _ _ _ _ _ _ Hinv Hrun Hsel) as Hpost; simpl in Hpost.
  - destruct Hpost as [(Hd & _ & Hv & _) _].
    destruct (finish_spec _ _ _ Hfin) as ((Hd' & _ & Hv' & _) & _).
    eapply exact_inv_frame; [| |exact He]; congruence.
  - destruct Hpost as ((Hd & _ & Hv & _) & Hnv & _).
    destruct (finish_spec _ _ _ Hfin) as ((Hd' & _ & Hv' & _) & _).
    simpl in *.
    eapply (exact_inv_settle s s' end_node); [done | done | |]; congruence.
  - destruct Hpost as ((Hd & _ & Hv & _) & Hnv & Hdne & Hu & _).
    destruct Hinv as (Hb & _).
    destruct (ei_fin _ _ _ He _ _ Hu Hdne) as [zu ->].
    eapply (exact_inv_relax algo s (settle u s1)); try done; simpl; congruence.
Qed.

Lemma run_state_exact_inv algo s :
  run_state graph start_node end_node algo now order s →
  exact_inv graph start_node s.
Proof.
  induction 1 as [|s s' Hrs IH Hstep]; [apply exact_inv_begin|].
  pose proof (run_state_inv _ _ _ _ _ Hwf Horder _ _ Hrs) as Hinv.
  by eapply exact_inv_step.
Qed.

(** The sums along the edges out of the node that [select] hands over. *)
Lemma candidate_add algo s d u s1 v w :
  state_inv graph start_node end_node algo s →
  exact_inv graph start_node s → running s →
  select algo s = Some (Candidate d u s1) → edge graph u v w →
  ∃ zu, d = Fin zu ∧ dist_add d w = Some (Fin (zu + w)).
Proof.
  intros Hinv He Hrun Hsel Hedge.
  pose proof (select_spec _ _ _ _ _ _ Hinv Hrun Hsel)
    as (_ & Hnv & Hdne & Hu & _).
  destruct Hinv as (Hb & _).
  destruct (ei_fin _ _ _ He _ _ Hu Hdne) as [zu ->].
  exists zu. split; [done|].
  by destruct (exact_add s u zu v w Hb He Hnv Hu Hedge).
Qed.

End Exact.

(** ** Shortest distances *)


Section Optimal.

Context (graph : Graph) (start_node end_node : string).
Context (order : list string) (now : Z).
Hypothesis Hwf : well_formed graph start_node end_node.
Hypothesis Horder : set_order graph order.
Hypothesis Hnonneg : nonneg graph.
Hypothesis Hexact : exact_sums graph.

Lemma edge_nonneg u v w : edge graph u v w → 0 <= w.
Proof.
  intros (edges & Hu & Hin).
  pose proof (map_Forall_lookup_1 _ _ _ _ Hnonneg Hu) as Hall.
  rewrite Forall_forall in Hall. by apply (Hall (v, w)).
Qed.

Lemma opt_inv_begin algo :
  opt_inv graph (start start_node algo now (reset graph start_node order)).
Proof. unfold start. simpl. split; simpl; set_solver. Qed.

Lemma opt_inv_step algo s s' :
  state_inv graph start_node end_node algo s →
  exact_inv graph start_node s → opt_inv graph s →
  running s → step graph end_node algo s = Some s' → running s' →
  opt_inv graph s'.
Proof.
  intros Hinv He [Hrel Hmono] Hrun Hstep [_ Hnf'].
  step_analysis Hrun Hstep.
  { destruct (finish_spec _ _ _ Hfin) as (_ & _ & ? & _). congruence. }
  { destruct (finish_spec _ _ _ Hfin) as (_ & _ & ? & _). congruence. }
  pose proof (select_spec _ _ _ _ _ _ Hinv Hrun Hsel) as Hpost.
  destruct Hpost as ((Hd & _ & Hv & _) & Hnv & Hdne & Hu & Hmin).
  assert (∀ v w, edge graph u v w →
            ∃ z, d = Fin z ∧ dist_add d w = Some (Fin (z + w))) as Hadd.
  { intros v w Hedge. by eapply candidate_add. }
  destruct Hinv as (Hb & _).
  destruct (ei_fin _ _ _ He _ _ Hu Hdne) as [z ->].
  destruct (relax_frame _ _ _ _ _ _ Hr) as (Hv2 & _).
  assert (visited s' = {[u]} ∪ visited s) as Hv' by (by rewrite Hv2; simpl; rewrite Hv).
  assert (∀ x, x ∈ visited s' → dist s' !! x = dist s !! x) as Hsame.
  { intros x Hx. rewrite Hv2 in Hx.
    destruct (relax_visited_same _ _ _ _ _ _ x Hr Hx) as [-> _].
    simpl. by rewrite Hd. }
  assert (∀ x dx, x ∈ visited s' → dist s !! x = Some dx → dist_le dx (Fin z))
    as Hbelow.
  { intros x dx Hx Hdx. rewrite Hv' in Hx.
    apply elem_of_union in Hx as [->%elem_of_singleton|Hx].
    - assert (dx = Fin z) as -> by congruence. apply dist_le_refl.
    - by eapply Hmono. }
  split.
  - intros x v w zx Hx Hedge Hdx. rewrite Hsame in Hdx by done.
    pose proof (edge_nonneg _ _ _ Hedge) as Hw.
    destruct (decide (v ∈ visited s')) as [Hvv|Hvv].
    + rewrite Hsame by done.
      assert (v ∈ visited s' ) as Hvv' by done.
      rewrite Hv' in Hvv'.
      assert (∃ dv, dist s !! v = Some dv) as [dv Hdv].
      { apply elem_of_union in Hvv' as [->%elem_of_singleton|Hvs]; [eauto|].
        destruct (bi_visited_fin _ _ _ Hb v Hvs) as (dv & ? & _). eauto. }
      exists dv. split; [done|].
      rewrite Hv' in Hx.
      apply elem_of_union in Hx as [->%elem_of_singleton|Hx].
      * assert (zx = z) as -> by congruence.
        eapply dist_le_trans; [by eapply Hbelow|]. simpl. lia.
      * destruct (decide (v ∈ visited s)) as [Hvs|Hvs].
        -- destruct (Hrel _ _ _ _ Hx Hedge Hdx) as (dv' & ? & ?). congruence.
        -- assert (v = u) as -> by set_solver.
           destruct (Hrel _ _ _ _ Hx Hedge Hdx) as (dv' & ? & ?). congruence.
    + rewrite Hv' in Hx.
      apply elem_of_union in Hx as [->%elem_of_singleton|Hx].
      * assert (zx = z) as -> by congruence.
        destruct (Hadd _ _ Hedge) as (z0 & [= <-] & Hsum).
        destruct Hedge as (edges' & Hg' & Hin).
        assert (edges' = edges) as -> by congruence.
        destruct (relax_relaxed _ _ _ _ _ _ v w Hr Hin) as (nd & d' & Hnd & Hd' & Hle).
        { by rewrite <- Hv2. }
        exists d'. split; [done|]. congruence.
      * destruct (Hrel _ _ _ _ Hx Hedge Hdx) as (dv & Hdv & Hle).
        destruct (relax_dist_mono _ _ _ _ _ _ v dv Hr) as (dv' & ? & ?).
        { simpl. by rewrite Hd. }
        exists dv'. split; [done|]. by eapply dist_le_trans.
  - intros x y dx dy Hx Hy Hdx Hdy. rewrite Hsame in Hdx by done.
    pose proof (Hbelow _ _ Hx Hdx) as Hxz.
    assert (y ∉ visited s) as Hys by (rewrite Hv' in Hy; set_solver).
    destruct (relax_changed _ _ _ _ _ _ y Hr)
      as [[Hs _]|(_ & w & nd & d0 & Hin & Hnd & _ & _ & Hnew & _)].
    + simpl in Hs. rewrite Hs, Hd in Hdy.
      eapply dist_le_trans; [done|]. by eapply Hmin.
    + rewrite Hnew in Hdy. injection Hdy as <-.
      assert (edge graph u y w) as Hedge by (by exists edges).
      pose proof (edge_nonneg _ _ _ Hedge) as Hw.
      destruct (Hadd _ _ Hedge) as (z0 & [= <-] & Hsum).
      assert (nd = Fin (z + w)) as -> by congruence.
      eapply dist_le_trans; [done|]. simpl. lia.
Qed.

(** Every walk from [start_node] ends at a settled node whose distance is no
    more than the walk's weight, or passes through an open node whose
    distance is. *)
Lemma frontier_walk s v z :
  basic_inv graph start_node s → exact_inv graph start_node s →
  opt_inv graph s →
  walk graph start_node v z →
  (v ∈ visited s ∧ ∃ dv, dist s !! v = Some dv ∧ dist_le dv (Fin z)) ∨
  (∃ y dy, (y ∉ visited s) ∧ dist s !! y = Some dy ∧ dist_le dy (Fin z)).
Proof.
  intros Hb He [Hrel Hmono]. induction 1 as [|u v z w Hwalk IH Hedge].
  - pose proof (bi_start _ _ _ Hb) as Hs.
    destruct (decide (start_node ∈ visited s)).
    + left. split; [done|]. exists (Fin 0). split; [done | apply dist_le_refl].
    + right. exists start_node, (Fin 0). split_and!; [done..| apply dist_le_refl].
  - pose proof (edge_nonneg _ _ _ Hedge) as Hw.
    destruct IH as [(Hu & du & Hdu & Hle)|(y & dy & Hy & Hdy & Hle)].
    + destruct (ei_fin _ _ _ He _ _ Hdu) as [zu ->]; [by intros ->|].
      destruct (Hrel _ _ _ _ Hu Hedge Hdu) as (dv & Hdv & Hle').
      assert (dist_le dv (Fin (z + w))) as Hle''.
      { eapply dist_le_trans; [exact Hle'|]. simpl in *. lia. }
      destruct (decide (v ∈ visited s)).
      * left. split; [done|]. by exists dv.
      * right. by exists v, dv.
    + right. exists y, dy. split_and!; [done..|].
      eapply dist_le_trans; [exact Hle|]. simpl. lia.
Qed.

(** The step that finishes a run leaves the weight of a lightest walk in
    [dist[end_node]] and the matching verdict in the status label. *)
Lemma finish_lightest algo s s' :
  state_inv graph start_node end_node algo s →
  exact_inv graph start_node s → opt_inv graph s →
  running s → step graph end_node algo s = Some s' → is_finished s' = true →
  is_running s' = false ∧
  ∃ d, dist s' !! end_node = Some d ∧ lightest graph start_node end_node d ∧
       status_label s' = verdict d.
Proof.
  intros Hinv He Hopt Hrun Hstep Hf'.
  pose proof Hinv as (Hb & _ & Hend & _). specialize (Hend Hrun).
  destruct (finishing_step _ _ _ _ _ Hrun Hstep Hf')
    as [Hr' [(s1 & Hsel & Hfin)|(d & s1 & Hsel & Hfin)]]; (split; [done|]).
  - pose proof (select_spec _ _ _ _ _ _ Hinv Hrun Hsel) as [(Hd & _) Hex].
    destruct (finish_spec _ _ _ Hfin) as ((Hd' & _) & _ & _ & d & Hde & Hst).
    exists d. rewrite Hd'. split_and!; [done | | done].
    rewrite Hd in Hde. pose proof (Hex _ _ Hend Hde) as ->. simpl.
    intros z Hwalk.
    destruct (frontier_walk s _ _ Hb He Hopt Hwalk)
      as [[? _]|(y & dy & Hy & Hdy & Hle)]; [done|].
    by rewrite (Hex _ _ Hy Hdy) in Hle.
  - pose proof (select_spec _ _ _ _ _ _ Hinv Hrun Hsel)
      as ((Hd & _) & _ & Hdne & Hu & Hmin).
    destruct (ei_fin _ _ _ He _ _ Hu Hdne) as [z ->].
    destruct (finish_spec _ _ _ Hfin) as ((Hd' & _) & _ & _ & d & Hde & Hst).
    simpl in *. rewrite Hd in Hde. assert (d = Fin z) as -> by congruence.
    exists (Fin z). rewrite Hd', Hd. split_and!; [done | | done].
    split; [by apply (ei_walk _ _ _ He)|].
    intros z' Hwalk.
    destruct (frontier_walk s _ _ Hb He Hopt Hwalk)
      as [[? _]|(y & dy & Hy & Hdy & Hle)]; [done|].
    pose proof (Hmin _ _ Hy Hdy) as Hle'.
    pose proof (dist_le_trans (Fin z) dy (Fin z') Hle' Hle) as Hzz. done.
Qed.

Lemma exact_state_begin algo :
  exact_state graph start_node end_node algo
    (start start_node algo now (reset graph start_node order)).
Proof.
  split_and!; [by apply state_inv_begin | apply exact_inv_begin |].
  intros _. apply opt_inv_begin.
Qed.

Lemma exact_state_step algo s s' :
  exact_state graph start_node end_node algo s →
  step graph end_node algo s = Some s' →
  exact_state graph start_node end_node algo s'.
Proof.
  intros (Hinv & He & Hopt) Hstep. split_and!.
  - by eapply step_inv.
  - by eapply exact_inv_step.
  - intros Hrun1. destruct (decide (running s)) as [Hr|Hn].
    + eapply opt_inv_step; [exact Hinv | done | by apply Hopt | done..].
    + rewrite not_running_inert in Hstep by done. injection Hstep as <-. done.
Qed.

Lemma run_state_exact_state algo s :
  run_state graph start_node end_node algo now order s →
  exact_state graph start_node end_node algo s.
Proof.
  induction 1 as [|s s' _ IH Hstep]; [apply exact_state_begin|].
  by eapply exact_state_step.
Qed.

Lemma run_lightest algo :
  ∃ s', run graph end_node algo (size graph)
          (start start_node algo now (reset graph start_node order)) = Some s' ∧
        is_finished s' = true ∧ is_running s' = false ∧
        ∃ d, dist s' !! end_node = Some d ∧
             lightest graph start_node end_node d ∧
             status_label s' = verdict d.
Proof.
  destruct (run_begin_finishes graph start_node end_node order now Hwf Horder algo)
    as (s' & Hrun & Hf); [by apply exact_float_weights|].
  exists s'. split; [done|]. split; [done|].
  destruct (run_last graph end_node
              (exact_state graph start_node end_node algo) algo)
    with (4 := Hrun)
    as (k & sk & _ & _ & (Hinv & He & Hopt) & Hnf & Hlast & _).
  - intros s s1. apply exact_state_step.
  - apply exact_state_begin.
  - done.
  - assert (running sk) as Hr.
    { destruct Hinv as (_ & _ & _ & Hflag). split; auto. }
    eapply finish_lightest; [exact Hinv | done | by apply Hopt | done..].
Qed.

End Optimal.

(** ** The highlighted path *)

Lemma chain_ext p p' start_node v l :
  chain p start_node v l → (∀ x, x ∈ l → p' !! x = p !! x) →
  chain p' start_node v l.
Proof.
  induction 1 as [Hs|v u l Hv Hc IH]; intros Hext.
  - constructor. rewrite Hext; [done | by left].
  - econstructor.
    + rewrite Hext; [done|]. apply elem_of_app. right. by left.
    + apply IH. intros x Hx. apply Hext, elem_of_app. by left.
Qed.

Lemma chain_ends p start_node v l :
  chain p start_node v l → head l = Some start_node ∧ last l = Some v.
Proof.
  induction 1 as [Hs|v u l Hv Hc [IHh IHl]]; [done|].
  split; [|apply last_snoc].
  destruct l; [done|]. done.
Qed.

Lemma chain_last_in p start_node v l : chain p start_node v l → v ∈ l.
Proof.
  destruct 1; [by left|]. apply elem_of_app. right. by left.
Qed.

(** Along a chain of non-empty names the walk returns the chain. *)
Lemma walk_back_chain p start_node v l :
  chain p start_node v l → (∀ x, x ∈ l → x ≠ "") →
  ∀ fuel acc, (length l ≤ fuel)%nat →
    walk_back p fuel (Some v) acc = Walked (l ++ acc).
Proof.
  induction 1 as [Hs|v u l Hv Hc IH]; intros Hne fuel acc Hfuel.
  - destruct fuel as [|k]; [simpl in Hfuel; lia|]. simpl.
    destruct (decide (start_node = "")) as [He|_].
    { exfalso. apply (Hne start_node); [by left | done]. }
    rewrite Hs. by destruct k.
  - rewrite length_app in Hfuel. simpl in Hfuel.
    destruct fuel as [|k]; [lia|]. simpl.
    destruct (decide (v = "")) as [He|_].
    { exfalso. apply (Hne v); [|done]. apply elem_of_app. right. by left. }
    rewrite Hv. rewrite IH.
    + by rewrite <- app_assoc.
    + intros x Hx. apply Hne, elem_of_app. by left.
    + lia.
Qed.

Section Path.

Context (graph : Graph) (start_node end_node : string).
Context (order : list string) (now : Z).
Hypothesis Hwf : well_formed graph start_node end_node.
Hypothesis Horder : set_order graph order.

Lemma path_inv_begin algo :
  path_inv start_node (start start_node algo now (reset graph start_node order)).
Proof.
  unfold start. simpl. split; simpl; [set_solver|].
  intros v d _ Hz Hne. left.
  assert (init_dist graph start_node !! v = Some d) as Hi by done.
  apply init_dist_not_inf in Hi as [-> _]; [|done]. split; [done|].
  rewrite lookup_fmap.
  destruct Hwf as ([e He]%elem_of_dom & _). by rewrite He.
Qed.

Lemma path_inv_frame s s' :
  dist s' = dist s → prev s' = prev s → visited s' = visited s →
  path_inv start_node s → path_inv start_node s'.
Proof.
  intros Hd Hp Hv [? ?]. split; rewrite ?Hd, ?Hp, ?Hv; done.
Qed.

Lemma path_inv_settle s s2 u d :
  path_inv start_node s → (u ∉ visited s) → dist s !! u = Some d → d ≠ Inf →
  dist s2 = dist s → prev s2 = prev s → visited s2 = {[u]} ∪ visited s →
  path_inv start_node s2.
Proof.
  intros [Hchain Hopen] Hnu Hu Hdne Hd Hp Hv. split; rewrite ?Hd, ?Hp, ?Hv.
  - intros v [->%elem_of_singleton|Hin]%elem_of_union.
    + destruct (Hopen _ _ Hnu Hu Hdne) as [[-> Hs]|(x & Hx & Hxv)].
      * exists [start_node]. split_and!.
        -- by constructor.
        -- apply NoDup_singleton.
        -- intros x ->%list_elem_of_singleton. set_solver.
      * destruct (Hchain _ Hxv) as (l & Hc & Hnd & Hsub).
        exists (l ++ [u])%list. split_and!.
        -- by econstructor.
        -- apply NoDup_app. split_and!; [done | | apply NoDup_singleton].
           intros y Hy ->%list_elem_of_singleton. by apply Hsub in Hy.
        -- intros y [Hy| ->%list_elem_of_singleton]%elem_of_app; [|set_solver].
           apply Hsub in Hy. set_solver.
    + destruct (Hchain _ Hin) as (l & Hc & Hnd & Hsub).
      exists l. split_and!; [done..|]. intros y Hy%Hsub. set_solver.
  - intros v d' Hnv Hz Hne'.
    destruct (Hopen v d') as [?|(x & ? & ?)]; [set_solver | done | done | by left |].
    right. exists x. split; [done | set_solver].
Qed.

Lemma path_inv_relax algo s2 s' u du edges :
  path_inv start_node s2 → u ∈ visited s2 →
  relax algo u du edges s2 = Some s' →
  path_inv start_node s'.
Proof.
  intros [Hchain Hopen] Hu Hr.
  destruct (relax_frame _ _ _ _ _ _ Hr) as (Hv & _).
  split; rewrite ?Hv.
  - intros v Hin. destruct (Hchain _ Hin) as (l & Hc & Hnd & Hsub).
    exists l. split_and!; [|done..].
    eapply chain_ext; [done|]. intros x Hx%Hsub.
    by destruct (relax_visited_same _ _ _ _ _ _ x Hr Hx).
  - intros v d Hnv Hz Hne.
    destruct (relax_changed _ _ _ _ _ _ v Hr)
      as [[Hsd Hsp]|(_ & w & nd & d0 & _ & _ & _ & _ & _ & Hnew)].
    + rewrite Hsp. rewrite Hsd in Hz. by eapply Hopen.
    + right. by exists u.
Qed.

Lemma path_inv_step algo s s' :
  state_inv graph start_node end_node algo s → path_inv start_node s →
  step graph end_node algo s = Some s' → path_inv start_node s'.
Proof.
  intros Hinv Hpi Hstep. destruct (decide (running s)) as [Hrun|Hn]; cycle 1.
  { rewrite not_running_inert in Hstep by done. by injection Hstep as <-. }
  step_analysis Hrun Hstep;
    pose proof (select_spec _ _ _ _ _ _ Hinv Hrun Hsel) as Hpost; simpl in Hpost.
  - destruct Hpost as [(Hd & Hp & Hv & _) _].
    destruct (finish_spec _ _ _ Hfin) as ((Hd' & Hp' & Hv' & _) & _).
    eapply path_inv_frame; [| | |exact Hpi]; congruence.
  - destruct Hpost as ((Hd & Hp & Hv & _) & Hnv & Hdne & Hu & _).
    destruct (finish_spec _ _ _ Hfin) as ((Hd' & Hp' & Hv' & _) & _).
    simpl in *.
    eapply (path_inv_settle s s' end_node d);
      [done | done | done | done | | |]; congruence.
  - destruct Hpost as ((Hd & Hp & Hv & _) & Hnv & Hdne & Hu & _).
    eapply path_inv_relax; [| |exact Hr].
    + eapply (path_inv_settle s (settle u s1) u d);
        [done | done | done | done | | |]; simpl; congruence.
    + simpl. set_solver.
Qed.

(** After a run the highlighted path is nothing when the end node is at
    infinite distance and, when no node is named by the empty string, a
    sequence of distinct nodes from the start node to the end node
    otherwise; [size graph] steps of the walk are enough. *)
Lemma shown_path_correct algo s' :
  (∀ v, v ∈ dom graph → v ≠ "") →
  run graph end_node algo (size graph)
    (start start_node algo now (reset graph start_node order)) = Some s' →
  (dist s' !! end_node = Some Inf ∧
   shown_path end_node (size graph) s' = Some NoPath) ∨
  (∃ d l, dist s' !! end_node = Some d ∧ d ≠ Inf ∧
          shown_path end_node (size graph) s' = Some (ShownPath (Walked l)) ∧
          chain (prev s') start_node end_node l ∧
          head l = Some start_node ∧ last l = Some end_node ∧ NoDup l ∧
          (length l ≤ size graph)%nat ∧ ∀ x, x ∈ l → x ∈ visited s').
Proof.
  intros Hnames Hrun.
  destruct (run_last graph end_node
              (λ s, state_inv graph start_node end_node algo s ∧
                    path_inv start_node s) algo)
    with (4 := Hrun) as (k & sk & _ & _ & [Hinv Hpi] & Hnf & Hlast & Hf').
  { intros s0 s1 [H0 H0'] H1. split; [by eapply step_inv | by eapply path_inv_step]. }
  { split; [by apply state_inv_begin | apply path_inv_begin]. }
  { done. }
  assert (running sk) as Hrk.
  { destruct Hinv as (_ & _ & _ & Hfl). split; auto. }
  assert (state_inv graph start_node end_node algo s') as (Hb' & _)
    by (by eapply step_inv).
  pose proof (path_inv_step _ _ _ Hinv Hpi Hlast) as [Hchain' _].
  pose proof Hinv as (_ & _ & Hend & _). specialize (Hend Hrk).
  destruct (finishing_step _ _ _ _ _ Hrk Hlast Hf')
    as [_ [(s1 & Hsel & Hfin)|(d & s1 & Hsel & Hfin)]].
  - left. pose proof (select_spec _ _ _ _ _ _ Hinv Hrk Hsel) as [(Hd & _) Hex].
    destruct (finish_spec _ _ _ Hfin) as ((Hd' & _) & _ & _ & d & Hde & _).
    rewrite Hd in Hde. pose proof (Hex _ _ Hend Hde) as ->.
    assert (dist s' !! end_node = Some Inf) as Hinf by (by rewrite Hd', Hd).
    split; [done|]. unfold shown_path. by rewrite Hinf.
  - right.
    pose proof (select_spec _ _ _ _ _ _ Hinv Hrk Hsel)
      as ((Hd & _ & Hv & _) & _ & Hdne & Hu & _).
    destruct (finish_spec _ _ _ Hfin) as ((Hd' & _ & Hv' & _) & _).
    simpl in *.
    assert (dist s' !! end_node = Some d) as Hz by (by rewrite Hd', Hd).
    destruct (Hchain' end_node) as (l & Hc & Hnd & Hsub).
    { rewrite Hv'. set_solver. }
    destruct (chain_ends _ _ _ _ Hc) as [Hh Hl].
    assert (length l ≤ size graph)%nat as Hlen.
    { rewrite <- size_dom.
      assert (list_to_set l ⊆ dom graph) as Hsubset.
      { intros x Hx%elem_of_list_to_set%Hsub. by apply (bi_visited _ _ _ Hb'). }
      apply subseteq_size in Hsubset.
      by rewrite size_list_to_set in Hsubset. }
    exists d, l. split_and!; try done.
    unfold shown_path. rewrite Hz. simpl.
    apply dist_ltb_inf in Hdne. rewrite Hdne.
    rewrite (walk_back_chain _ _ _ _ Hc).
    + by rewrite app_nil_r.
    + intros x Hx%Hsub. apply Hnames. by apply (bi_visited _ _ _ Hb').
    + done.
Qed.

End Path.

(** ** Facts about the concrete graphs *)

Lemma builtin_dom : dom builtin_graph = list_to_set builtin_nodes.
Proof. unfold builtin_graph. rewrite dom_list_to_map_L. reflexivity. Qed.

Lemma builtin_well_formed : well_formed builtin_graph "A" "G".
Proof. split_and!; compute_done. Qed.

Lemma builtin_nonneg : nonneg builtin_graph.
Proof. compute_done. Qed.

Lemma builtin_float_weights : float_weights builtin_graph.
Proof. compute_done. Qed.

Lemma builtin_exact_sums : exact_sums builtin_graph.
Proof. compute_done. Qed.

Lemma builtin_set_order : set_order builtin_graph builtin_nodes.
Proof.
  split; [compute_done|]. intros v. rewrite builtin_dom. set_solver.
Qed.

Lemma builtin_no_blank v : v ∈ dom builtin_graph → v ≠ "".
Proof.
  rewrite builtin_dom. unfold builtin_nodes. rewrite elem_of_list_to_set.
  intros Hin ->.
  assert (Forall (λ v, v ≠ "") ["A"; "B"; "C"; "D"; "E"; "F"; "G"]) as Hall
    by (repeat constructor; done).
  rewrite Forall_forall in Hall. by apply (Hall "" Hin).
Qed.

Lemma builtin_orders order :
  set_order builtin_graph order → order ∈ permutations builtin_nodes.
Proof.
  intros [Hnd Hmem]. apply permutations_Permutation, NoDup_Permutation.
  - compute_done.
  - done.
  - intros v. rewrite Hmem, builtin_dom. set_solver.
Qed.

Lemma builtin_all_orders algo now :
  forallb (builtin_check algo now) (permutations builtin_nodes) = true.
Proof. destruct algo; vm_compute; reflexivity. Qed.

Lemma island_well_formed : well_formed island_graph "A" "G".
Proof. split_and!; compute_done. Qed.

Lemma island_nonneg : nonneg island_graph.
Proof. compute_done. Qed.

Lemma island_float_weights : float_weights island_graph.
Proof. compute_done. Qed.

Lemma island_exact_sums : exact_sums island_graph.
Proof. compute_done. Qed.

Lemma island_set_order : set_order island_graph builtin_nodes.
Proof.
  split; [compute_done|]. intros v.
  assert (dom island_graph = list_to_set builtin_nodes) as ->.
  { unfold island_graph. rewrite dom_list_to_map_L. reflexivity. }
  set_solver.
Qed.

Lemma island_unreachable z : ¬ walk island_graph "A" "G" z.
Proof.
  assert (∀ v z, walk island_graph "A" v z → v ≠ "G") as H.
  { induction 1 as [|u v z' w _ _ (edges & Hu & Hin)]; [done|].
    assert (map_Forall (λ _ edges, Forall (λ e : string * Z, e.1 ≠ "G") edges)
              island_graph) as Hall by compute_done.
    pose proof (map_Forall_lookup_1 _ _ _ _ Hall Hu) as Hf.
    rewrite Forall_forall in Hf. apply (Hf (v, w) Hin). }
  intros Hw. by apply H in Hw.
Qed.





(** * Further properties of the engine *)

(** ** Predecessors *)

Section Predecessors.

Context (graph : Graph) (start_node end_node : string).
Context (order : list string) (now : Z).
Hypothesis Hwf : well_formed graph start_node end_node.
Hypothesis Horder : set_order graph order.

Lemma run_run_state algo : ∀ fuel s s',
  run_state graph start_node end_node algo now order s →
  run graph end_node algo fuel s = Some s' →
  run_state graph start_node end_node algo now order s'.
Proof using Type.
  induction fuel as [|fuel IH]; simpl; intros s s' Hrs.
  - destruct (is_finished s); [by intros [= <-] | done].
  - destruct (is_finished s); [by intros [= <-]|].
    destruct (step graph end_node algo s) as [s1|] eqn:Hs; simpl; [|done].
    apply IH. by econstructor.
Qed.

Lemma run_state_path algo s :
  run_state graph start_node end_node algo now order s →
  path_inv start_node s.
Proof.
  induction 1 as [|s s' Hrs IH Hstep]; [by eapply path_inv_begin|].
  pose proof (run_state_inv _ _ _ _ _ Hwf Horder _ _ Hrs) as Hinv.
  eapply path_inv_step; eauto.
Qed.

Lemma pred_inv_begin algo :
  pred_inv graph start_node
    (start start_node algo now (reset graph start_node order)).
Proof.
  unfold start. simpl. split; simpl.
  - rewrite lookup_fmap.
    destruct Hwf as ([e He]%elem_of_dom & _). by rewrite He.
  - intros v u. rewrite lookup_fmap. by destruct (graph !! v).
  - intros v Hv. destruct (decide (v = start_node)) as [|Hne]; [by left|].
    right. rewrite lookup_insert_ne, lookup_fmap by done.
    rewrite lookup_fmap in Hv. by destruct (graph !! v).
Qed.

Lemma pred_inv_settle s s2 u :
  pred_inv graph start_node s →
  dist s2 = dist s → prev s2 = prev s → visited s2 = {[u]} ∪ visited s →
  pred_inv graph start_node s2.
Proof using Type.
  intros [Hs Hl Hn] Hd Hp Hv. split; rewrite ?Hd, ?Hp, ?Hv; [done | | done].
  intros v u' Hpv. destruct (Hl _ _ Hpv) as (d & du & w & ? & ? & ? & ? & ? & ?).
  exists d, du, w. split_and!; try done. by apply elem_of_union_r.
Qed.

Lemma pred_inv_frame s s' :
  dist s' = dist s → prev s' = prev s → visited s' = visited s →
  pred_inv graph start_node s → pred_inv graph start_node s'.
Proof using Type.
  intros Hd Hp Hv [? ? ?]. split; rewrite ?Hd, ?Hp, ?Hv; done.
Qed.

Lemma pred_inv_relax algo s2 s' u du edges :
  pred_inv graph start_node s2 → start_node ∈ visited s2 → u ∈ visited s2 →
  dist s2 !! u = Some du → graph !! u = Some edges →
  relax algo u du edges s2 = Some s' →
  pred_inv graph start_node s'.
Proof using Type.
  intros [Hs Hl Hn] Hsv Hu Hdu Hg Hr.
  destruct (relax_frame _ _ _ _ _ _ Hr) as (Hv & _).
  split; rewrite ?Hv.
  - by destruct (relax_visited_same _ _ _ _ _ _ _ Hr Hsv) as [_ ->].
  - intros v u' Hpv.
    destruct (relax_changed _ _ _ _ _ _ v Hr)
      as [[Hsd Hsp]|(_ & w & nd & d0 & Hin & Hnd & _ & Hlt & Hnew & Hnp)].
    + rewrite Hsp in Hpv.
      destruct (Hl _ _ Hpv) as (d & du' & w & Hz & Hne & Hvis & He & Hzu & Heq).
      exists d, du', w. split_and!; try done; [by rewrite Hsd|].
      by destruct (relax_visited_same _ _ _ _ _ _ _ Hr Hvis) as [-> _].
    + rewrite Hnp in Hpv. injection Hpv as <-.
      exists nd, du, w. split_and!; try done.
      * by eapply dist_ltb_not_inf.
      * by exists edges.
      * by destruct (relax_visited_same _ _ _ _ _ _ _ Hr Hu) as [-> _].
  - intros v Hpv.
    destruct (relax_changed _ _ _ _ _ _ v Hr)
      as [[Hsd Hsp]|(_ & w & nd & d0 & _ & _ & _ & _ & _ & Hnp)].
    + rewrite Hsd. apply Hn. by rewrite <- Hsp.
    + congruence.
Qed.

Lemma pred_inv_step algo s s' :
  state_inv graph start_node end_node algo s → pred_inv graph start_node s →
  step graph end_node algo s = Some s' → pred_inv graph start_node s'.
Proof.
  intros Hinv Hpi Hstep. destruct (decide (running s)) as [Hrun|Hn]; cycle 1.
  { rewrite not_running_inert in Hstep by done. by injection Hstep as <-. }
  step_analysis Hrun Hstep;
    pose proof (select_spec _ _ _ _ _ _ Hinv Hrun Hsel) as Hpost; simpl in Hpost.
  - destruct Hpost as [(Hd & Hp & Hv & _) _].
    destruct (finish_spec _ _ _ Hfin) as ((Hd' & Hp' & Hv' & _) & _).
    eapply pred_inv_frame; [| | |exact Hpi]; congruence.
  - destruct Hpost as ((Hd & Hp & Hv & _) & Hnv & Hdne & Hu & _).
    destruct (finish_spec _ _ _ Hfin) as ((Hd' & Hp' & Hv' & _) & _).
    simpl in *.
    eapply (pred_inv_settle s s' end_node); [done | | |]; congruence.
  - destruct Hpost as ((Hd & Hp & Hv & _) & Hnv & Hdne & Hu & _).
    destruct Hinv as (Hb & _).
    destruct (basic_inv_settle graph start_node end_node order Hwf Horder
                s (settle u s1) u d Hb Hu Hdne)
      as [_ Hs2]; [done | done | simpl; congruence |].
    eapply pred_inv_relax; [| exact Hs2 | | | exact Hg | exact Hr].
    + eapply (pred_inv_settle s (settle u s1) u); [done | | |]; simpl; congruence.
    + simpl. set_solver.
    + simpl. congruence.
Qed.

Lemma run_state_pred algo s :
  run_state graph start_node end_node algo now order s →
  pred_inv graph start_node s.
Proof.
  induction 1 as [|s s' Hrs IH Hstep]; [by eapply pred_inv_begin|].
  pose proof (run_state_inv _ _ _ _ _ Hwf Horder _ _ Hrs) as Hinv.
  eapply pred_inv_step; eauto.
Qed.

End Predecessors.

Section PredExact.

Context (graph : Graph) (start_node end_node : string).
Context (order : list string) (now : Z).
Hypothesis Hwf : well_formed graph start_node end_node.
Hypothesis Horder : set_order graph order.
Hypothesis Hexact : exact_sums graph.

Lemma pred_exact_frame s s' :
  dist s' = dist s → prev s' = prev s → visited s ⊆ visited s' →
  pred_exact graph s → pred_exact graph s'.
Proof.
  intros Hd Hp Hv Hl v u Hpv. rewrite Hp in Hpv.
  destruct (Hl _ _ Hpv) as (z & zu & w & ? & ? & ? & ? & ?).
  exists z, zu, w. rewrite Hd. split_and!; try done. by apply Hv.
Qed.

Lemma pred_exact_relax algo s s2 s' u zu edges :
  basic_inv graph start_node s → exact_inv graph start_node s →
  (u ∉ visited s) → dist s !! u = Some (Fin zu) → graph !! u = Some edges →
  dist s2 = dist s → visited s2 = {[u]} ∪ visited s →
  pred_exact graph s2 →
  relax algo u (Fin zu) edges s2 = Some s' →
  pred_exact graph s'.
Proof.
  intros Hb He Hnu Hu Hg Hd Hv Hl Hr.
  destruct (relax_frame _ _ _ _ _ _ Hr) as (Hv' & _).
  assert (u ∈ visited s2) as Hu2 by (rewrite Hv; set_solver).
  intros v u' Hpv. rewrite Hv'.
  destruct (relax_changed _ _ _ _ _ _ v Hr)
    as [[Hsd Hsp]|(_ & w & nd & d0 & Hin & Hnd & _ & _ & Hnew & Hnp)].
  - rewrite Hsp in Hpv.
    destruct (Hl _ _ Hpv) as (z & zu' & w & Hz & Hvis & Hedge & Hzu & Heq).
    exists z, zu', w. split_and!; try done; [by rewrite Hsd|].
    by destruct (relax_visited_same _ _ _ _ _ _ _ Hr Hvis) as [-> _].
  - rewrite Hnp in Hpv. injection Hpv as <-.
    assert (edge graph u v w) as Hedge by (by exists edges).
    destruct (exact_add graph start_node Hexact s u zu v w Hb He Hnu Hu Hedge)
      as [Hadd _].
    exists (zu + w), zu, w. split_and!; try done; [congruence|].
    destruct (relax_visited_same _ _ _ _ _ _ _ Hr Hu2) as [-> _]. congruence.
Qed.

Lemma pred_exact_step algo s s' :
  state_inv graph start_node end_node algo s →
  exact_inv graph start_node s → pred_exact graph s →
  step graph end_node algo s = Some s' → pred_exact graph s'.
Proof.
  intros Hinv He Hpe Hstep. destruct (decide (running s)) as [Hrun|Hn]; cycle 1.
  { rewrite not_running_inert in Hstep by done. by injection Hstep as <-. }
  step_analysis Hrun Hstep;
    pose proof (select_spec _ _ _ _ _ _ Hinv Hrun Hsel) as Hpost; simpl in Hpost.
  - destruct Hpost as [(Hd & Hp & Hv & _) _].
    destruct (finish_spec _ _ _ Hfin) as ((Hd' & Hp' & Hv' & _) & _).
    eapply pred_exact_frame; [| | |exact Hpe]; [congruence | congruence |].
    by rewrite Hv', Hv.
  - destruct Hpost as ((Hd & Hp & Hv & _) & Hnv & Hdne & Hu & _).
    destruct (finish_spec _ _ _ Hfin) as ((Hd' & Hp' & Hv' & _) & _).
    simpl in *.
    eapply pred_exact_frame; [| | |exact Hpe]; [congruence | congruence |].
    rewrite Hv', Hv. set_solver.
  - destruct Hpost as ((Hd & Hp & Hv & _) & Hnv & Hdne & Hu & _).
    destruct Hinv as (Hb & _).
    destruct (ei_fin _ _ _ He _ _ Hu Hdne) as [zu ->].
    eapply (pred_exact_relax algo s (settle u s1) s' u zu edges);
      [exact Hb | exact He | exact Hnv | exact Hu | exact Hg | exact Hd
      | simpl; by rewrite Hv | | exact Hr].
    eapply pred_exact_frame; [| | |exact Hpe]; simpl; [done | done |].
    rewrite Hv. set_solver.
Qed.

Lemma run_state_pred_exact algo s :
  run_state graph start_node end_node algo now order s →
  pred_exact graph s.
Proof.
  induction 1 as [|s s' Hrs IH Hstep].
  - intros v u. unfold start. simpl. rewrite lookup_fmap.
    by destruct (graph !! v).
  - pose proof (run_state_inv _ _ _ _ _ Hwf Horder _ _ Hrs) as Hinv.
    pose proof (run_state_exact_inv _ _ _ _ _ Hwf Horder Hexact _ _ Hrs) as He.
    by eapply pred_exact_step.
Qed.

(** Along a chain of predecessor links the edges are edges of the graph and
    their weights add up to the distance of the node the chain leads to. *)
Lemma chain_path_walk s v l :
  basic_inv graph start_node s → pred_exact graph s →
  chain (prev s) start_node v l →
  ∃ z, dist s !! v = Some (Fin z) ∧ path_walk graph l z.
Proof.
  intros Hb Hl. induction 1 as [Hs|v u l Hv Hc (zu & Hzu & Hpw)].
  - exists 0. split; [apply (bi_start _ _ _ Hb) | constructor].
  - destruct (Hl _ _ Hv) as (z & zu' & w & Hz & _ & He & Hzu' & ->).
    assert (zu' = zu) as -> by congruence.
    exists (zu + w). split; [done|].
    econstructor; [done | | done].
    by destruct (chain_ends _ _ _ _ Hc).
Qed.

End PredExact.

(** ** Settled nodes *)

Section Settled.

Context (graph : Graph) (start_node end_node : string).
Context (order : list string) (now : Z).
Hypothesis Hwf : well_formed graph start_node end_node.
Hypothesis Horder : set_order graph order.
Hypothesis Hnonneg : nonneg graph.
Hypothesis Hexact : exact_sums graph.

Lemma run_state_opt algo s :
  run_state graph start_node end_node algo now order s →
  running s → opt_inv graph s.
Proof.
  intros Hrs Hrun.
  destruct (run_state_exact_state _ _ _ _ _ Hwf Horder Hnonneg Hexact _ _ Hrs)
    as (_ & _ & Hopt).
  by apply Hopt.
Qed.

(** The node [select] hands over is at its final, exact distance. *)
Lemma candidate_lightest algo s d u s1 :
  state_inv graph start_node end_node algo s →
  exact_inv graph start_node s → opt_inv graph s → running s →
  select algo s = Some (Candidate d u s1) →
  lightest graph start_node u d.
Proof.
  intros Hinv He Hopt Hrun Hsel.
  pose proof (select_spec _ _ _ _ _ _ Hinv Hrun Hsel)
    as (_ & Hnv & Hdne & Hu & Hmin).
  destruct Hinv as (Hb & _).
  destruct (ei_fin _ _ _ He _ _ Hu Hdne) as [z ->]. simpl.
  split; [by apply (ei_walk _ _ _ He)|].
  intros z' Hwalk.
  destruct (frontier_walk graph start_node Hnonneg s _ _ Hb He Hopt Hwalk)
    as [[? _]|(y & dy & Hy & Hdy & Hle)]; [done|].
  pose proof (Hmin _ _ Hy Hdy) as Hle'.
  by pose proof (dist_le_trans (Fin z) dy (Fin z') Hle' Hle).
Qed.

Lemma run_state_exact algo s :
  run_state graph start_node end_node algo now order s →
  settled_exact graph start_node s.
Proof.
  induction 1 as [|s s' Hrs IH Hstep].
  - intros v Hv. unfold start in Hv. simpl in Hv. set_solver.
  - destruct (decide (running s)) as [Hrun|Hn]; cycle 1.
    { rewrite not_running_inert in Hstep by done. by injection Hstep as <-. }
    destruct (run_state_exact_state _ _ _ _ _ Hwf Horder Hnonneg Hexact _ _ Hrs)
      as (Hinv & He & Hopt). specialize (Hopt Hrun).
    step_analysis Hrun Hstep.
    + pose proof (select_frame _ _ _ Hsel) as (Hd & _ & Hv & _). simpl in *.
      destruct (finish_spec _ _ _ Hfin) as ((Hd' & _ & Hv' & _) & _).
      intros v. rewrite Hv', Hv, Hd', Hd. apply IH.
    + pose proof (candidate_lightest _ _ _ _ _ Hinv He Hopt Hrun Hsel) as Hl.
      pose proof (select_spec _ _ _ _ _ _ Hinv Hrun Hsel)
        as ((Hd & _ & Hv & _) & _ & _ & Hu & _).
      destruct (finish_spec _ _ _ Hfin) as ((Hd' & _ & Hv' & _) & _).
      simpl in *. intros v. rewrite Hv', Hv, Hd', Hd.
      intros [->%elem_of_singleton|Hin]%elem_of_union; [eauto | by apply IH].
    + pose proof (candidate_lightest _ _ _ _ _ Hinv He Hopt Hrun Hsel) as Hl.
      pose proof (select_spec _ _ _ _ _ _ Hinv Hrun Hsel)
        as ((Hd & _ & Hv & _) & _ & _ & Hu & _).
      destruct (relax_frame _ _ _ _ _ _ Hr) as (Hv' & _).
      intros v Hin. rewrite Hv' in Hin.
      destruct (relax_visited_same _ _ _ _ _ _ v Hr Hin) as [-> _].
      simpl in *. rewrite Hd. rewrite Hv in Hin.
      apply elem_of_union in Hin as [->%elem_of_singleton|Hin];
        [eauto | by apply IH].
Qed.

(** The last step of a run that returns. *)
Lemma run_final algo s' :
  run graph end_node algo (size graph)
    (start start_node algo now (reset graph start_node order)) = Some s' →
  ∃ sk, run_state graph start_node end_node algo now order sk ∧ running sk ∧
        step graph end_node algo sk = Some s' ∧ is_finished s' = true ∧
        run_state graph start_node end_node algo now order s'.
Proof.
  intros Hrun.
  destruct (run_last graph end_node
              (run_state graph start_node end_node algo now order) algo)
    with (4 := Hrun) as (k & sk & _ & _ & Hrs & Hnf & Hlast & Hf').
  { intros s0 s1 H0 H1. by econstructor. }
  { constructor. }
  { done. }
  pose proof (run_state_inv _ _ _ _ _ Hwf Horder _ _ Hrs) as Hinv.
  exists sk. split_and!; try done.
  - destruct Hinv as (_ & _ & _ & Hfl). split; auto.
  - by econstructor.
Qed.

(** A run that ends with the end node at infinite distance has settled
    exactly the nodes that a walk from the start reaches. *)
Lemma run_exhausted algo s' :
  run graph end_node algo (size graph)
    (start start_node algo now (reset graph start_node order)) = Some s' →
  dist s' !! end_node = Some Inf →
  (∀ v, v ∈ visited s' ↔ ∃ z, walk graph start_node v z) ∧
  (∀ v, v ∈ dom graph → v ∉ visited s' → dist s' !! v = Some Inf).
Proof.
  intros Hrun Hinf.
  destruct (run_final _ _ Hrun) as (sk & Hrs & Hrk & Hlast & Hf' & _).
  destruct (run_state_exact_state _ _ _ _ _ Hwf Horder Hnonneg Hexact _ _ Hrs)
    as (Hinv & He & Hopt). specialize (Hopt Hrk).
  pose proof Hinv as (Hb & _ & Hend & _). specialize (Hend Hrk).
  destruct (finishing_step _ _ _ _ _ Hrk Hlast Hf')
    as [_ [(s1 & Hsel & Hfin)|(d & s1 & Hsel & Hfin)]].
  - pose proof (select_spec _ _ _ _ _ _ Hinv Hrk Hsel)
      as [(Hd & _ & Hv & _) Hex].
    destruct (finish_spec _ _ _ Hfin) as ((Hd' & _ & Hv' & _) & _).
    split.
    + intros v. rewrite Hv', Hv. split.
      * intros Hin. destruct (bi_visited_fin _ _ _ Hb v Hin) as (d & Hz & Hne).
        by apply (bi_reach _ _ _ Hb v d).
      * intros [z Hwalk].
        destruct (frontier_walk graph start_node Hnonneg sk _ _ Hb He Hopt Hwalk)
          as [[? _]|(y & dy & Hy & Hdy & Hle)]; [done|].
        by rewrite (Hex _ _ Hy Hdy) in Hle.
    + intros v Hdom. rewrite Hv', Hv, Hd', Hd. intros Hnv.
      rewrite <- (bi_dom_dist _ _ _ Hb) in Hdom.
      apply elem_of_dom in Hdom as [dv Hdv].
      by rewrite Hdv, (Hex _ _ Hnv Hdv).
  - pose proof (select_spec _ _ _ _ _ _ Hinv Hrk Hsel)
      as ((Hd & _) & _ & Hdne & Hu & _).
    destruct (finish_spec _ _ _ Hfin) as ((Hd' & _) & _).
    simpl in *. congruence.
Qed.

(** A run that ends with the end node at a finite distance has settled the
    end node and every node nearer than it, and no node farther. *)
Lemma run_nearer algo s' ze :
  run graph end_node algo (size graph)
    (start start_node algo now (reset graph start_node order)) = Some s' →
  dist s' !! end_node = Some (Fin ze) →
  end_node ∈ visited s' ∧
  (∀ v z, walk graph start_node v z → z < ze → v ∈ visited s') ∧
  (∀ v, v ∈ visited s' → ∃ z, dist s' !! v = Some (Fin z) ∧ z <= ze).
Proof.
  intros Hrun Hze.
  destruct (run_final _ _ Hrun) as (sk & Hrs & Hrk & Hlast & Hf' & _).
  destruct (run_state_exact_state _ _ _ _ _ Hwf Horder Hnonneg Hexact _ _ Hrs)
    as (Hinv & He & Hopt). specialize (Hopt Hrk).
  pose proof Hinv as (Hb & _ & Hend & _). specialize (Hend Hrk).
  destruct (finishing_step _ _ _ _ _ Hrk Hlast Hf')
    as [_ [(s1 & Hsel & Hfin)|(d & s1 & Hsel & Hfin)]].
  - pose proof (select_spec _ _ _ _ _ _ Hinv Hrk Hsel) as [(Hd & _) Hex].
    destruct (finish_spec _ _ _ Hfin) as ((Hd' & _) & _).
    rewrite Hd', Hd in Hze. by specialize (Hex _ _ Hend Hze).
  - pose proof (select_spec _ _ _ _ _ _ Hinv Hrk Hsel)
      as ((Hd & _ & Hv & _) & _ & Hdne & Hu & Hmin).
    destruct (finish_spec _ _ _ Hfin) as ((Hd' & _ & Hv' & _) & _).
    simpl in *.
    assert (d = Fin ze) as -> by (rewrite Hd', Hd in Hze; congruence).
    split_and!.
    + rewrite Hv'. set_solver.
    + intros v z Hwalk Hlt. rewrite Hv', Hv.
      destruct (frontier_walk graph start_node Hnonneg sk _ _ Hb He Hopt Hwalk)
        as [[? _]|(y & dy & Hy & Hdy & Hle)]; [set_solver|].
      pose proof (Hmin _ _ Hy Hdy) as Hle'.
      pose proof (dist_le_trans (Fin ze) dy (Fin z) Hle' Hle) as Hzz.
      simpl in Hzz. lia.
    + intros v. rewrite Hv', Hv, Hd', Hd.
      intros [->%elem_of_singleton|Hin]%elem_of_union.
      * exists ze. split; [done | lia].
      * destruct (bi_visited_fin _ _ _ Hb v Hin) as (dv & Hz & Hne).
        destruct (ei_fin _ _ _ He _ _ Hz Hne) as [z ->].
        exists z. split; [done|].
        apply (oi_mono _ _ Hopt v end_node (Fin z) (Fin ze)); done.
Qed.

(** The cost of the highlighted path is [dist[end_node]]. *)
Lemma shown_path_cost algo s' z :
  (∀ v, v ∈ dom graph → v ≠ "") →
  run graph end_node algo (size graph)
    (start start_node algo now (reset graph start_node order)) = Some s' →
  dist s' !! end_node = Some (Fin z) →
  ∃ l, shown_path end_node (size graph) s' = Some (ShownPath (Walked l)) ∧
       head l = Some start_node ∧ last l = Some end_node ∧ NoDup l ∧
       path_walk graph l z.
Proof.
  intros Hnames Hrun Hz.
  destruct (shown_path_correct _ _ _ _ _ Hwf Horder _ _ Hnames Hrun)
    as [[Hinf _]|(d0 & l & Hz0 & _ & Hshown & Hchain & Hh & Hl & Hnd & _)];
    [congruence|].
  pose proof (run_run_state _ _ _ _ _ _ _ _ _
                (run_begin graph start_node end_node algo now order) Hrun) as Hrs.
  pose proof (run_state_inv _ _ _ _ _ Hwf Horder _ _ Hrs) as (Hb & _).
  pose proof (run_state_pred_exact _ _ _ _ _ Hwf Horder Hexact _ _ Hrs) as Hpred.
  destruct (chain_path_walk _ _ _ _ _ Hb Hpred Hchain) as (z1 & Hz1 & Hpw).
  assert (z1 = z) as -> by congruence.
  exists l. by split_and!.
Qed.

End Settled.


(** ** Distances with non-negative weights *)

Section NonNegative.

Context (graph : Graph) (start_node end_node : string).
Context (order : list string) (now : Z).
Hypothesis Hnonneg : nonneg graph.

Lemma nonneg_dists_relax algo s2 s' u du edges :
  nonneg_dists s2 → dist_le (Fin 0) du → graph !! u = Some edges →
  relax algo u du edges s2 = Some s' → nonneg_dists s'.
Proof.
  intros Hn Hdu Hg Hr.
  eapply (relax_ind nonneg_dists); [exact Hr | exact Hn |].
  intros s0 nbr w nd d0 [Hd0 Hq0] _ Hin _ Hnd _ Hlt.
  assert (0 <= w) as Hw.
  { apply (edge_nonneg graph Hnonneg u nbr w). by exists edges. }
  pose proof (dist_add_nonneg _ _ _ Hdu Hw Hnd) as Hnn.
  split; simpl.
  - intros v d. destruct (decide (nbr = v)) as [->|Hne].
    + rewrite lookup_insert_eq. by intros [= <-].
    + rewrite lookup_insert_ne by done. apply Hd0.
  - intros d v Hdv.
    assert ((d, v) = (nd, nbr) ∨ (d, v) ∈ pq s0) as [[= -> ->]|Hold].
    { destruct algo; [by apply elem_of_heappush in Hdv | by right]. }
    + split; [done | by eapply dist_ltb_not_inf].
    + exact (Hq0 _ _ Hold).
Qed.

Lemma run_state_nonneg_dists algo s :
  run_state graph start_node end_node algo now order s → nonneg_dists s.
Proof.
  induction 1 as [|s s' Hrs IH Hstep].
  - unfold start. simpl. split; simpl.
    + intros v d. destruct (decide (start_node = v)) as [->|Hne].
      * rewrite lookup_insert_eq. by intros [= <-].
      * rewrite lookup_insert_ne, lookup_fmap by done.
        destruct (graph !! v); simpl; [by intros [= <-] | done].
    + intros d v He.
      assert ((d, v) = (Fin 0, start_node)) as [= -> ->]; [|done].
      destruct algo; simpl in He.
      * by apply list_elem_of_singleton in He.
      * by apply elem_of_nil in He.
  - destruct (decide (running s)) as [Hrun|Hn]; cycle 1.
    { rewrite not_running_inert in Hstep by done. by injection Hstep as <-. }
    assert (∀ sel, select algo s = Some sel → nonneg_dists (sel_state sel))
      as Hsub.
    { intros sel Hsel. destruct IH as [IHd IHq].
      pose proof (select_frame _ _ _ Hsel) as (Hd & _).
      split; [by rewrite Hd|].
      intros d v He. apply (IHq d v). by eapply select_pq_subseteq. }
    step_analysis Hrun Hstep.
    + destruct (finish_spec _ _ _ Hfin) as ((Hd' & _ & _ & _ & Hq' & _) & _).
      destruct (Hsub _ Hsel) as [? ?]. split; by rewrite ?Hd', ?Hq'.
    + destruct (finish_spec _ _ _ Hfin) as ((Hd' & _ & _ & _ & Hq' & _) & _).
      destruct (Hsub _ Hsel) as [? ?]. split; by rewrite ?Hd', ?Hq'.
    + assert (dist_le (Fin 0) d) as Hd.
      { destruct IH as [IHd IHq]. destruct algo.
        - apply select_heap_cand in Hsel as (rest & Hdrop & _).
          apply (IHq d u), (drop_stale_subseteq (visited s)).
          rewrite Hdrop. by left.
        - apply select_lin_cand in Hsel as (_ & Hu & _). by eapply IHd. }
      apply (nonneg_dists_relax algo (settle u s1) s' u d edges);
        [exact (Hsub _ Hsel) | done | done | done].
Qed.

End NonNegative.

(** * The claims *)




(** C2.  On the built-in graph from A to G, in either mode and whatever the
    iteration order of the unvisited set, the run finishes with
    [dist[G] = 6] and the highlighted path is A, B, D, E, G. *)
Theorem C2_builtin_scenario (algo : Algo) (now : Z) (order : list string) :
  set_order builtin_graph order →
  ∃ s, builtin_run algo now order = Some s ∧
       is_finished s = true ∧ dist s !! "G" = Some (Fin 6) ∧
       shown_path "G" 7 s = Some (ShownPath (Walked ["A"; "B"; "D"; "E"; "G"])).
Proof.
  intros Hin%builtin_orders.
  pose proof (builtin_all_orders algo now) as Hall.
  rewrite forallb_forall in Hall.
  apply list_elem_of_In, Hall in Hin. unfold builtin_check in Hin.
  destruct (builtin_run algo now order) as [s|]; [|done].
  exists s. split; [done|]. by apply bool_decide_eq_true in Hin.
Qed.

Lemma C2_builtin_scenario_witness :
  set_order builtin_graph builtin_nodes ∧
  ∃ s, builtin_run lin 0 builtin_nodes = Some s ∧
       is_finished s = true ∧ dist s !! "G" = Some (Fin 6) ∧
       shown_path "G" 7 s = Some (ShownPath (Walked ["A"; "B"; "D"; "E"; "G"])).
Proof.
  split; [exact builtin_set_order|].
  exact (C2_builtin_scenario lin 0 builtin_nodes builtin_set_order).
Defined.

(** C3.  From any state of a run, over any number of calls of [step] (one
    call for consecutive states) no tentative distance grows, and the
    distance and predecessor of a node that was already in [visited] are
    unchanged; [dist[start_node]] is 0 after [reset], and before and after
    the calls. *)
Theorem C3_distances_monotone (graph : Graph) (start_node end_node : string)
    (algo : Algo) (now : Z) (order : list string) (k : nat) (s s' : Engine) :
  well_formed graph start_node end_node → set_order graph order →
  run_state graph start_node end_node algo now order s →
  steps graph end_node algo k s = Some s' →
  (∀ v d, dist s !! v = Some d → ∃ d', dist s' !! v = Some d' ∧ dist_le d' d) ∧
  (∀ v, v ∈ visited s →
        dist s' !! v = dist s !! v ∧ prev s' !! v = prev s !! v) ∧
  dist (reset graph start_node order) !! start_node = Some (Fin 0) ∧
  dist s !! start_node = Some (Fin 0) ∧
  dist s' !! start_node = Some (Fin 0).
Proof.
  intros Hwf Hord Hrs Hsteps. split_and!.
  - intros v d. by eapply steps_dist_mono.
  - intros v. by eapply steps_visited_same.
  - apply lookup_insert_eq.
  - pose proof (run_state_inv _ _ _ _ _ Hwf Hord _ _ Hrs) as (Hb & _).
    apply (bi_start _ _ _ Hb).
  - pose proof (steps_run_state _ _ _ _ _ _ _ _ _ Hrs Hsteps) as Hrs'.
    pose proof (run_state_inv _ _ _ _ _ Hwf Hord _ _ Hrs') as (Hb & _).
    apply (bi_start _ _ _ Hb).
Qed.

Lemma C3_distances_monotone_witness :
  let s := start "A" lin 0 (reset builtin_graph "A" builtin_nodes) in
  ∃ s', steps builtin_graph "G" lin 3 s = Some s' ∧
    (∀ v d, dist s !! v = Some d → ∃ d', dist s' !! v = Some d' ∧ dist_le d' d) ∧
    (∀ v, v ∈ visited s →
          dist s' !! v = dist s !! v ∧ prev s' !! v = prev s !! v) ∧
    dist (reset builtin_graph "A" builtin_nodes) !! "A" = Some (Fin 0) ∧
    dist s !! "A" = Some (Fin 0) ∧
    dist s' !! "A" = Some (Fin 0).
Proof.
  intros s. eexists. split; [vm_compute; reflexivity|].
  apply (C3_distances_monotone builtin_graph "A" "G" lin 0 builtin_nodes 3 s).
  - exact builtin_well_formed.
  - exact builtin_set_order.
  - apply run_begin.
  - vm_compute. reflexivity.
Defined.

(** C4.  [start] guards on [is_running] only.  Pressed while Running it
    changes nothing; pressed once the built-in run (heap mode) has Finished
    it is not rejected: it pushes [(0, A)] on the queue, sets [is_running]
    while [is_finished] stays set, and overwrites the start time and the
    status label. *)
Theorem C4_start_after_finished :
  ∃ s, builtin_run heap 0 builtin_nodes = Some s ∧
       is_running s = false ∧ is_finished s = true ∧
       let s' := start "A" heap 9 s in
       s' ≠ s ∧
       is_running s' = true ∧ is_finished s' = true ∧
       pq s = [(Fin 7, "F")] ∧ pq s' = [(Fin 0, "A"); (Fin 7, "F")] ∧
       start_time s = 0 ∧ start_time s' = 9 ∧
       status_label s = "Path found!" ∧
       status_label s' = "Running... Press Step to continue.".
Proof.
  eexists. split; [vm_compute; reflexivity|].
  split; [reflexivity|]. split; [reflexivity|].
  split; [|by repeat split].
  intros Heq. apply (f_equal is_running) in Heq. discriminate Heq.
Qed.

(** C5.  [step] on an engine that is not running or is finished returns
    without raising and leaves every field of the state as it was.  (Every
    path through the Python method returns [None]; the model has no other
    result than the state.) *)
Theorem C5_step_inert (graph : Graph) (end_node : string) (algo : Algo)
    (s : Engine) :
  is_running s = false ∨ is_finished s = true →
  step graph end_node algo s = Some s.
Proof.
  unfold step. intros [Hidle | Hdone].
  - by rewrite Hidle.
  - rewrite Hdone. by destruct (is_running s).
Qed.

Lemma C5_step_inert_witness :
  (is_running (reset builtin_graph "A" builtin_nodes) = false ∨
   is_finished (reset builtin_graph "A" builtin_nodes) = true) ∧
  step builtin_graph "G" heap (reset builtin_graph "A" builtin_nodes)
  = Some (reset builtin_graph "A" builtin_nodes).
Proof.
  split; [left; reflexivity|].
  apply (C5_step_inert builtin_graph "G" heap
           (reset builtin_graph "A" builtin_nodes)).
  left. reflexivity.
Defined.

(** C6.  When no walk leads from the start to the end node, the engine, in
    either mode, is Finished after at most [size graph] presses of Step, by
    a call in which [select] finds no candidate: in heap mode the queue is
    then empty, in linear-scan mode every node left in [unvisited] is at
    infinite distance.  [dist[end_node]] is still infinite and the status
    label reads that the target is unreachable.  The finishing call
    returns.  An earlier call raises when a weight does not convert to a
    float (the next press carries on from what it left); when every weight
    converts no call raises, and the run is the run of [run]. *)
Theorem C6_unreachable_target (graph : Graph) (start_node end_node : string)
    (algo : Algo) (now : Z) (order : list string) :
  well_formed graph start_node end_node → set_order graph order →
  (∀ z, ¬ walk graph start_node end_node z) →
  let s0 := start start_node algo now (reset graph start_node order) in
  ∃ k s1 s',
    (k < size graph)%nat ∧
    running (presses graph end_node algo k s0) ∧
    select algo (presses graph end_node algo k s0) = Some (NoCandidate s1) ∧
    step graph end_node algo (presses graph end_node algo k s0) = Some s' ∧
    presses graph end_node algo (S k) s0 = s' ∧
    is_finished s' = true ∧ is_running s' = false ∧
    dist s' !! end_node = Some Inf ∧
    status_label s' = "Target is unreachable." ∧
    match algo with
    | heap => pq s' = []
    | lin => ∀ y, y ∈ unvisited s' → dist s' !! y = Some Inf
    end ∧
    (float_weights graph →
     steps graph end_node algo k s0
     = Some (presses graph end_node algo k s0) ∧
     run graph end_node algo (size graph) s0 = Some s').
Proof.
  intros Hwf Hord Hno s0.
  pose proof (state_inv_begin graph start_node end_node order now Hwf Hord algo)
    as Hinv0. fold s0 in Hinv0.
  destruct (presses_finish graph start_node end_node order Hwf Hord algo
              (size graph) s0 Hinv0)
    as (k & Hk & Hall & Hf' & Hr'); [done | by unfold s0; rewrite begin_size |].
  set (sk := presses graph end_node algo k s0) in *.
  assert (running sk) as Hrk by (by apply Hall).
  pose proof (presses_inv graph start_node end_node order Hwf Hord algo k s0 Hinv0)
    as Hinv. fold sk in Hinv.
  rewrite presses_snoc in Hf', Hr'. fold sk in Hf', Hr'.
  pose proof Hinv as (Hb & Hfr & _).
  assert (∀ d, dist sk !! end_node = Some d → d = Inf) as Hinf.
  { intros d Hd. destruct (decide (d = Inf)) as [|Hne]; [done|].
    destruct (bi_reach _ _ _ Hb _ _ Hd Hne) as [z Hz]. by apply Hno in Hz. }
  destruct (step_state_cases graph start_node end_node Hwf algo sk Hinv Hrk)
    as [(s1 & s' & Hsel & Hfin & Hstep)
       |[(d & s1 & s' & Hsel & Hfin & Hstep)
        |(d & u & s1 & edges & Hsel & Hne & Hg & _ & Hst)]].
  - exists k, s1, s'.
    pose proof (step_returned _ _ _ _ _ Hstep) as Hss.
    pose proof (select_frame _ _ _ Hsel) as (Hd1 & _). simpl in Hd1.
    destruct (finish_spec _ _ _ Hfin)
      as ((Hd' & _ & _ & Hu' & Hq' & _) & Hr1 & Hf1 & d & Hd & Hlab).
    rewrite Hd1 in Hd. pose proof (Hinf _ Hd) as ->.
    assert (presses graph end_node algo (S k) s0 = s') as Hps.
    { rewrite presses_snoc. exact Hss. }
    split_and!; try done.
    + by rewrite Hd', Hd1.
    + destruct algo.
      * apply select_heap_none in Hsel as [_ ->]. by rewrite Hq'.
      * apply select_lin_none in Hsel as [-> Hcase].
        intros y. rewrite Hu', Hd'.
        destruct Hcase as [->|(_ & _ & _ & Hallinf)]; [by intros ?%elem_of_nil|].
        apply Hallinf.
    + intros Hfw. split.
      * by apply (steps_total graph start_node end_node order Hwf Hord).
      * rewrite <- Hps.
        apply (run_presses graph start_node end_node order Hwf Hord);
          [done | done | | by rewrite Hps | done].
        intros j Hj. by destruct (Hall j Hj).
  - pose proof (select_spec _ _ _ _ _ _ Hinv Hrk Hsel) as (_ & _ & Hdne & Hu & _).
    by specialize (Hinf _ Hu).
  - rewrite Hst in Hf'.
    destruct (relax_state_frame algo u d edges (settle u s1))
      as (_ & _ & _ & _ & Hfs & _).
    pose proof (select_frame _ _ _ Hsel) as (_ & _ & _ & _ & _ & Hf1 & _).
    simpl in *. destruct Hrk. congruence.
Qed.

Lemma C6_unreachable_target_witness :
  well_formed island_graph "A" "G" ∧ set_order island_graph builtin_nodes ∧
  (∀ z, ¬ walk island_graph "A" "G" z) ∧
  let s0 := start "A" lin 0 (reset island_graph "A" builtin_nodes) in
  ∃ k s1 s',
    (k < size island_graph)%nat ∧
    running (presses island_graph "G" lin k s0) ∧
    select lin (presses island_graph "G" lin k s0) = Some (NoCandidate s1) ∧
    step island_graph "G" lin (presses island_graph "G" lin k s0) = Some s' ∧
    presses island_graph "G" lin (S k) s0 = s' ∧
    is_finished s' = true ∧ is_running s' = false ∧
    dist s' !! "G" = Some Inf ∧
    status_label s' = "Target is unreachable." ∧
    (∀ y, y ∈ unvisited s' → dist s' !! y = Some Inf) ∧
    (float_weights island_graph →
     steps island_graph "G" lin k s0
     = Some (presses island_graph "G" lin k s0) ∧
     run island_graph "G" lin (size island_graph) s0 = Some s').
Proof.
  split; [exact island_well_formed|].
  split; [exact island_set_order|].
  split; [exact island_unreachable|].
  exact (C6_unreachable_target island_graph "A" "G" lin 0 builtin_nodes
           island_well_formed island_set_order island_unreachable).
Defined.

(** C7.  From the state [start] makes of a fresh [reset], the engine is
    Finished after at most [size graph] presses of Step, in either mode,
    whether or not a call raises on the way; when every weight converts to
    a float no call raises. *)
Theorem C7_finishes_within_size (graph : Graph) (start_node end_node : string)
    (algo : Algo) (now : Z) (order : list string) :
  well_formed graph start_node end_node → set_order graph order →
  let s0 := start start_node algo now (reset graph start_node order) in
  ∃ k,
    (k ≤ size graph)%nat ∧
    is_finished (presses graph end_node algo k s0) = true ∧
    is_running (presses graph end_node algo k s0) = false ∧
    (float_weights graph →
     steps graph end_node algo k s0
     = Some (presses graph end_node algo k s0)).
Proof.
  intros Hwf Hord s0.
  pose proof (state_inv_begin graph start_node end_node order now Hwf Hord algo)
    as Hinv0. fold s0 in Hinv0.
  destruct (presses_finish graph start_node end_node order Hwf Hord algo
              (size graph) s0 Hinv0)
    as (k & Hk & Hall & Hf' & Hr'); [done | by unfold s0; rewrite begin_size |].
  exists (S k). split_and!; [lia | done | done |].
  intros Hfw. by apply (steps_total graph start_node end_node order Hwf Hord).
Qed.

Lemma C7_finishes_within_size_witness :
  well_formed builtin_graph "A" "G" ∧ set_order builtin_graph builtin_nodes ∧
  let s0 := start "A" heap 0 (reset builtin_graph "A" builtin_nodes) in
  ∃ k,
    (k ≤ size builtin_graph)%nat ∧
    is_finished (presses builtin_graph "G" heap k s0) = true ∧
    is_running (presses builtin_graph "G" heap k s0) = false ∧
    (float_weights builtin_graph →
     steps builtin_graph "G" heap k s0
     = Some (presses builtin_graph "G" heap k s0)).
Proof.
  split; [exact builtin_well_formed|].
  split; [exact builtin_set_order|].
  exact (C7_finishes_within_size builtin_graph "A" "G" heap 0 builtin_nodes
           builtin_well_formed builtin_set_order).
Defined.




(** C9.  In a run in heap mode, when [select] pops a fresh entry [(d, u)]
    from the queue of a Running engine, [u] is not yet visited and [d] is
    [dist[u]]. *)
Theorem C9_popped_priority_is_distance (graph : Graph)
    (start_node end_node : string) (now : Z) (order : list string)
    (s s1 : Engine) (d : Dist) (u : string) :
  well_formed graph start_node end_node → set_order graph order →
  run_state graph start_node end_node heap now order s → running s →
  select heap s = Some (Candidate d u s1) →
  (u ∉ visited s) ∧ dist s !! u = Some d.
Proof.
  intros Hwf Hord Hrs Hrun Hsel.
  pose proof (run_state_inv _ _ _ _ _ Hwf Hord _ _ Hrs) as (_ & Hfr & _).
  destruct (select_heap_min _ _ _ _ (Hfr Hrun) Hsel) as (? & ? & _). done.
Qed.

Lemma C9_popped_priority_is_distance_witness :
  let s := start "A" heap 0 (reset builtin_graph "A" builtin_nodes) in
  well_formed builtin_graph "A" "G" ∧ set_order builtin_graph builtin_nodes ∧
  running s ∧
  select heap s = Some (Candidate (Fin 0) "A" (with_pq [] s)) ∧
  ("A" ∉ visited s) ∧ dist s !! "A" = Some (Fin 0).
Proof.
  intros s.
  split; [exact builtin_well_formed|].
  split; [exact builtin_set_order|].
  split; [split; reflexivity|].
  split; [reflexivity|].
  apply (C9_popped_priority_is_distance builtin_graph "A" "G" 0 builtin_nodes
           s (with_pq [] s) (Fin 0) "A").
  - exact builtin_well_formed.
  - exact builtin_set_order.
  - apply run_begin.
  - split; reflexivity.
  - reflexivity.
Defined.

(** C10.  In linear-scan mode [visited] and [unvisited] partition the nodes
    after [reset] and in every state of a run.  In heap mode neither [start]
    nor [step] writes [unvisited], and [step] does not read it: run on a
    state with another [unvisited], it does the same and leaves that
    [unvisited] in place. *)
Theorem C10_unvisited_partition (graph : Graph) (start_node end_node : string)
    (now : Z) (order : list string) :
  well_formed graph start_node end_node → set_order graph order →
  partition graph (reset graph start_node order) ∧
  (∀ s, run_state graph start_node end_node lin now order s →
        partition graph s) ∧
  (∀ t s, unvisited (start start_node heap t s) = unvisited s) ∧
  (∀ s s', step graph end_node heap s = Some s' → unvisited s' = unvisited s) ∧
  (∀ l s, step graph end_node heap (with_unvisited l s)
          = with_unvisited l <$> step graph end_node heap s).
Proof.
  intros Hwf Hord.
  assert (∀ s, basic_inv graph start_node s ∨ visited s = ∅ →
               lin_inv graph s → partition graph s) as Hpart.
  { intros s Hb [Hnd Hp]. split_and!; [done | |].
    - intros v Hv. apply Hp in Hv. tauto.
    - intros v. split.
      + intros Hv. destruct (decide (v ∈ visited s)); [by left|].
        right. by apply Hp.
      + intros [Hv|Hv]; [|apply Hp in Hv; tauto].
        destruct Hb as [Hb|He]; [by apply (bi_visited _ _ _ Hb)|].
        rewrite He in Hv. set_solver. }
  split_and!.
  - apply Hpart; [by right|]. by apply lin_inv_reset.
  - intros s Hrs.
    pose proof (run_state_inv _ _ _ _ _ Hwf Hord _ _ Hrs) as (Hb & Hfr & _).
    apply Hpart; [by left | done].
  - intros t s. apply start_unvisited.
  - intros s s'. apply step_heap_unvisited_same.
  - intros l s. apply step_heap_unvisited.
Qed.

Lemma C10_unvisited_partition_witness :
  well_formed builtin_graph "A" "G" ∧ set_order builtin_graph builtin_nodes ∧
  partition builtin_graph (reset builtin_graph "A" builtin_nodes) ∧
  (∀ s, run_state builtin_graph "A" "G" lin 0 builtin_nodes s →
        partition builtin_graph s) ∧
  (∀ t s, unvisited (start "A" heap t s) = unvisited s) ∧
  (∀ s s', step builtin_graph "G" heap s = Some s' → unvisited s' = unvisited s) ∧
  (∀ l s, step builtin_graph "G" heap (with_unvisited l s)
          = with_unvisited l <$> step builtin_graph "G" heap s).
Proof.
  split; [exact builtin_well_formed|].
  split; [exact builtin_set_order|].
  exact (C10_unvisited_partition builtin_graph "A" "G" 0 builtin_nodes
           builtin_well_formed builtin_set_order).
Defined.

(** * Further properties, one theorem each *)

(** X1.  A call of [step] by a Running engine either finishes the run
    without settling a node, or settles exactly one node that was not
    settled before: [visited] grows by that node, which becomes
    [current_node], and the run finishes with this step exactly when the
    node is the end node. *)
Theorem X1_visited_grows_by_one (graph : Graph) (start_node end_node : string)
    (algo : Algo) (now : Z) (order : list string) (s s' : Engine) :
  well_formed graph start_node end_node → set_order graph order →
  run_state graph start_node end_node algo now order s → running s →
  step graph end_node algo s = Some s' →
  (visited s' = visited s ∧ current_node s' = current_node s ∧
   is_finished s' = true) ∨
  (∃ u, u ∈ dom graph ∧ (u ∉ visited s) ∧
        visited s' = {[u]} ∪ visited s ∧
        size (visited s') = S (size (visited s)) ∧
        current_node s' = Some u ∧
        (is_finished s' = true ↔ u = end_node)).
Proof.
  intros Hwf Hord Hrs Hrun Hstep.
  pose proof (run_state_inv _ _ _ _ _ Hwf Hord _ _ Hrs) as Hinv.
  pose proof Hinv as (Hb & _).
  assert (∀ u d, (u ∉ visited s) → dist s !! u = Some d →
            u ∈ dom graph ∧
            size ({[u]} ∪ visited s) = S (size (visited s))) as Hnew.
  { intros u d Hnu Hu. split.
    - rewrite <- (bi_dom_dist _ _ _ Hb). by apply elem_of_dom.
    - rewrite size_union, size_singleton; [done|]. set_solver. }
  step_analysis Hrun Hstep.
  - left. pose proof (select_frame _ _ _ Hsel) as (_ & _ & Hv & Hc & _).
    destruct (finish_spec _ _ _ Hfin)
      as ((_ & _ & Hv' & _ & _ & Hc' & _) & _ & Hf & _).
    simpl in *. split_and!; congruence.
  - right. exists end_node.
    pose proof (select_spec _ _ _ _ _ _ Hinv Hrun Hsel)
      as ((_ & _ & Hv & _) & Hnv & _ & Hu & _).
    destruct (finish_spec _ _ _ Hfin)
      as ((_ & _ & Hv' & _ & _ & Hc' & _) & _ & Hf & _).
    simpl in *. destruct (Hnew _ _ Hnv Hu) as [Hdom Hsize].
    rewrite Hv', Hv. split_and!; try done.
  - right. exists u.
    pose proof (select_spec _ _ _ _ _ _ Hinv Hrun Hsel)
      as ((_ & _ & Hv & _ & _ & Hf1 & _) & Hnv & _ & Hu & _).
    destruct (relax_frame _ _ _ _ _ _ Hr) as (Hv' & _ & Hc' & _ & Hf' & _).
    simpl in *. destruct (Hnew _ _ Hnv Hu) as [Hdom Hsize].
    rewrite Hv', Hv. split_and!; try done.
    destruct Hrun as [_ Hnf]. split; [congruence | done].
Qed.

Lemma X1_visited_grows_by_one_witness :
  let s := start "A" heap 0 (reset builtin_graph "A" builtin_nodes) in
  ∃ s', step builtin_graph "G" heap s = Some s' ∧
    ((visited s' = visited s ∧ current_node s' = current_node s ∧
      is_finished s' = true) ∨
     (∃ u, u ∈ dom builtin_graph ∧ (u ∉ visited s) ∧
           visited s' = {[u]} ∪ visited s ∧
           size (visited s') = S (size (visited s)) ∧
           current_node s' = Some u ∧
           (is_finished s' = true ↔ u = "G"))).
Proof.
  intros s. eexists. split; [vm_compute; reflexivity|].
  apply (X1_visited_grows_by_one builtin_graph "A" "G" heap 0 builtin_nodes s).
  - exact builtin_well_formed.
  - exact builtin_set_order.
  - apply run_begin.
  - split; reflexivity.
  - vm_compute. reflexivity.
Defined.

(** X2.  On a well-formed graph whose weights all convert to floats no
    call of [step] in a run raises [KeyError], [TypeError] or
    [OverflowError] at a lookup, a comparison or a sum of [step] or
    [_finish], however often Step is pressed: from every state of a run,
    [k] calls return a state, which is again a state of the run.  When the
    weights are non-negative as well, no distance and no priority in that
    state is negative or [-inf], so that the [int(...)] that [_redraw] takes
    of them at the end of the call is defined.  (The drawing itself is not
    part of the model.) *)
Theorem X2_step_never_raises (graph : Graph) (start_node end_node : string)
    (algo : Algo) (now : Z) (order : list string) (k : nat) (s : Engine) :
  well_formed graph start_node end_node → float_weights graph →
  set_order graph order →
  run_state graph start_node end_node algo now order s →
  ∃ s', steps graph end_node algo k s = Some s' ∧
        run_state graph start_node end_node algo now order s' ∧
        (nonneg graph → nonneg_dists s').
Proof.
  intros Hwf Hfw Hord. revert s. induction k as [|k IH]; intros s Hrs.
  - exists s. split_and!; [done | done |].
    intros Hnn. by eapply run_state_nonneg_dists.
  - pose proof (run_state_inv _ _ _ _ _ Hwf Hord _ _ Hrs) as Hinv.
    destruct (step_total _ _ _ Hwf _ _ Hfw Hinv) as [s1 Hs1].
    destruct (IH s1) as (s' & Hk & Hrs'); [by econstructor|].
    exists s'. split; [|done]. simpl. by rewrite Hs1.
Qed.

Lemma X2_step_never_raises_witness :
  well_formed builtin_graph "A" "G" ∧ float_weights builtin_graph ∧
  set_order builtin_graph builtin_nodes ∧
  ∃ s', steps builtin_graph "G" lin 20
          (start "A" lin 0 (reset builtin_graph "A" builtin_nodes)) = Some s' ∧
        run_state builtin_graph "A" "G" lin 0 builtin_nodes s' ∧
        (nonneg builtin_graph → nonneg_dists s').
Proof.
  split; [exact builtin_well_formed|].
  split; [exact builtin_float_weights|].
  split; [exact builtin_set_order|].
  apply (X2_step_never_raises builtin_graph "A" "G" lin 0 builtin_nodes 20).
  - exact builtin_well_formed.
  - exact builtin_float_weights.
  - exact builtin_set_order.
  - apply run_begin.
Defined.

(** X3.  The relaxation loop raises exactly when the adjacency list has an
    entry for a neighbour that is not settled and either its weight does
    not convert to a float ([OverflowError] at [dist_u + weight]) or the
    neighbour is not a key of [dist] ([KeyError]); an entry for a neighbour
    that is already in [visited] is skipped before the sum and the
    lookup. *)
Theorem X3_relax_raises_iff (algo : Algo) (u : string) (du : Dist)
    (edges : list (string * Z)) (s : Engine) :
  relax algo u du edges s = None ↔
  ∃ v w, (v, w) ∈ edges ∧ (v ∉ visited s) ∧
         (float_of_int w = None ∨ dist s !! v = None).
Proof.
  revert s. induction edges as [|[nbr w0] edges IH]; intros s; simpl.
  - split; [done|]. intros (v & w & Hin & _). by apply elem_of_nil in Hin.
  - destruct (decide (nbr ∈ visited s)) as [Hvis|Hvis].
    + rewrite IH. split.
      * intros (v & w & Hin & Hv & Hd). exists v, w. split; [by right | done].
      * intros (v & w & Hin & Hv & Hd). exists v, w.
        apply elem_of_cons in Hin as [[= -> ->]|Hin]; [done | done].
    + destruct (dist_add du w0) as [nd|] eqn:Hnd; simpl; cycle 1.
      { split; [|done]. intros _. exists nbr, w0.
        split_and!; [by left | done |]. left. by apply (dist_add_None du). }
      destruct (dist s !! nbr) as [d|] eqn:Hd; simpl; cycle 1.
      { split; [|done]. intros _. exists nbr, w0.
        split_and!; [by left | done | by right]. }
      assert (float_of_int w0 ≠ None) as Hw0.
      { intros Hn. apply (dist_add_None du) in Hn. congruence. }
      assert (∀ s0, visited s0 = visited s →
                (∀ v, dist s0 !! v = None ↔ dist s !! v = None) →
                relax algo u du edges s0 = None ↔
                ∃ v w, (v, w) ∈ (nbr, w0) :: edges ∧ (v ∉ visited s) ∧
                       (float_of_int w = None ∨ dist s !! v = None)) as Hgen.
      { intros s0 Hv0 Hd0. rewrite IH. split.
        - intros (v & w & Hin & Hv & Hdv). exists v, w.
          split; [by right|]. rewrite <- Hv0, <- Hd0. done.
        - intros (v & w & Hin & Hv & Hdv). exists v, w.
          apply elem_of_cons in Hin as [[= -> ->]|Hin].
          + destruct Hdv; congruence.
          + rewrite Hv0, Hd0. done. }
      destruct (dist_ltb nd d); apply Hgen; try done.
      intros v. simpl. rewrite lookup_insert_None. split; [tauto|].
      intros Hn. split; [done | congruence].
Qed.

(** X4.  With non-negative weights whose sums are exact in floats, the
    distance of every settled node is exact in every state of a run: it is
    the weight of a walk from the start node, and no walk to the node is
    lighter. *)
Theorem X4_settled_distances_exact (graph : Graph)
    (start_node end_node : string) (algo : Algo) (now : Z)
    (order : list string) (s : Engine) (v : string) :
  well_formed graph start_node end_node → nonneg graph → exact_sums graph →
  set_order graph order →
  run_state graph start_node end_node algo now order s →
  v ∈ visited s →
  ∃ z, dist s !! v = Some (Fin z) ∧ walk graph start_node v z ∧
       ∀ z', walk graph start_node v z' → z <= z'.
Proof.
  intros Hwf Hnn Hex Hord Hrs Hv.
  destruct (run_state_exact _ _ _ _ _ Hwf Hord Hnn Hex _ _ Hrs v Hv)
    as (d & Hd & Hl).
  destruct d as [z| |]; simpl in Hl; [|exfalso|done].
  - exists z. tauto.
  - pose proof (run_state_inv _ _ _ _ _ Hwf Hord _ _ Hrs) as (Hb & _).
    destruct (bi_visited_fin _ _ _ Hb v Hv) as (d & Hd' & Hne). congruence.
Qed.

Lemma X4_settled_distances_exact_witness :
  let s0 := start "A" heap 0 (reset builtin_graph "A" builtin_nodes) in
  ∃ s, steps builtin_graph "G" heap 3 s0 = Some s ∧
       "D" ∈ visited s ∧
       ∃ z, dist s !! "D" = Some (Fin z) ∧ walk builtin_graph "A" "D" z ∧
            ∀ z', walk builtin_graph "A" "D" z' → z <= z'.
Proof.
  intros s0.
  destruct (steps builtin_graph "G" heap 3 s0) as [s|] eqn:Hs;
    [|vm_compute in Hs; discriminate Hs].
  exists s.
  assert ("D" ∈ visited s) as Hin.
  { assert (from_option (λ s1, bool_decide ("D" ∈ visited s1)) false
              (steps builtin_graph "G" heap 3 s0) = true) as Hv
      by (vm_compute; reflexivity).
    rewrite Hs in Hv. simpl in Hv. by apply bool_decide_eq_true in Hv. }
  split; [reflexivity|]. split; [exact Hin|].
  apply (X4_settled_distances_exact builtin_graph "A" "G" heap 0 builtin_nodes
           s "D" builtin_well_formed builtin_nonneg builtin_exact_sums
           builtin_set_order).
  - exact (steps_run_state builtin_graph "A" "G" heap 0 builtin_nodes 3 s0 s
             (run_begin builtin_graph "A" "G" heap 0 builtin_nodes) Hs).
  - exact Hin.
Defined.

(** X5.  Dijkstra's invariant.  With non-negative weights whose sums are
    exact in floats, in every Running state of a run no settled node is
    farther from the start than a node that is still open (so nodes are
    settled in non-decreasing order of distance), and every edge out of a
    settled node is relaxed: [dist[v] <= dist[u] + w]. *)
Theorem X5_dijkstra_invariant (graph : Graph) (start_node end_node : string)
    (algo : Algo) (now : Z) (order : list string) (s : Engine) :
  well_formed graph start_node end_node → nonneg graph → exact_sums graph →
  set_order graph order →
  run_state graph start_node end_node algo now order s → running s →
  (∀ x y dx dy, x ∈ visited s → y ∉ visited s →
     dist s !! x = Some dx → dist s !! y = Some dy → dist_le dx dy) ∧
  (∀ u v w, u ∈ visited s → edge graph u v w →
     ∃ zu dv, dist s !! u = Some (Fin zu) ∧ dist s !! v = Some dv ∧
              dist_le dv (Fin (zu + w))).
Proof.
  intros Hwf Hnn Hex Hord Hrs Hrun.
  destruct (run_state_opt _ _ _ _ _ Hwf Hord Hnn Hex _ _ Hrs Hrun) as [Hrel Hmono].
  split; [exact Hmono|].
  intros u v w Hu Hedge.
  pose proof (run_state_inv _ _ _ _ _ Hwf Hord _ _ Hrs) as (Hb & _).
  pose proof (run_state_exact_inv _ _ _ _ _ Hwf Hord Hex _ _ Hrs) as He.
  destruct (bi_visited_fin _ _ _ Hb u Hu) as (du & Hdu & Hne).
  destruct (ei_fin _ _ _ He _ _ Hdu Hne) as [zu ->].
  destruct (Hrel _ _ _ _ Hu Hedge Hdu) as (dv & Hdv & Hle).
  by exists zu, dv.
Qed.

Lemma X5_dijkstra_invariant_witness :
  let s0 := start "A" lin 0 (reset builtin_graph "A" builtin_nodes) in
  ∃ s, steps builtin_graph "G" lin 2 s0 = Some s ∧ running s ∧
    (∀ x y dx dy, x ∈ visited s → y ∉ visited s →
       dist s !! x = Some dx → dist s !! y = Some dy → dist_le dx dy) ∧
    (∀ u v w, u ∈ visited s → edge builtin_graph u v w →
       ∃ zu dv, dist s !! u = Some (Fin zu) ∧ dist s !! v = Some dv ∧
                dist_le dv (Fin (zu + w))).
Proof.
  intros s0.
  destruct (steps builtin_graph "G" lin 2 s0) as [s|] eqn:Hs;
    [|vm_compute in Hs; discriminate Hs].
  exists s.
  assert (running s) as Hrun.
  { assert (from_option (λ s1, bool_decide (running s1)) false
              (steps builtin_graph "G" lin 2 s0) = true) as Hv
      by (vm_compute; reflexivity).
    rewrite Hs in Hv. simpl in Hv. by apply bool_decide_eq_true in Hv. }
  split; [reflexivity|]. split; [exact Hrun|].
  apply (X5_dijkstra_invariant builtin_graph "A" "G" lin 0 builtin_nodes s
           builtin_well_formed builtin_nonneg builtin_exact_sums
           builtin_set_order).
  - exact (steps_run_state builtin_graph "A" "G" lin 0 builtin_nodes 2 s0 s
             (run_begin builtin_graph "A" "G" lin 0 builtin_nodes) Hs).
  - exact Hrun.
Defined.

(** X6.  [prev] moves in lockstep with [dist]: in every state of a run the
    start node has no predecessor; the predecessor [u] of a node [v] is a
    settled node joined to it by an edge [w] of the graph, and [dist[v]] is
    the float sum [dist[u] + w]; and a node without predecessor is the
    start node or at infinite distance.  When the sums are exact in floats
    both distances are integers and the weight of the edge is their
    difference. *)
Theorem X6_predecessors_in_lockstep (graph : Graph)
    (start_node end_node : string) (algo : Algo) (now : Z)
    (order : list string) (s : Engine) :
  well_formed graph start_node end_node → set_order graph order →
  run_state graph start_node end_node algo now order s →
  prev s !! start_node = Some None ∧
  (∀ v u, prev s !! v = Some (Some u) →
     ∃ d du w, dist s !! v = Some d ∧ d ≠ Inf ∧ u ∈ visited s ∧
               edge graph u v w ∧ dist s !! u = Some du ∧
               dist_add du w = Some d) ∧
  (∀ v, prev s !! v = Some None →
     v = start_node ∨ dist s !! v = Some Inf) ∧
  (exact_sums graph →
   ∀ v u, prev s !! v = Some (Some u) →
     ∃ z zu w, dist s !! v = Some (Fin z) ∧ u ∈ visited s ∧
               edge graph u v w ∧ dist s !! u = Some (Fin zu) ∧
               z = zu + w).
Proof.
  intros Hwf Hord Hrs.
  destruct (run_state_pred _ _ _ _ _ Hwf Hord _ _ Hrs) as [H1 H2 H3].
  split_and!; [done | done | done |].
  intros Hex. exact (run_state_pred_exact _ _ _ _ _ Hwf Hord Hex _ _ Hrs).
Qed.

Lemma X6_predecessors_in_lockstep_witness :
  let s0 := start "A" heap 0 (reset builtin_graph "A" builtin_nodes) in
  ∃ s, steps builtin_graph "G" heap 4 s0 = Some s ∧
    prev s !! "A" = Some None ∧
    (∀ v u, prev s !! v = Some (Some u) →
       ∃ d du w, dist s !! v = Some d ∧ d ≠ Inf ∧ u ∈ visited s ∧
                 edge builtin_graph u v w ∧ dist s !! u = Some du ∧
                 dist_add du w = Some d) ∧
    (∀ v, prev s !! v = Some None → v = "A" ∨ dist s !! v = Some Inf) ∧
    (exact_sums builtin_graph →
     ∀ v u, prev s !! v = Some (Some u) →
       ∃ z zu w, dist s !! v = Some (Fin z) ∧ u ∈ visited s ∧
                 edge builtin_graph u v w ∧ dist s !! u = Some (Fin zu) ∧
                 z = zu + w).
Proof.
  intros s0.
  destruct (steps builtin_graph "G" heap 4 s0) as [s|] eqn:Hs;
    [|vm_compute in Hs; discriminate Hs].
  exists s. split; [reflexivity|].
  apply (X6_predecessors_in_lockstep builtin_graph "A" "G" heap 0 builtin_nodes
           s builtin_well_formed builtin_set_order).
  exact (steps_run_state builtin_graph "A" "G" heap 0 builtin_nodes 4 s0 s
           (run_begin builtin_graph "A" "G" heap 0 builtin_nodes) Hs).
Defined.

(** X7.  The path [_redraw] highlights after a run is a shortest path.  On a
    graph with non-negative weights whose sums are exact in floats and
    without a node named by the empty string, when the run ends with
    [dist[end_node]] finite, the highlighted nodes are distinct, begin at
    the start node and end at the end node, each is joined to the next by an
    edge of the graph, the weights of these edges add up to
    [dist[end_node]], and no walk from start to end is lighter. *)
Theorem X7_highlighted_path_is_shortest (graph : Graph)
    (start_node end_node : string) (algo : Algo) (now : Z)
    (order : list string) (s' : Engine) (z : Z) :
  well_formed graph start_node end_node → nonneg graph → exact_sums graph →
  set_order graph order →
  (∀ v, v ∈ dom graph → v ≠ "") →
  run graph end_node algo (size graph)
    (start start_node algo now (reset graph start_node order)) = Some s' →
  dist s' !! end_node = Some (Fin z) →
  ∃ l, shown_path end_node (size graph) s' = Some (ShownPath (Walked l)) ∧
       head l = Some start_node ∧ last l = Some end_node ∧ NoDup l ∧
       path_walk graph l z ∧
       ∀ z', walk graph start_node end_node z' → z <= z'.
Proof.
  intros Hwf Hnn Hex Hord Hnames Hrun Hz.
  destruct (shown_path_cost _ _ _ _ _ Hwf Hord Hex _ _ _ Hnames Hrun Hz)
    as (l & Hshown & Hh & Hl & Hnd & Hpw).
  exists l. split_and!; try done.
  destruct (run_lightest _ _ _ _ now Hwf Hord Hnn Hex algo)
    as (s2 & Hrun2 & _ & _ & d & Hd & Hlight & _).
  assert (s2 = s') as -> by congruence.
  assert (d = Fin z) as -> by congruence.
  by destruct Hlight.
Qed.

Lemma X7_highlighted_path_is_shortest_witness :
  let s0 := start "A" lin 0 (reset builtin_graph "A" builtin_nodes) in
  ∃ s', run builtin_graph "G" lin (size builtin_graph) s0 = Some s' ∧
    dist s' !! "G" = Some (Fin 6) ∧
    ∃ l, shown_path "G" (size builtin_graph) s' = Some (ShownPath (Walked l)) ∧
         head l = Some "A" ∧ last l = Some "G" ∧ NoDup l ∧
         path_walk builtin_graph l 6 ∧
         ∀ z', walk builtin_graph "A" "G" z' → 6 <= z'.
Proof.
  intros s0.
  destruct (run builtin_graph "G" lin (size builtin_graph) s0) as [s'|] eqn:Hs;
    [|vm_compute in Hs; discriminate Hs].
  exists s'.
  assert (dist s' !! "G" = Some (Fin 6)) as Hd.
  { assert (from_option (λ s1, bool_decide (dist s1 !! "G" = Some (Fin 6))) false
              (run builtin_graph "G" lin (size builtin_graph) s0) = true) as Hv
      by (vm_compute; reflexivity).
    rewrite Hs in Hv. simpl in Hv. by apply bool_decide_eq_true in Hv. }
  split; [reflexivity|]. split; [exact Hd|].
  apply (X7_highlighted_path_is_shortest builtin_graph "A" "G" lin 0
           builtin_nodes s' 6 builtin_well_formed builtin_nonneg
           builtin_exact_sums builtin_set_order).
  - exact builtin_no_blank.
  - exact Hs.
  - exact Hd.
Defined.

(** X8.  When the start node is also the end node, the first call of [step]
    finishes the run: the node is the only one settled, at distance 0, the
    verdict is that a path was found and, unless the node is named by the
    empty string, the highlighted path is that node alone. *)
Theorem X8_start_is_end (graph : Graph) (node : string) (algo : Algo)
    (now : Z) (order : list string) :
  well_formed graph node node → set_order graph order →
  ∃ s', step graph node algo
          (start node algo now (reset graph node order)) = Some s' ∧
        is_finished s' = true ∧ is_running s' = false ∧
        visited s' = {[node]} ∧ current_node s' = Some node ∧
        dist s' !! node = Some (Fin 0) ∧
        status_label s' = "Path found!" ∧
        (node ≠ "" → ∀ fuel, (1 ≤ fuel)%nat →
           shown_path node fuel s' = Some (ShownPath (Walked [node]))).
Proof.
  intros Hwf Hord.
  set (s0 := start node algo now (reset graph node order)).
  pose proof (state_inv_begin _ _ _ _ now Hwf Hord algo) as Hinv.
  fold s0 in Hinv.
  assert (running s0) as Hrun by done.
  pose proof Hinv as (Hb & _).
  pose proof (bi_start _ _ _ Hb) as Hs0.
  assert (visited s0 = ∅) as Hv0 by done.
  assert (prev s0 !! node = Some None) as Hp0.
  { by destruct (pred_inv_begin graph node node order now Hwf algo). }
  assert (∀ u d, dist s0 !! u = Some d → d ≠ Inf → u = node) as Honly.
  { intros u d Hu Hne. by apply init_dist_not_inf in Hu as [-> _]. }
  destruct (step_state_cases graph node node Hwf algo s0 Hinv Hrun)
    as [(s1 & s' & Hsel & Hfin & Hstep)
       |[(d & s1 & s' & Hsel & Hfin & Hstep)
        |(d & u & s1 & edges & Hsel & Hne & _)]].
  - pose proof (select_spec _ _ _ _ _ _ Hinv Hrun Hsel) as [_ Hex].
    assert (Fin 0 = Inf) as Habs; [|done].
    apply (Hex node); [rewrite Hv0; set_solver | done].
  - exists s'. split; [done|].
    pose proof (select_frame _ _ _ Hsel) as (Hd & Hp & Hv & _). simpl in *.
    destruct (finish_spec _ _ _ Hfin)
      as ((Hd' & Hp' & Hv' & _ & _ & Hc' & _) & Hr' & Hf' & d0 & Hd0 & Hst).
    simpl in *.
    assert (dist s' !! node = Some (Fin 0)) as Hdn by (by rewrite Hd', Hd).
    rewrite Hd in Hd0. assert (d0 = Fin 0) as -> by congruence.
    split_and!; try done.
    + rewrite Hv', Hv. simpl. set_solver.
    + intros Hne fuel Hfuel. unfold shown_path. rewrite Hdn. simpl.
      destruct fuel as [|k]; [lia|]. simpl.
      destruct (decide (node = "")); [done|].
      rewrite Hp', Hp, Hp0. by destruct k.
  - pose proof (select_spec _ _ _ _ _ _ Hinv Hrun Hsel)
      as (_ & _ & Hdne & Hu & _).
    by apply Honly in Hu.
Qed.

Lemma X8_start_is_end_witness :
  well_formed builtin_graph "C" "C" ∧ set_order builtin_graph builtin_nodes ∧
  ∃ s', step builtin_graph "C" heap
          (start "C" heap 0 (reset builtin_graph "C" builtin_nodes)) = Some s' ∧
        is_finished s' = true ∧ is_running s' = false ∧
        visited s' = {["C"]} ∧ current_node s' = Some "C" ∧
        dist s' !! "C" = Some (Fin 0) ∧
        status_label s' = "Path found!" ∧
        ("C" ≠ "" → ∀ fuel, (1 ≤ fuel)%nat →
           shown_path "C" fuel s' = Some (ShownPath (Walked ["C"]))).
Proof.
  assert (well_formed builtin_graph "C" "C") as Hwf
    by (split_and!; compute_done).
  split; [exact Hwf|].
  split; [exact builtin_set_order|].
  exact (X8_start_is_end builtin_graph "C" heap 0 builtin_nodes
           Hwf builtin_set_order).
Defined.

(** X9.  A run that ends without reaching the end node has explored the
    whole component of the start node: with non-negative weights whose sums
    are exact in floats, when the run ends with [dist[end_node]] infinite,
    the settled nodes are exactly the nodes that some walk from the start
    node reaches, and every other node of the graph is left at infinite
    distance. *)
Theorem X9_exhausted_run_settles_reachable (graph : Graph)
    (start_node end_node : string) (algo : Algo) (now : Z)
    (order : list string) (s' : Engine) :
  well_formed graph start_node end_node → nonneg graph → exact_sums graph →
  set_order graph order →
  run graph end_node algo (size graph)
    (start start_node algo now (reset graph start_node order)) = Some s' →
  dist s' !! end_node = Some Inf →
  (∀ v, v ∈ visited s' ↔ ∃ z, walk graph start_node v z) ∧
  (∀ v, v ∈ dom graph → v ∉ visited s' → dist s' !! v = Some Inf).
Proof.
  intros Hwf Hnn Hex Hord Hrun Hinf.
  exact (run_exhausted graph start_node end_node order now Hwf Hord Hnn Hex
           algo s' Hrun Hinf).
Qed.

Lemma X9_exhausted_run_settles_reachable_witness :
  let s0 := start "A" heap 0 (reset island_graph "A" builtin_nodes) in
  ∃ s', run island_graph "G" heap (size island_graph) s0 = Some s' ∧
    dist s' !! "G" = Some Inf ∧
    (∀ v, v ∈ visited s' ↔ ∃ z, walk island_graph "A" v z) ∧
    (∀ v, v ∈ dom island_graph → v ∉ visited s' → dist s' !! v = Some Inf).
Proof.
  intros s0.
  destruct (run island_graph "G" heap (size island_graph) s0) as [s'|] eqn:Hs;
    [|vm_compute in Hs; discriminate Hs].
  exists s'.
  assert (dist s' !! "G" = Some Inf) as Hd.
  { assert (from_option (λ s1, bool_decide (dist s1 !! "G" = Some Inf)) false
              (run island_graph "G" heap (size island_graph) s0) = true) as Hv
      by (vm_compute; reflexivity).
    rewrite Hs in Hv. simpl in Hv. by apply bool_decide_eq_true in Hv. }
  split; [reflexivity|]. split; [exact Hd|].
  exact (X9_exhausted_run_settles_reachable island_graph "A" "G" heap 0
           builtin_nodes s' island_well_formed island_nonneg
           island_exact_sums island_set_order Hs Hd).
Defined.

(** X10.  A run that stops on the end node has settled everything nearer.
    With non-negative weights whose sums are exact in floats, when the run
    ends with [dist[end_node]] finite, every node that a walk lighter than
    [dist[end_node]] reaches is settled, and no settled node is farther
    than the end node. *)
Theorem X10_nearer_nodes_settled (graph : Graph)
    (start_node end_node : string) (algo : Algo) (now : Z)
    (order : list string) (s' : Engine) (ze : Z) :
  well_formed graph start_node end_node → nonneg graph → exact_sums graph →
  set_order graph order →
  run graph end_node algo (size graph)
    (start start_node algo now (reset graph start_node order)) = Some s' →
  dist s' !! end_node = Some (Fin ze) →
  end_node ∈ visited s' ∧
  (∀ v z, walk graph start_node v z → z < ze → v ∈ visited s') ∧
  (∀ v, v ∈ visited s' → ∃ z, dist s' !! v = Some (Fin z) ∧ z <= ze).
Proof.
  intros Hwf Hnn Hex Hord Hrun Hze.
  exact (run_nearer graph start_node end_node order now Hwf Hord Hnn Hex
           algo s' ze Hrun Hze).
Qed.

Lemma X10_nearer_nodes_settled_witness :
  let s0 := start "A" lin 0 (reset builtin_graph "A" builtin_nodes) in
  ∃ s', run builtin_graph "G" lin (size builtin_graph) s0 = Some s' ∧
    dist s' !! "G" = Some (Fin 6) ∧
    "G" ∈ visited s' ∧
    (∀ v z, walk builtin_graph "A" v z → z < 6 → v ∈ visited s') ∧
    (∀ v, v ∈ visited s' → ∃ z, dist s' !! v = Some (Fin z) ∧ z <= 6).
Proof.
  intros s0.
  destruct (run builtin_graph "G" lin (size builtin_graph) s0) as [s'|] eqn:Hs;
    [|vm_compute in Hs; discriminate Hs].
  exists s'.
  assert (dist s' !! "G" = Some (Fin 6)) as Hd.
  { assert (from_option (λ s1, bool_decide (dist s1 !! "G" = Some (Fin 6))) false
              (run builtin_graph "G" lin (size builtin_graph) s0) = true) as Hv
      by (vm_compute; reflexivity).
    rewrite Hs in Hv. simpl in Hv. by apply bool_decide_eq_true in Hv. }
  split; [reflexivity|]. split; [exact Hd|].
  exact (X10_nearer_nodes_settled builtin_graph "A" "G" lin 0 builtin_nodes
           s' 6 builtin_well_formed builtin_nonneg builtin_exact_sums
           builtin_set_order Hs Hd).
Defined.

(** ** The queue and the current node along a run *)

Section Along.

Context (graph : Graph) (start_node end_node : string).
Context (order : list string) (now : Z).
Hypothesis Hwf : well_formed graph start_node end_node.
Hypothesis Horder : set_order graph order.

Lemma queue_real_relax algo s2 s' u du edges :
  queue_real graph start_node s2 → (∃ z, walk graph start_node u z) →
  graph !! u = Some edges →
  relax algo u du edges s2 = Some s' →
  queue_real graph start_node s'.
Proof using Type.
  intros Hq [zu Hwalk] Hg Hr.
  eapply (relax_ind (queue_real graph start_node)); [exact Hr | exact Hq |].
  intros s0 nbr w nd d0 Hq0 _ Hin Hnv Hnd Hd0 Hlt d v He. simpl in *.
  assert ((d, v) = (nd, nbr) ∨ (d, v) ∈ pq s0) as [[= -> ->]|Hold].
  { destruct algo; [by apply elem_of_heappush in He | by right]. }
  - split_and!.
    + by eapply dist_ltb_not_inf.
    + exists (zu + w). eapply walk_edge; [done|]. by exists edges.
    + exists nd. split; [apply lookup_insert_eq | apply dist_le_refl].
  - destruct (Hq0 _ _ Hold) as (Hne & Hw & dv & Hdv & Hle).
    split_and!; [done | done |].
    destruct (decide (nbr = v)) as [->|Hneq].
    + exists nd. split; [apply lookup_insert_eq|].
      assert (dv = d0) as -> by congruence.
      eapply dist_le_trans; [|exact Hle]. by apply dist_ltb_le.
    + exists dv. rewrite lookup_insert_ne by done. done.
Qed.

Lemma run_state_queue_real algo s :
  run_state graph start_node end_node algo now order s →
  queue_real graph start_node s.
Proof.
  induction 1 as [|s s' Hrs IH Hstep].
  - intros d v He. unfold start in He. simpl in He.
    assert ((d, v) = (Fin 0, start_node)) as [= -> ->].
    { destruct algo; simpl in He.
      - by apply list_elem_of_singleton in He.
      - by apply elem_of_nil in He. }
    split_and!; [done | exists 0; constructor |].
    exists (Fin 0). split; [|apply dist_le_refl].
    unfold start. simpl. apply lookup_insert_eq.
  - destruct (decide (running s)) as [Hrun|Hn]; cycle 1.
    { rewrite not_running_inert in Hstep by done. by injection Hstep as <-. }
    pose proof (run_state_inv _ _ _ _ _ Hwf Horder _ _ Hrs) as Hinv.
    assert (∀ sel, select algo s = Some sel →
              queue_real graph start_node (sel_state sel)) as Hsub.
    { intros sel Hsel d v He.
      pose proof (select_frame _ _ _ Hsel) as (Hd & _).
      rewrite Hd. apply IH. by eapply select_pq_subseteq. }
    step_analysis Hrun Hstep.
    + destruct (finish_spec _ _ _ Hfin) as ((Hd' & _ & _ & _ & Hq' & _) & _).
      intros d' v'. rewrite Hq', Hd'. apply (Hsub _ Hsel).
    + destruct (finish_spec _ _ _ Hfin) as ((Hd' & _ & _ & _ & Hq' & _) & _).
      intros d' v'. rewrite Hq', Hd'. simpl. apply (Hsub _ Hsel).
    + pose proof (select_spec _ _ _ _ _ _ Hinv Hrun Hsel)
        as (_ & _ & Hdne & Hu & _).
      destruct Hinv as (Hb & _).
      eapply queue_real_relax; [| by apply (bi_reach _ _ _ Hb u d) | done | done].
      apply (Hsub _ Hsel).
Qed.

(** While the sums are exact the priorities are weights of walks. *)
Lemma run_state_queue_exact algo s :
  exact_sums graph →
  run_state graph start_node end_node algo now order s →
  queue_exact graph start_node s.
Proof.
  intros Hexact. induction 1 as [|s s' Hrs IH Hstep].
  - intros d v He. unfold start in He. simpl in He.
    assert ((d, v) = (Fin 0, start_node)) as [= -> ->].
    { destruct algo; simpl in He.
      - by apply list_elem_of_singleton in He.
      - by apply elem_of_nil in He. }
    exists 0. split; [done | constructor].
  - destruct (decide (running s)) as [Hrun|Hn]; cycle 1.
    { rewrite not_running_inert in Hstep by done. by injection Hstep as <-. }
    pose proof (run_state_inv _ _ _ _ _ Hwf Horder _ _ Hrs) as Hinv.
    pose proof (run_state_exact_inv _ _ _ _ _ Hwf Horder Hexact _ _ Hrs) as He.
    assert (∀ sel, select algo s = Some sel →
              queue_exact graph start_node (sel_state sel)) as Hsub.
    { intros sel Hsel d v Hin. apply IH. by eapply select_pq_subseteq. }
    step_analysis Hrun Hstep.
    + destruct (finish_spec _ _ _ Hfin) as ((_ & _ & _ & _ & Hq' & _) & _).
      intros d' v'. rewrite Hq'. apply (Hsub _ Hsel).
    + destruct (finish_spec _ _ _ Hfin) as ((_ & _ & _ & _ & Hq' & _) & _).
      intros d' v'. rewrite Hq'. simpl. apply (Hsub _ Hsel).
    + pose proof (select_spec _ _ _ _ _ _ Hinv Hrun Hsel)
        as (_ & Hnv & Hdne & Hu & _).
      pose proof Hinv as (Hb & _).
      destruct (ei_fin _ _ _ He _ _ Hu Hdne) as [zu ->].
      eapply (relax_ind (queue_exact graph start_node));
        [exact Hr | exact (Hsub _ Hsel) |].
      intros s0 nbr w nd d0 Hq0 _ Hin _ Hnd _ _ d' v' Hin'. simpl in *.
      assert ((d', v') = (nd, nbr) ∨ (d', v') ∈ pq s0) as [[= -> ->]|Hold];
        [| |by apply Hq0].
      { destruct algo; [by apply elem_of_heappush in Hin' | by right]. }
      assert (edge graph u nbr w) as Hedge by (by exists edges).
      destruct (exact_add graph start_node Hexact s u zu nbr w Hb He Hnv Hu Hedge)
        as [Hadd _].
      exists (zu + w). split; [congruence|].
      eapply walk_edge; [|done]. by apply (ei_walk _ _ _ He).
Qed.

Lemma run_state_current algo s :
  run_state graph start_node end_node algo now order s → current_inv s.
Proof.
  induction 1 as [|s s' Hrs [IH1 IH2] Hstep]; [done|].
  destruct (decide (running s)) as [Hrun|Hn]; cycle 1.
  { rewrite not_running_inert in Hstep by done. by injection Hstep as <-. }
  step_analysis Hrun Hstep;
    pose proof (select_frame _ _ _ Hsel) as (_ & _ & Hv & Hc & _); simpl in *.
  - destruct (finish_spec _ _ _ Hfin) as ((_ & _ & Hv' & _ & _ & Hc' & _) & _).
    split; rewrite Hv', Hc', Hv, Hc; done.
  - destruct (finish_spec _ _ _ Hfin) as ((_ & _ & Hv' & _ & _ & Hc' & _) & _).
    simpl in *. split; rewrite Hv', Hc'; [|done].
    intros u0 [= <-]. set_solver.
  - destruct (relax_frame _ _ _ _ _ _ Hr) as (Hv' & _ & Hc' & _).
    simpl in *. split; rewrite Hv', Hc'; [|done].
    intros u0 [= <-]. set_solver.
Qed.

End Along.

Lemma relax_lin_with_pq q u du edges : ∀ s,
  relax lin u du edges (with_pq q s) = with_pq q <$> relax lin u du edges s.
Proof.
  induction edges as [|[nbr w] edges IH]; simpl; intros s; [done|].
  destruct (decide (nbr ∈ visited s)); [apply IH|].
  destruct (dist_add du w) as [nd|]; simpl; [|done].
  destruct (dist s !! nbr) as [d|]; simpl; [|done].
  destruct (dist_ltb nd d); [|apply IH].
  apply (IH (improve lin u nbr nd s)).
Qed.

Lemma finish_with_pq end_node q s :
  _finish end_node (with_pq q s) = with_pq q <$> _finish end_node s.
Proof. unfold _finish. simpl. by destruct (dist s !! end_node). Qed.

(** X11.  In linear-scan mode the priority queue is never used: [start] and
    [step] leave [pq] as it is, [step] does the same whatever [pq] holds,
    and in every state of a run [pq] is empty. *)
Theorem X11_scan_ignores_queue (graph : Graph) (start_node end_node : string)
    (now : Z) (order : list string) :
  (∀ t s, pq (start start_node lin t s) = pq s) ∧
  (∀ s s', step graph end_node lin s = Some s' → pq s' = pq s) ∧
  (∀ q s, step graph end_node lin (with_pq q s)
          = with_pq q <$> step graph end_node lin s) ∧
  (∀ s, run_state graph start_node end_node lin now order s → pq s = []).
Proof.
  assert (∀ s s', step graph end_node lin s = Some s' → pq s' = pq s) as Hstep.
  { intros s s' Hs. destruct (decide (running s)) as [Hrun|Hn]; cycle 1.
    { rewrite not_running_inert in Hs by done. by injection Hs as <-. }
    step_analysis Hrun Hs.
    - apply select_lin_none in Hsel as [-> _].
      by destruct (finish_spec _ _ _ Hfin) as ((_ & _ & _ & _ & -> & _) & _).
    - apply select_lin_cand in Hsel as (_ & _ & _ & _ & ->).
      by destruct (finish_spec _ _ _ Hfin) as ((_ & _ & _ & _ & -> & _) & _).
    - apply select_lin_cand in Hsel as (_ & _ & _ & _ & ->).
      by rewrite (relax_pq_lin _ _ _ _ _ Hr). }
  split_and!.
  - intros t s. unfold start. by destruct (is_running s).
  - exact Hstep.
  - intros q s. unfold step. simpl.
    destruct (negb (is_running s) || is_finished s); [done|].
    unfold select. simpl.
    destruct (min_unvisited (dist s) (unvisited s)) as [[u|]|]; simpl; [| |done].
    + destruct (dist s !! u) as [d|]; simpl; [|done].
      destruct (is_inf d).
      * apply (finish_with_pq end_node q s).
      * simpl. destruct (decide (u = end_node)).
        -- apply (finish_with_pq end_node q
                    (settle u (with_unvisited (set_remove u (unvisited s)) s))).
        -- destruct (graph !! u) as [edges|]; simpl; [|done].
           apply (relax_lin_with_pq q u d edges
                    (settle u (with_unvisited (set_remove u (unvisited s)) s))).
    + apply (finish_with_pq end_node q s).
  - induction 1 as [|s s' _ IH Hs]; [done|].
    by rewrite (Hstep _ _ Hs).
Qed.

(** X12.  In every state of a run each entry [(d, v)] of the priority queue,
    stale or not, is for a node [v] that a walk from the start node
    reaches; its priority is not [inf], and [dist[v]] is not above it.
    When the sums are exact in floats the priority is the weight of a
    walk from the start node to [v]. *)
Theorem X12_queue_entries_are_walks (graph : Graph)
    (start_node end_node : string) (algo : Algo) (now : Z)
    (order : list string) (s : Engine) (d : Dist) (v : string) :
  well_formed graph start_node end_node → set_order graph order →
  run_state graph start_node end_node algo now order s →
  (d, v) ∈ pq s →
  d ≠ Inf ∧ (∃ z, walk graph start_node v z) ∧
  (∃ dv, dist s !! v = Some dv ∧ dist_le dv d) ∧
  (exact_sums graph → ∃ z, d = Fin z ∧ walk graph start_node v z).
Proof.
  intros Hwf Hord Hrs Hin.
  destruct (run_state_queue_real _ _ _ _ _ Hwf Hord _ _ Hrs _ _ Hin)
    as (Hne & Hw & Hdv).
  split_and!; [done | done | done |].
  intros Hex.
  by apply (run_state_queue_exact _ _ _ _ _ Hwf Hord _ _ Hex Hrs).
Qed.

Lemma X12_queue_entries_are_walks_witness :
  let s0 := start "A" heap 0 (reset builtin_graph "A" builtin_nodes) in
  ∃ s, steps builtin_graph "G" heap 3 s0 = Some s ∧
       (Fin 5, "C") ∈ pq s ∧
       Fin 5 ≠ Inf ∧ (∃ z, walk builtin_graph "A" "C" z) ∧
       (∃ dv, dist s !! "C" = Some dv ∧ dist_le dv (Fin 5)) ∧
       (exact_sums builtin_graph →
        ∃ z, Fin 5 = Fin z ∧ walk builtin_graph "A" "C" z).
Proof.
  intros s0.
  destruct (steps builtin_graph "G" heap 3 s0) as [s|] eqn:Hs;
    [|vm_compute in Hs; discriminate Hs].
  exists s.
  assert ((Fin 5, "C") ∈ pq s) as Hin.
  { assert (from_option (λ s1, bool_decide ((Fin 5, "C") ∈ pq s1)) false
              (steps builtin_graph "G" heap 3 s0) = true) as Hv
      by (vm_compute; reflexivity).
    rewrite Hs in Hv. simpl in Hv. by apply bool_decide_eq_true in Hv. }
  split; [reflexivity|]. split; [exact Hin|].
  apply (X12_queue_entries_are_walks builtin_graph "A" "G" heap 0 builtin_nodes
           s (Fin 5) "C" builtin_well_formed builtin_set_order).
  - exact (steps_run_state builtin_graph "A" "G" heap 0 builtin_nodes 3 s0 s
             (run_begin builtin_graph "A" "G" heap 0 builtin_nodes) Hs).
  - exact Hin.
Defined.

(** X13.  Node colours follow the settling of nodes.  In every state of a
    run a node is drawn khaki exactly when it is [current_node], the node
    settled last; it is drawn khaki or light gray exactly when it is
    settled; and before the first step settles a node no node is khaki. *)
Theorem X13_colours_follow_settling (graph : Graph)
    (start_node end_node : string) (algo : Algo) (now : Z)
    (order : list string) (s : Engine) (n : string) :
  well_formed graph start_node end_node → set_order graph order →
  run_state graph start_node end_node algo now order s →
  (_get_node_color start_node end_node s n = "khaki" ↔
   current_node s = Some n) ∧
  (n ∈ visited s ↔
   _get_node_color start_node end_node s n = "khaki" ∨
   _get_node_color start_node end_node s n = "lightgray") ∧
  (visited s = ∅ → _get_node_color start_node end_node s n ≠ "khaki").
Proof.
  intros Hwf Hord Hrs.
  destruct (run_state_current _ _ _ _ _ Hwf Hord _ _ Hrs) as [Hc1 Hc2].
  unfold _get_node_color.
  destruct (decide (current_node s = Some n)) as [Hc|Hc].
  - pose proof (Hc1 _ Hc) as Hin.
    split_and!; [naive_solver | naive_solver |].
    intros He. rewrite He in Hin. set_solver.
  - destruct (decide (n ∈ visited s)) as [Hv|Hv].
    + split_and!; naive_solver.
    + destruct (decide (n = start_node)), (decide (n = end_node));
        split_and!; naive_solver.
Qed.

Lemma X13_colours_follow_settling_witness :
  let s := start "A" heap 0 (reset builtin_graph "A" builtin_nodes) in
  (_get_node_color "A" "G" s "A" = "khaki" ↔ current_node s = Some "A") ∧
  ("A" ∈ visited s ↔
   _get_node_color "A" "G" s "A" = "khaki" ∨
   _get_node_color "A" "G" s "A" = "lightgray") ∧
  (visited s = ∅ → _get_node_color "A" "G" s "A" ≠ "khaki").
Proof.
  intros s.
  apply (X13_colours_follow_settling builtin_graph "A" "G" heap 0 builtin_nodes
           s "A" builtin_well_formed builtin_set_order).
  apply run_begin.
Defined.

(** X14.  Pressing Start a second time changes nothing, whichever algorithm
    is selected by then and whatever the clock reads: the queue, the start
    time and the status label stay those of the first press. *)
Theorem X14_start_twice (start_node : string) (algo algo' : Algo)
    (t t' : Z) (s : Engine) :
  start start_node algo' t' (start start_node algo t s)
  = start start_node algo t s.
Proof.
  unfold start. destruct (is_running s) eqn:Hr; simpl; by rewrite ?Hr.
Qed.

(** ** What is drawn *)

Lemma elem_of_drawn_edges (graph : Graph) u v w :
  (u, v, w) ∈ drawn_edges graph ↔ edge graph u v w ∧ String.ltb u v = true.
Proof.
  unfold drawn_edges, edge. rewrite list_elem_of_bind. split.
  - intros ([u' edges] & Hin & Hu%elem_of_map_to_list).
    apply list_elem_of_bind in Hin as ([v' w'] & Hin & Hv).
    destruct (String.ltb u' v') eqn:Hlt; [|by apply elem_of_nil in Hin].
    apply list_elem_of_singleton in Hin as [= -> -> ->]. eauto.
  - intros [(edges & Hu & Hin) Hlt]. exists (u, edges).
    split; [|by apply elem_of_map_to_list].
    apply list_elem_of_bind. exists (v, w). split; [|done].
    rewrite Hlt. by left.
Qed.

Lemma builtin_symmetric : symmetric builtin_graph.
Proof.
  assert (map_Forall
            (λ u edges, Forall (λ e : string * Z,
               (u, e.2) ∈ default [] (builtin_graph !! e.1)) edges)
            builtin_graph) as Hall by compute_done.
  intros u v w (edges & Hu & Hin).
  pose proof (map_Forall_lookup_1 _ _ _ _ Hall Hu) as Hf.
  rewrite Forall_forall in Hf. specialize (Hf (v, w) Hin). simpl in Hf.
  destruct (builtin_graph !! v) as [l|] eqn:Hv; simpl in Hf.
  - by exists l.
  - by apply elem_of_nil in Hf.
Qed.

(** X15.  [_redraw] draws nothing but edges of the graph, never a
    self-loop, and, when the graph holds every edge in both directions, it
    draws an edge between two distinct nodes in exactly one of the two
    directions: from the node with the smaller name. *)
Theorem X15_each_edge_drawn_one_way (graph : Graph) :
  symmetric graph →
  (∀ u v w, (u, v, w) ∈ drawn_edges graph →
            edge graph u v w ∧ edge graph v u w ∧ u ≠ v ∧
            String.ltb u v = true) ∧
  (∀ u v w, edge graph u v w → u ≠ v →
            ((u, v, w) ∈ drawn_edges graph ↔
             (v, u, w) ∉ drawn_edges graph)).
Proof.
  intros Hsym. split.
  - intros u v w [He Hlt]%elem_of_drawn_edges. split_and!; [done | auto | | done].
    intros ->. by rewrite string_ltb_irrefl in Hlt.
  - intros u v w He Hne. rewrite !elem_of_drawn_edges. split.
    + intros [_ Hlt] [_ Hlt'].
      pose proof (string_ltb_trans _ _ _ Hlt Hlt') as Habs.
      by rewrite string_ltb_irrefl in Habs.
    + intros Hnot. split; [done|].
      destruct (String.ltb u v) eqn:Hlt; [done|].
      destruct (String.ltb v u) eqn:Hlt'.
      * destruct Hnot. split; [by apply Hsym | done].
      * by destruct Hne; apply string_ltb_total.
Qed.

Lemma X15_each_edge_drawn_one_way_witness :
  symmetric builtin_graph ∧
  (∀ u v w, (u, v, w) ∈ drawn_edges builtin_graph →
            edge builtin_graph u v w ∧ edge builtin_graph v u w ∧ u ≠ v ∧
            String.ltb u v = true) ∧
  (∀ u v w, edge builtin_graph u v w → u ≠ v →
            ((u, v, w) ∈ drawn_edges builtin_graph ↔
             (v, u, w) ∉ drawn_edges builtin_graph)).
Proof.
  split; [exact builtin_symmetric|].
  exact (X15_each_edge_drawn_one_way builtin_graph builtin_symmetric).
Defined.

(** ** The side panel in linear-scan mode *)

Lemma insert_keyed_perm k x l : insert_keyed k x l ≡ₚ (k, x) :: l.
Proof.
  induction l as [|[ky y] l IH]; simpl; [done|].
  destruct (dist_ltb ky k); [|done].
  rewrite IH. apply Permutation_swap.
Qed.

Lemma sort_keyed_perm l : sort_keyed l ≡ₚ l.
Proof.
  induction l as [|[k x] l IH]; simpl; [done|].
  by rewrite insert_keyed_perm, IH.
Qed.

Lemma insert_keyed_sorted k x l :
  keys_sorted l → keys_sorted (insert_keyed k x l).
Proof.
  unfold keys_sorted. induction 1 as [|[ky y] l Hs IH Hall]; simpl.
  - repeat constructor.
  - destruct (dist_ltb ky k) eqn:Hlt.
    + constructor; [done|].
      rewrite insert_keyed_perm. constructor; [|done].
      simpl. by apply dist_ltb_le.
    + constructor; [by constructor|].
      constructor; [simpl; by apply dist_ltb_false_le|].
      eapply Forall_impl; [exact Hall|]. intros [kz z] Hz. simpl in *.
      eapply dist_le_trans; [|exact Hz]. by apply dist_ltb_false_le.
Qed.

Lemma sort_keyed_sorted l : keys_sorted (sort_keyed l).
Proof.
  induction l as [|[k x] l IH]; simpl; [constructor|].
  by apply insert_keyed_sorted.
Qed.

Lemma keys_sorted_lookup l i j a b :
  keys_sorted l → (i < j)%nat → l !! i = Some a → l !! j = Some b →
  dist_le a.1 b.1.
Proof.
  unfold keys_sorted. intros Hs. revert i j.
  induction Hs as [|c l Hs IH Hall]; intros i j Hij Hi Hj; [done|].
  destruct j as [|j]; [lia|]. simpl in Hj.
  destruct i as [|i]; simpl in Hi.
  - injection Hi as ->. rewrite Forall_forall in Hall.
    apply Hall. by eapply list_elem_of_lookup_2.
  - apply (IH i j); [lia | done | done].
Qed.

Lemma head_insert_keyed k x l :
  head (insert_keyed k x l)
  = match head l with
    | None => Some (k, x)
    | Some m => if dist_ltb m.1 k then Some m else Some (k, x)
    end.
Proof.
  destruct l as [|[ky y] l]; simpl; [done|]. by destruct (dist_ltb ky k).
Qed.

Lemma head_sort_keyed l : head (sort_keyed l) = first_min_r l.
Proof.
  induction l as [|[k x] l IH]; simpl; [done|].
  by rewrite head_insert_keyed, IH.
Qed.

Lemma first_min_l_r l : ∀ best,
  first_min_l best l
  = match first_min_r l with
    | None => best
    | Some m => if dist_ltb m.1 best.1 then m else best
    end.
Proof.
  induction l as [|[k v] l IH]; intros best; simpl; [done|].
  destruct (dist_ltb k best.1) eqn:Hk; rewrite IH; simpl;
    destruct (first_min_r l) as [m|]; simpl; rewrite ?Hk; try done.
  - destruct (dist_ltb m.1 k) eqn:Hm; simpl; [|by rewrite Hk].
    by rewrite (dist_ltb_trans _ _ _ Hm Hk).
  - destruct (dist_ltb m.1 k) eqn:Hm; simpl; [done|].
    by rewrite (dist_ltb_neg_trans _ _ _ Hm Hk), Hk.
Qed.

Lemma first_min_r_cons k v l :
  first_min_r ((k, v) :: l) = Some (first_min_l (k, v) l).
Proof.
  rewrite first_min_l_r. simpl.
  destruct (first_min_r l) as [m|]; [|done]. by destruct (dist_ltb m.1 k).
Qed.

Lemma keyed_by_exists d l :
  (∀ v, v ∈ l → v ∈ dom d) →
  ∃ keyed, keyed_by d l keyed ∧
           mapM (λ v, k ← d !! v; Some (k, v)) l = Some keyed.
Proof.
  induction l as [|v l IH]; intros Hall.
  - exists []. split; [constructor | done].
  - destruct IH as (keyed & Hk & Hm); [intros; apply Hall; by right|].
    assert (v ∈ dom d) as [k Hv]%elem_of_dom by (apply Hall; by left).
    exists ((k, v) :: keyed). split; [by constructor|].
    simpl. rewrite Hv. simpl. by rewrite Hm.
Qed.

Lemma keyed_by_snd d l keyed : keyed_by d l keyed → snd <$> keyed = l.
Proof.
  unfold keyed_by. intros H.
  induction H as [|x y l' k' [Hx _] _ IH]; simpl; [done|]. by f_equal.
Qed.

Lemma keyed_by_key d l keyed k v :
  keyed_by d l keyed → (k, v) ∈ keyed → d !! v = Some k.
Proof.
  unfold keyed_by. intros H.
  induction H as [|x y l' k' [Hx Hd] _ IH]; simpl.
  - by intros ?%elem_of_nil.
  - intros [<-|Hin]%elem_of_cons; [|auto]. simpl in *. by subst.
Qed.

Lemma min_scan_keyed d l keyed : ∀ best kb,
  keyed_by d l keyed →
  min_scan d best (Some kb) l = Some (first_min_l (kb, best) keyed).2.
Proof.
  revert keyed. induction l as [|v l IH]; intros keyed best kb Hk.
  - by inversion Hk.
  - inversion Hk as [|v0 kv l0 keyed0 [Hv Hd] Hrest]; subst.
    destruct kv as [k v']. simpl in *. subst.
    rewrite Hd. destruct (dist_ltb k kb); by apply IH.
Qed.

Lemma keyed_by_nil_inv d keyed : keyed_by d [] keyed → keyed = [].
Proof. apply Forall2_nil_inv_l. Qed.

Lemma keyed_by_cons_inv d v l keyed :
  keyed_by d (v :: l) keyed →
  ∃ k keyed', keyed = (k, v) :: keyed' ∧ d !! v = Some k ∧ keyed_by d l keyed'.
Proof.
  intros ([k v'] & keyed' & [Hv Hd] & Hrest & ->)%Forall2_cons_inv_l.
  simpl in *. subst v'. by exists k, keyed'.
Qed.

(** X16.  The side panel of linear-scan mode lists the unvisited nodes by
    distance, nearest first, and its first item is the node [min] returns:
    the node the next call of [step] examines.  When every unvisited node is
    a key of [dist], [sorted(self.unvisited, key=self.dist.get)] returns
    without raising a rearrangement of [unvisited] in non-decreasing order
    of distance whose head is the result of [min(self.unvisited,
    key=self.dist.get, default=None)]. *)
Theorem X16_panel_head_is_next (s : Engine) :
  (∀ v, v ∈ unvisited s → v ∈ dom (dist s)) →
  ∃ items,
    unvisited_items s = Some items ∧ items ≡ₚ unvisited s ∧
    (∀ i j x y dx dy, (i < j)%nat →
       items !! i = Some x → items !! j = Some y →
       dist s !! x = Some dx → dist s !! y = Some dy → dist_le dx dy) ∧
    min_unvisited (dist s) (unvisited s) = Some (head items).
Proof.
  intros Hdom.
  destruct (keyed_by_exists (dist s) (unvisited s) Hdom) as (keyed & Hk & Hm).
  exists (snd <$> sort_keyed keyed). split_and!.
  - unfold unvisited_items.
    destruct (unvisited s) as [|v [|v2 l]] eqn:E.
    + by rewrite (keyed_by_nil_inv _ _ Hk).
    + apply keyed_by_cons_inv in Hk as (k & keyed' & -> & _ & Hnil).
      by rewrite (keyed_by_nil_inv _ _ Hnil).
    + rewrite Hm. done.
  - by rewrite sort_keyed_perm, (keyed_by_snd _ _ _ Hk).
  - intros i j x y dx dy Hij Hi Hj Hdx Hdy.
    rewrite list_lookup_fmap in Hi, Hj.
    destruct (sort_keyed keyed !! i) as [[kx x']|] eqn:Hi'; [|done].
    destruct (sort_keyed keyed !! j) as [[ky y']|] eqn:Hj'; [|done].
    simpl in Hi, Hj. injection Hi as ->. injection Hj as ->.
    assert (∀ k v n, sort_keyed keyed !! n = Some (k, v) →
              dist s !! v = Some k) as Hkey.
    { intros k v n Hn. apply (keyed_by_key _ _ _ _ _ Hk).
      rewrite <- (sort_keyed_perm keyed). by eapply list_elem_of_lookup_2. }
    rewrite (Hkey _ _ _ Hi') in Hdx. rewrite (Hkey _ _ _ Hj') in Hdy.
    injection Hdx as <-. injection Hdy as <-.
    apply (keys_sorted_lookup _ i j (kx, x) (ky, y) (sort_keyed_sorted keyed));
      done.
  - destruct (unvisited s) as [|v l] eqn:E.
    + by rewrite (keyed_by_nil_inv _ _ Hk).
    + apply keyed_by_cons_inv in Hk as (k & keyed' & -> & Hd & Hrest).
      simpl min_unvisited. rewrite Hd.
      rewrite (min_scan_keyed _ _ _ _ _ Hrest). simpl fmap at 1.
      f_equal.
      assert (head (snd <$> sort_keyed ((k, v) :: keyed'))
              = snd <$> head (sort_keyed ((k, v) :: keyed'))) as ->
        by (by destruct (sort_keyed ((k, v) :: keyed'))).
      by rewrite head_sort_keyed, first_min_r_cons.
Qed.

Lemma X16_panel_head_is_next_witness :
  let s := start "A" lin 0 (reset builtin_graph "A" builtin_nodes) in
  (∀ v, v ∈ unvisited s → v ∈ dom (dist s)) ∧
  ∃ items,
    unvisited_items s = Some items ∧ items ≡ₚ unvisited s ∧
    (∀ i j x y dx dy, (i < j)%nat →
       items !! i = Some x → items !! j = Some y →
       dist s !! x = Some dx → dist s !! y = Some dy → dist_le dx dy) ∧
    min_unvisited (dist s) (unvisited s) = Some (head items).
Proof.
  intros s.
  assert (∀ v, v ∈ unvisited s → v ∈ dom (dist s)) as Hdom.
  { assert (Forall (λ v, v ∈ dom (dist s)) (unvisited s)) as Hall
      by compute_done.
    rewrite Forall_forall in Hall. exact Hall. }
  split; [exact Hdom|].
  exact (X16_panel_head_is_next s Hdom).
Defined.

(** X17.  The status line never lies during a run: while the engine is
    Running it reads that the run is running; once Finished, [is_running] is
    cleared and the line reads that a path was found exactly when
    [dist[end_node]] is finite, that the target is unreachable otherwise;
    and [step] never touches the start time. *)
Theorem X17_status_matches_state (graph : Graph)
    (start_node end_node : string) (algo : Algo) (now : Z)
    (order : list string) (s : Engine) :
  run_state graph start_node end_node algo now order s →
  status_matches end_node s ∧ start_time s = now.
Proof.
  induction 1 as [|s s' Hrs [IH IHt] Hstep].
  - split; [|done]. by left.
  - destruct (decide (running s)) as [Hrun|Hn]; cycle 1.
    { rewrite not_running_inert in Hstep by done. by injection Hstep as <-. }
    assert (status_label s = "Running... Press Step to continue.") as Hlabel.
    { destruct IH as [[_ ?]|(_ & Hf & _)]; [done|].
      destruct Hrun. congruence. }
    step_analysis Hrun Hstep;
      pose proof (select_frame _ _ _ Hsel)
        as (Hd & _ & _ & _ & Hr1 & Hf1 & Ht1 & Hl1); simpl in *.
    + destruct (finish_spec _ _ _ Hfin)
        as ((Hd' & _ & _ & _ & _ & _ & Ht') & Hr' & Hf' & d0 & Hd0 & Hst).
      split; [|congruence]. right. split_and!; [done..|].
      exists d0. rewrite Hd'. done.
    + destruct (finish_spec _ _ _ Hfin)
        as ((Hd' & _ & _ & _ & _ & _ & Ht') & Hr' & Hf' & d0 & Hd0 & Hst).
      simpl in *. split; [|congruence]. right. split_and!; [done..|].
      exists d0. rewrite Hd'. done.
    + destruct (relax_frame _ _ _ _ _ _ Hr)
        as (_ & _ & _ & Hr' & Hf' & Ht' & Hl').
      simpl in *. destruct Hrun as [Hrs1 Hrs2].
      split; [|congruence]. left. split; [split|]; congruence.
Qed.

Lemma X17_status_matches_state_witness :
  let s := start "A" heap 7 (reset builtin_graph "A" builtin_nodes) in
  status_matches "G" s ∧ start_time s = 7.
Proof.
  intros s.
  apply (X17_status_matches_state builtin_graph "A" "G" heap 7 builtin_nodes s).
  apply run_begin.
Defined.

(** ** Floats at their limits *)

(** X18.  Distances are floats.  On [round_graph] the only edge weighs
    [2^53 + 1]; the run from S to T finds the path and leaves
    [dist[T] = 2^53], the nearest float, which is not [dist[S]] plus the
    weight of the edge.  On [far_graph] the end node T is two edges of
    [10^308] away; the float sum of the two is [inf], which is not below
    [dist[T]], so T is never relaxed and the run ends with T reported
    unreachable although a walk leads to it.  No call raises in either
    run. *)
Theorem X18_float_sums_round (algo : Algo) :
  (well_formed round_graph "S" "T" ∧ nonneg round_graph ∧
   float_weights round_graph ∧ ¬ exact_sums round_graph ∧
   edge round_graph "S" "T" (2 ^ 53 + 1) ∧
   ∃ s, run round_graph "T" algo (size round_graph)
          (start "S" algo 0 (reset round_graph "S" ["S"; "T"])) = Some s ∧
        is_finished s = true ∧ status_label s = "Path found!" ∧
        dist s !! "S" = Some (Fin 0) ∧ dist s !! "T" = Some (Fin (2 ^ 53)) ∧
        prev s !! "T" = Some (Some "S")) ∧
  (well_formed far_graph "S" "T" ∧ nonneg far_graph ∧
   float_weights far_graph ∧ ¬ exact_sums far_graph ∧
   walk far_graph "S" "T" (10 ^ 308 + 10 ^ 308) ∧
   ∃ s, run far_graph "T" algo (size far_graph)
          (start "S" algo 0 (reset far_graph "S" ["S"; "M"; "T"])) = Some s ∧
        is_finished s = true ∧
        status_label s = "Target is unreachable." ∧
        dist s !! "T" = Some Inf ∧ visited s = {["S"; "M"]}).
Proof.
  split.
  - split_and!; [split_and!; compute_done | compute_done.. | |].
    + exists [("T", 2 ^ 53 + 1)]. split; [reflexivity | by left].
    + destruct algo; eexists; (split; [vm_compute; reflexivity|]);
        split_and!; reflexivity.
  - split_and!; [split_and!; compute_done | compute_done.. | |].
    + apply (walk_edge far_graph "S" "M" "T" (10 ^ 308) (10 ^ 308)).
      * apply (walk_edge far_graph "S" "S" "M" 0 (10 ^ 308)); [constructor|].
        exists [("M", 10 ^ 308)]. split; [reflexivity | by left].
      * exists [("S", 10 ^ 308); ("T", 10 ^ 308)].
        split; [reflexivity | by right; left].
    + destruct algo; eexists; (split; [vm_compute; reflexivity|]);
        split_and!; try reflexivity; by apply leibniz_equiv; vm_compute.
Qed.

(** X19.  A weight too large for a float makes [step] raise.  On
    [huge_graph] the first call of [step] settles S and then raises
    [OverflowError] at [dist_u + weight]: S stays settled and current, the
    queue is left empty in heap mode and S is gone from [unvisited] in
    linear-scan mode, nothing is relaxed and the engine is still Running.
    The second press of Step finds no candidate and finishes the run with T
    reported unreachable, although an edge leads to it. *)
Theorem X19_overflow_raises_then_finishes (algo : Algo) :
  let s0 := start "S" algo 0 (reset huge_graph "S" ["S"; "T"]) in
  let s1 := step_state huge_graph "T" algo s0 in
  well_formed huge_graph "S" "T" ∧ nonneg huge_graph ∧
  ¬ float_weights huge_graph ∧ edge huge_graph "S" "T" (10 ^ 400) ∧
  step huge_graph "T" algo s0 = None ∧
  running s1 ∧ visited s1 = {["S"]} ∧ current_node s1 = Some "S" ∧
  dist s1 = dist s0 ∧ prev s1 = prev s0 ∧ pq s1 = [] ∧
  unvisited s1 = match algo with heap => ["S"; "T"] | lin => ["T"] end ∧
  ∃ s2, step huge_graph "T" algo s1 = Some s2 ∧
        presses huge_graph "T" algo 2 s0 = s2 ∧
        is_finished s2 = true ∧ is_running s2 = false ∧
        visited s2 = {["S"]} ∧ dist s2 !! "T" = Some Inf ∧
        status_label s2 = "Target is unreachable.".
Proof.
  intros s0 s1.
  split; [split_and!; compute_done|].
  split; [compute_done|]. split; [compute_done|].
  split; [exists [("T", 10 ^ 400)]; split; [reflexivity | by left]|].
  destruct algo;
    (split; [vm_compute; reflexivity|]);
    (split; [split; vm_compute; reflexivity|]);
    (split; [apply leibniz_equiv; by vm_compute|]);
    (split; [vm_compute; reflexivity|]);
    (split; [vm_compute; reflexivity|]);
    (split; [vm_compute; reflexivity|]);
    (split; [vm_compute; reflexivity|]);
    (split; [vm_compute; reflexivity|]);
    eexists; (split; [vm_compute; reflexivity|]);
    (split; [vm_compute; reflexivity|]);
    (split; [reflexivity|]); (split; [reflexivity|]);
    (split; [apply leibniz_equiv; by vm_compute|]);
    split; reflexivity.
Qed.
